(** * A content-based movie recommender: the pipeline of [mainRSystem.py]

    The development embeds the functions of [mainRSystem.py] one by one
    ([tokenize_string], [tokenize], [featurize], [train_test_split],
    [cosine_sim], [make_predictions], [mean_absolute_error], and [main] from
    the parsed files on) and proves the properties its specification states
    about them.

    Modelling conventions.
    - Python floats are idealised as the real numbers [R]; rounding is out
      of the model.  A division of Python numbers by zero is the error
      [ZeroDivision]; a division of numpy scalars by zero raises nothing and
      gives nan or an infinity, values of the type [float64].  Where a
      property holds in exact arithmetic only, the arithmetic of the code is
      run in binary64 ([PrimFloat]) on an example.
    - Python exceptions are the errors of the monad [result].
    - Genre text is a [string] of 8-bit characters.  The classes [\w] and
      the map [str.lower] are those of Python on ASCII text, the text of the
      genre column; beyond ASCII Python follows the Unicode tables, and the
      properties of the tokenizer are stated for ASCII text ([ascii_text]).
    - A [dict] is a [gmap], a [set] is a [gset]; iterating over a set goes
      through [elements], whose order is as arbitrary as a hash order.
    - A data frame is the list of its rows, a row is a record.
    - What [main] prints is the list of its lines, kept beside the value or
      the exception the run ends with. *)

From Corelib Require Import PrimFloat.
From Stdlib Require Uint63.
From Stdlib Require Import Reals Lra String Ascii.
From stdpp Require Import gmap strings list fin_maps sorting.

(** ** Errors *)

Inductive pyerr : Type :=
  | IndexError
  | KeyError
  | ValueError
  | ZeroDivision.

Inductive result (A : Type) : Type :=
  | Ok (a : A)
  | Raise (e : pyerr).

Arguments Ok {A} a.
Arguments Raise {A} e.

#[global] Instance result_ret : MRet result := λ A a, Ok a.

#[global] Instance result_bind : MBind result := λ A B k m,
  match m with
  | Ok a => k a
  | Raise e => Raise e
  end.

(** [for x in l: out.append(f x)], stopping at the first exception. *)
Fixpoint for_each {A B : Type} (f : A → result B) (l : list A) : result (list B) :=
  match l with
  | [] => Ok []
  | x :: l' => y ← f x; ys ← for_each f l'; Ok (y :: ys)
  end.

(** [xs[0]] *)
Definition first {A : Type} (l : list A) : result A :=
  match l with
  | [] => Raise IndexError
  | x :: _ => Ok x
  end.

(** ** Characters and strings *)

Definition code (c : ascii) : nat := nat_of_ascii c.

Definition is_upper (c : ascii) : bool := (65 <=? code c) && (code c <=? 90).
Definition is_lower (c : ascii) : bool := (97 <=? code c) && (code c <=? 122).
Definition is_digit (c : ascii) : bool := (48 <=? code c) && (code c <=? 57).

(** [\w], on ASCII text: no character from 128 on is in the class. *)
Definition is_word (c : ascii) : bool :=
  is_upper c || is_lower c || is_digit c || (code c =? 95).

(** The character class [[\w\-]]. *)
Definition is_token_char (c : ascii) : bool := is_word c || (code c =? 45).

Definition lower_char (c : ascii) : ascii :=
  if is_upper c then ascii_of_nat (code c + 32) else c.

(** [str.lower], on ASCII text: only the letters [A] to [Z] change. *)
Fixpoint lower (s : string) : string :=
  match s with
  | EmptyString => EmptyString
  | String c s' => String (lower_char c) (lower s')
  end.

(** [re.findall('[\w\-]+', s)]: a scan from the left; [cur] is the run being
    read, closed at the first character outside the class and at the end of
    the string. *)
Definition flush (cur : string) : list string :=
  match cur with
  | EmptyString => []
  | _ => [cur]
  end.

Fixpoint findall_from (cur : string) (s : string) : list string :=
  match s with
  | EmptyString => flush cur
  | String c s' =>
      if is_token_char c then findall_from (cur +:+ String c EmptyString) s'
      else flush cur ++ findall_from EmptyString s'
  end.

Definition findall (s : string) : list string := findall_from EmptyString s.

Definition tokenize_string (my_string : string) : list string :=
  findall (lower my_string).

(** [pat in s]; also [re.search(pat, s)] for a pattern of word characters
    and hyphens, which a regular expression reads literally. *)
Fixpoint contains (s pat : string) : bool :=
  String.prefix pat s ||
  match s with
  | EmptyString => false
  | String _ s' => contains s' pat
  end.

(** ** Numbers *)

Local Open Scope R_scope.

(** [x / y] *)
Definition divide (x y : R) : result R :=
  if Req_dec_T y 0 then Raise ZeroDivision else Ok (x / y).

(** [math.log10], a [ValueError] outside the positive numbers. *)
Definition log10 (x : R) : result R :=
  if Rlt_dec 0 x then Ok (ln x / ln 10) else Raise ValueError.

(** [sum(l)]: the built-in starts from [0] and adds from the left. *)
Definition pysum (l : list R) : R := foldl Rplus 0 l.

(** A [numpy.float64]: a real number (rounding is out of the model), an
    infinity or nan.  The zero of the model stands for [+0.0], the only zero
    the programs below divide by. *)
Inductive float64 : Type :=
  | Finite (x : R)
  | PosInf
  | NegInf
  | NaN.

(** [x + y], [x - y], [x * y] and [abs(x)] *)
Definition fadd (x y : float64) : float64 :=
  match x, y with
  | Finite a, Finite b => Finite (a + b)
  | NaN, _ | _, NaN => NaN
  | PosInf, NegInf | NegInf, PosInf => NaN
  | PosInf, _ | _, PosInf => PosInf
  | NegInf, _ | _, NegInf => NegInf
  end.

Definition fsub (x y : float64) : float64 :=
  match x, y with
  | Finite a, Finite b => Finite (a - b)
  | NaN, _ | _, NaN => NaN
  | PosInf, PosInf | NegInf, NegInf => NaN
  | PosInf, _ | _, NegInf => PosInf
  | NegInf, _ | _, PosInf => NegInf
  end.

Definition fmul (x y : float64) : float64 :=
  match x, y with
  | Finite a, Finite b => Finite (a * b)
  | NaN, _ | _, NaN => NaN
  | Finite a, PosInf | PosInf, Finite a =>
      if Req_dec_T a 0 then NaN else if Rlt_dec 0 a then PosInf else NegInf
  | Finite a, NegInf | NegInf, Finite a =>
      if Req_dec_T a 0 then NaN else if Rlt_dec 0 a then NegInf else PosInf
  | PosInf, PosInf | NegInf, NegInf => PosInf
  | PosInf, NegInf | NegInf, PosInf => NegInf
  end.

Definition fabs (x : float64) : float64 :=
  match x with
  | Finite a => Finite (Rabs a)
  | PosInf | NegInf => PosInf
  | NaN => NaN
  end.

(** [x / y] when one of the two is a [numpy.float64]: a division by zero
    raises nothing, it gives nan or an infinity (with a [RuntimeWarning]). *)
Definition np_divide (x y : float64) : float64 :=
  match x, y with
  | NaN, _ | _, NaN => NaN
  | Finite a, Finite b =>
      if Req_dec_T b 0
      then if Req_dec_T a 0 then NaN else if Rlt_dec 0 a then PosInf else NegInf
      else Finite (a / b)
  | Finite _, (PosInf | NegInf) => Finite 0
  | (PosInf | NegInf), (PosInf | NegInf) => NaN
  | PosInf, Finite b => if Rlt_dec b 0 then NegInf else PosInf
  | NegInf, Finite b => if Rlt_dec b 0 then PosInf else NegInf
  end.

(** [x > 0.0]: false for nan. *)
Definition is_positive (x : float64) : bool :=
  match x with
  | Finite a => if Rlt_dec 0 a then true else false
  | PosInf => true
  | NegInf | NaN => false
  end.

(** [sum(l)] on a list of [numpy.float64]. *)
Definition fsum (l : list float64) : float64 := foldl fadd (Finite 0) l.

(** ** The data model *)

(** A row of [movies.csv]. *)
Record movie : Type := { movieId : Z; genres : string }.

(** A movie with the column ['tokens']. *)
Record tokenized : Type := { row_of : movie; tokens : list string }.

(** A 1 x [shape1] [csr_matrix]: the stored entries, by column.  A stored
    entry may hold the value [0]. *)
Record csr : Type := { shape1 : nat; stored : gmap nat R }.

(** A movie with the columns ['tokens'] and ['features']. *)
Record featurized : Type := { tok_of : tokenized; features : csr }.

(** A row of [ratings.csv]; [r_movieId] is its column [movieId]. *)
Record rating_row : Type := { userId : Z; r_movieId : Z; rating : R }.

(** ** Sparse vectors *)

(** [csr_matrix((data, (rows, column)), shape=(1, n))] with [rows] all [0]:
    entries at the same column are added up, a column outside the shape is a
    [ValueError]. *)
Definition coo_add (m : gmap nat R) (e : nat * R) : gmap nat R :=
  <[e.1 := default 0 (m !! e.1) + e.2]> m.

Definition csr_matrix (coo : list (nat * R)) (n : nat) : result csr :=
  if decide (Forall (λ e : nat * R, (e.1 < n)%nat) coo)
  then Ok {| shape1 := n; stored := foldl coo_add ∅ coo |}
  else Raise ValueError.

(** [a[0, i]] *)
Definition getitem (a : csr) (i : nat) : result R :=
  if decide (i < shape1 a)%nat then Ok (default 0 (stored a !! i))
  else Raise IndexError.

(** [a.data]; its order plays no role, the code only adds the squares up. *)
Definition data (a : csr) : list R := (map_to_list (stored a)).*2.

(** ** Tokenizer *)

Definition tokenize (movies : list movie) : list tokenized :=
  map (λ m, {| row_of := m; tokens := tokenize_string (genres m) |}) movies.

(** ** Vocabulary and features *)

Definition string_le (s1 s2 : string) : Prop := String.leb s1 s2 = true.

#[global] Instance string_le_dec s1 s2 : Decision (string_le s1 s2).
Proof. unfold string_le. apply _. Defined.

(** [sorted(set(l))] *)
Definition sorted_set (l : list string) : list string :=
  merge_sort string_le (elements (list_to_set l : gset string)).

(** [{k: v for v, k in enumerate(l)}]: a later pair overrides an earlier one. *)
Definition enumerate_dict (l : list string) : gmap string nat :=
  foldl (λ d vk, <[vk.2 := vk.1]> d) ∅ (imap pair l).

(** [row.count(term)] *)
Definition count (row : list string) (term : string) : nat :=
  count_occ String.string_dec row term.

(** [Counter(row)] *)
Definition Counter (row : list string) : gmap string nat :=
  foldl (λ c t, <[t := S (default 0%nat (c !! t))]> c) ∅ row.

(** The counts of [c.most_common(1)]: the largest count, none for an empty
    counter. *)
Definition most_common_1 (c : gmap string nat) : list nat :=
  if decide (c = ∅) then []
  else [map_fold (λ _ n acc, n `max` acc)%nat 0%nat c].

(** [movies.genres.str.lower().str.contains(term).sum()] *)
Definition document_frequency (movies : list tokenized) (term : string) : nat :=
  length (filter (λ m, contains (lower (genres (row_of m))) term = true) movies).

(** [d[k]] *)
Definition dict_get {V : Type} (d : gmap string V) (k : string) : result V :=
  match d !! k with
  | Some v => Ok v
  | None => Raise KeyError
  end.

(** The body of the loop over [set(row)]: the column and the tf-idf weight of
    one term. *)
Definition tfidf_entry (N : nat) (vocab dfdict : gmap string nat)
    (row : list string) (max_k_tf : nat) (term : string) : result (nat * R) :=
  let tf := count row term in
  ratio ← divide (INR tf) (INR max_k_tf);
  df ← dict_get dfdict term;
  q ← divide (INR N) (INR df);
  idf ← log10 q;
  col ← dict_get vocab term;
  Ok (col, ratio * idf).

(** The body of the loop over [movies['tokens']]. *)
Definition featurize_row (N : nat) (vocab dfdict : gmap string nat)
    (row : list string) : result csr :=
  max_k_tf ← first (most_common_1 (Counter row));
  coo ← for_each (tfidf_entry N vocab dfdict row max_k_tf)
                 (elements (list_to_set row : gset string));
  csr_matrix coo (size vocab).

(** The first lines of [featurize]: [token_list], [final_token_list] and
    [vocab]. *)
Definition vocabulary (movies : list tokenized) : gmap string nat :=
  let token_list := concat (map tokens movies) in
  let final_token_list := sorted_set token_list in
  enumerate_dict final_token_list.

(** The loop that fills [dfdict], one entry per term of [vocab]. *)
Definition df_table (movies : list tokenized) (vocab : gmap string nat)
    : gmap string nat :=
  map_imap (λ term _, Some (document_frequency movies term)) vocab.

Definition featurize (movies : list tokenized)
    : result (list featurized * gmap string nat) :=
  let N := length movies in
  let vocab := vocabulary movies in
  let dfdict := df_table movies vocab in
  value ← for_each (λ m, featurize_row N vocab dfdict (tokens m)) movies;
  Ok (zip_with (λ m v, {| tok_of := m; features := v |}) movies value, vocab).

(** ** Dataset splitter *)

(** [l[::step]] *)
Fixpoint stride_from {A : Type} (step skip : nat) (l : list A) : list A :=
  match l with
  | [] => []
  | x :: l' =>
      match skip with
      | O => x :: stride_from step (step - 1) l'
      | S skip' => stride_from step skip' l'
      end
  end.

Definition stride {A : Type} (step : nat) (l : list A) : list A :=
  stride_from step 0 l.

(** [sorted(s)] for a set of positions. *)
Definition sorted_positions (s : gset nat) : list nat :=
  merge_sort le (elements s).

(** [ratings.iloc[positions]] *)
Definition iloc {A : Type} (rows : list A) (positions : list nat) : result (list A) :=
  for_each (λ i, match rows !! i with
                 | Some r => Ok r
                 | None => Raise IndexError
                 end) positions.

(** The positions [train] and [test] of [train_test_split]. *)
Definition split_positions (n : nat) : list nat * list nat :=
  let test : gset nat := list_to_set (stride 1000 (seq 0 n)) in
  let train := sorted_positions (list_to_set (seq 0 n) ∖ test) in
  let test := sorted_positions test in
  (train, test).

Definition train_test_split {A : Type} (ratings : list A)
    : result (list A * list A) :=
  let '(train, test) := split_positions (length ratings) in
  tr ← iloc ratings train;
  te ← iloc ratings test;
  Ok (tr, te).

(** ** Similarity *)

(** After the first pass of the [while] loop [value] is a [numpy.float64]:
    the division at the end is numpy's and raises nothing.  For a vector
    without columns the loop is not entered, [value] is still the Python
    float [0.0], and the division is Python's. *)
Definition cosine_sim (a b : csr) : result float64 :=
  let valueA := foldl (λ acc i, acc + i * i) 0 (data a) in
  let normA := sqrt valueA in
  let valueB := foldl (λ acc i, acc + i * i) 0 (data b) in
  let normB := sqrt valueB in
  value ← foldl (λ acc i, v ← acc; bi ← getitem b i; ai ← getitem a i;
                          Ok (v + bi * ai))
                (Ok 0) (seq 0 (shape1 a));
  if decide (shape1 a = 0%nat)
  then q ← divide value (normA * normB); Ok (Finite q)
  else Ok (np_divide (Finite value) (Finite (normA * normB))).

(** ** Prediction *)

(** [movies[movies.movieId == k]] *)
Definition movies_with (movies : list featurized) (k : Z) : list featurized :=
  filter (λ m, movieId (row_of (tok_of m)) = k) movies.

(** [ratings_train[ratings_train.userId == u]] *)
Definition ratings_of (ratings_train : list rating_row) (u : Z) : list rating_row :=
  filter (λ r, userId r = u) ratings_train.

(** The body of the outer loop: the prediction for one test row.  The
    similarities are [numpy.float64], so are their products with the ratings
    and the two sums, and [S / W] is numpy's division; the ratings of the
    [Series] are Python floats, and their mean is Python's division. *)
Definition predict_row (movies : list featurized) (ratings_train : list rating_row)
    (row : rating_row) : result float64 :=
  let feat_test := movies_with movies (r_movieId row) in
  let users := ratings_of ratings_train (userId row) in
  let rating_train := map rating users in
  arr ← for_each (λ row',
           let feat_train := movies_with movies (r_movieId row') in
           a ← first (map features feat_train);
           b ← first (map features feat_test);
           cosine_sim a b) users;
  let cosine_arr := zip_with (λ a b, fmul (Finite a) b) rating_train arr in
  let Scosine := fsum cosine_arr in
  if is_positive Scosine then Ok (np_divide (fsum cosine_arr) (fsum arr))
  else pre ← divide (pysum rating_train) (INR (length rating_train));
       Ok (Finite pre).

Definition make_predictions (movies : list featurized)
    (ratings_train ratings_test : list rating_row) : result (list float64) :=
  for_each (predict_row movies ratings_train) ratings_test.

(** ** Evaluation *)

(** [x - y] on one-dimensional arrays, with numpy's broadcasting of an array
    of length one; other unequal lengths are a [ValueError]. *)
Definition array_sub (x y : list float64) : result (list float64) :=
  if decide (length x = length y) then Ok (zip_with fsub x y)
  else match x, y with
       | [x0], _ => Ok (map (λ yi, fsub x0 yi) y)
       | _, [y0] => Ok (map (λ xi, fsub xi y0) x)
       | _, _ => Raise ValueError
       end.

(** [a.mean()]: the sum over the number of elements, nan for an empty array
    (with a [RuntimeWarning]). *)
Definition mean (a : list float64) : float64 :=
  np_divide (fsum a) (Finite (INR (length a))).

Definition mean_absolute_error (predictions : list float64)
    (ratings_test : list rating_row) : result float64 :=
  d ← array_sub predictions (map (λ r, Finite (rating r)) ratings_test);
  Ok (mean (map fabs d)).

(** ** The arithmetic of the code in binary64

    The lines of [cosine_sim] and of [make_predictions] that compute with
    floats, on the numbers of the code (IEEE 754 binary64), for the places
    where a rounding error decides.  A feature vector is the list of its
    components, zero where nothing is stored: adding [0.0 * 0.0] changes no
    sum. *)

(** [sum(l)] *)
Definition b64_sum (l : list float) : float := foldl PrimFloat.add 0%float l.

Definition b64_cosine_sim (a b : list float) : float :=
  let valueA := foldl (λ acc i, PrimFloat.add acc (PrimFloat.mul i i)) 0%float a in
  let normA := PrimFloat.sqrt valueA in
  let valueB := foldl (λ acc i, PrimFloat.add acc (PrimFloat.mul i i)) 0%float b in
  let normB := PrimFloat.sqrt valueB in
  let value := foldl PrimFloat.add 0%float (zip_with PrimFloat.mul b a) in
  PrimFloat.div value (PrimFloat.mul normA normB).

(** The prediction from the ratings [rating_train] of the user and the
    similarities [arr]. *)
Definition b64_predict (rating_train arr : list float) : float :=
  let cosine_arr := zip_with PrimFloat.mul rating_train arr in
  let Scosine := b64_sum cosine_arr in
  if PrimFloat.ltb 0%float Scosine
  then PrimFloat.div (b64_sum cosine_arr) (b64_sum arr)
  else PrimFloat.div (b64_sum rating_train)
         (PrimFloat.of_uint63 (Uint63.of_Z (Z.of_nat (length rating_train)))).

(** ** The program *)

(** The order of [sorted(vocab.items())]: Python compares two pairs
    (term, index) by their terms and, for equal terms, by their indices. *)
Definition item_le (x y : string * nat) : Prop :=
  if decide (x.1 = y.1) then (x.2 <= y.2)%nat else string_le x.1 y.1.

#[global] Instance item_le_dec x y : Decision (item_le x y).
Proof. unfold item_le. destruct (decide (x.1 = y.1)); apply _. Defined.

(** [sorted(vocab.items())] *)
Definition sorted_items (vocab : gmap string nat) : list (string * nat) :=
  merge_sort item_le (map_to_list vocab).

(** A line that [main] prints.  A number is kept as the number, not as the
    text that [%d], [%f] and [print] make of it. *)
Inductive line : Type :=
  | vocab_title
  | vocab_items (items : list (string * nat))
  | split_sizes (n_train n_test : nat)
  | error_value (e : float64)
  | predictions_head (p : list float64).

(** A run of the program: the lines printed so far, and the value or the
    exception the run ends with.  Nothing is printed after an exception. *)
Definition run (A : Type) : Type := list line * result A.

Definition print (l : line) : run unit := ([l], Ok ()).

Definition call {A : Type} (m : result A) : run A := ([], m).

#[global] Instance run_bind : MBind run := λ A B k m,
  match m.2 with
  | Ok a => (m.1 ++ (k a).1, (k a).2)
  | Raise e => (m.1, Raise e)
  end.

(** [main] from the two frames on: [ratings] and [movies] are what
    [download_data] and [read_csv] put into [ratings.csv] and [movies.csv]. *)
Definition main (ratings : list rating_row) (movies : list movie) : run unit :=
  let movies := tokenize movies in
  '(movies, vocab) ← call (featurize movies);
  print vocab_title;;
  print (vocab_items (take 10 (sorted_items vocab)));;
  '(ratings_train, ratings_test) ← call (train_test_split ratings);
  print (split_sizes (length ratings_train) (length ratings_test));;
  predictions ← call (make_predictions movies ratings_train ratings_test);
  err ← call (mean_absolute_error predictions ratings_test);
  print (error_value err);;
  print (predictions_head (take 10 predictions)).

(** * The specification's notions

    Definitions that follow the words of the specification, to be compared
    with the program above, and the inputs of the examples. *)

(** The sum of a sequence of numbers. *)
Definition sum_list (l : list R) : R := foldr Rplus 0 l.

(** [n] elements of [l] satisfy [P]. *)
Inductive counts {A : Type} (P : A → Prop) : list A → nat → Prop :=
  | counts_nil : counts P [] 0
  | counts_yes x l n : P x → counts P l n → counts P (x :: l) (S n)
  | counts_no x l n : ¬ P x → counts P l n → counts P (x :: l) n.

(** ** Tokenizer *)

(** The text the tokenizer is specified on: ASCII.  There [\w] is a letter
    of the English alphabet, a digit or the underscore, and [str.lower]
    touches the capital letters only; outside ASCII Python follows the
    Unicode tables, which are not part of this development. *)
Definition is_ascii (c : ascii) : bool :=
  match c with
  | Ascii _ _ _ _ _ _ _ high => negb high
  end.

(** [all_chars p s]: every character of [s] satisfies [p]. *)
Fixpoint all_chars (p : ascii → bool) (s : string) : bool :=
  match s with
  | EmptyString => true
  | String c s' => p c && all_chars p s'
  end.

Definition ascii_text (s : string) : Prop := all_chars is_ascii s = true.

(** [occurs c s]: the character [c] is one of the characters of [s]. *)
Fixpoint occurs (c : ascii) (s : string) : bool :=
  match s with
  | EmptyString => false
  | String d s' => bool_decide (c = d) || occurs c s'
  end.

Definition capital_letters : string := "ABCDEFGHIJKLMNOPQRSTUVWXYZ".
Definition small_letters : string := "abcdefghijklmnopqrstuvwxyz".
Definition digits : string := "0123456789".

(** A word character, and a character of a token: a word character or the
    hyphen. *)
Definition word_character (c : ascii) : bool :=
  occurs c capital_letters || occurs c small_letters || occurs c digits ||
  occurs c "_".

Definition token_character (c : ascii) : bool :=
  word_character c || occurs c "-".

(** The lowercased string: a capital letter is replaced by the small letter
    at the same place of the alphabet, every other character stays. *)
Fixpoint translate (from to : string) (c : ascii) : ascii :=
  match from, to with
  | String f from', String t to' =>
      if bool_decide (c = f) then t else translate from' to' c
  | _, _ => c
  end.

Fixpoint lowercased (s : string) : string :=
  match s with
  | EmptyString => EmptyString
  | String c s' => String (translate capital_letters small_letters c) (lowercased s')
  end.

(** The tokens are the maximal runs of characters of a class, from left to
    right; a separator is a character outside the class. *)
Definition is_separator (class : ascii → bool) (c : ascii) : bool :=
  negb (class c).

(** [s] is empty or starts with a separator: a run that ends before [s]
    cannot be extended to the right. *)
Definition run_stops (class : ascii → bool) (s : string) : bool :=
  match s with
  | EmptyString => true
  | String c _ => is_separator class c
  end.

Inductive maximal_runs (class : ascii → bool) : string → list string → Prop :=
  | runs_done gap :
      all_chars (is_separator class) gap = true →
      maximal_runs class gap []
  | runs_more gap run rest runs :
      all_chars (is_separator class) gap = true →
      run ≠ EmptyString →
      all_chars class run = true →
      run_stops class rest = true →
      maximal_runs class rest runs →
      maximal_runs class (gap +:+ run +:+ rest) (run :: runs).

Arguments runs_done {class} gap _.
Arguments runs_more {class} gap run rest runs _ _ _ _ _.

(** ** Dataset splitter *)

(** The rows at the positions that satisfy [P], in the original order. *)
Definition rows_where {A : Type} (P : nat → Prop) `{!∀ i, Decision (P i)}
    (rows : list A) : list A :=
  (filter (λ ix, P ix.1) (imap pair rows)).*2.

Definition multiple_of_1000 (i : nat) : Prop := (i mod 1000 = 0)%nat.

#[global] Instance multiple_of_1000_dec i : Decision (multiple_of_1000 i).
Proof. unfold multiple_of_1000. apply _. Defined.

(** ** Evaluator *)

(** The mean of the absolute differences. *)
Definition abs_differences (p a : list R) : list R :=
  zip_with (λ x y, Rabs (x - y)) p a.


(** ** Vectors *)

(** The vector a sparse matrix stands for, its dot product and its Euclidean
    norm. *)
Definition entry (a : csr) (i : nat) : R := default 0 (stored a !! i).

Definition dense (a : csr) : list R := map (entry a) (seq 0 (shape1 a)).

Definition dot (a b : csr) : R := sum_list (zip_with Rmult (dense a) (dense b)).

Definition norm2 (a : csr) : R := sqrt (sum_list (map (λ x, x * x) (dense a))).

(** What the constructor [csr_matrix] guarantees: the stored columns lie
    inside the shape. *)
Definition csr_wf (a : csr) : Prop :=
  ∀ i, is_Some (stored a !! i) → (i < shape1 a)%nat.


Definition token_index (vocab : gmap string nat) (row : list string) (j : nat)
    : Prop :=
  ∃ t, t ∈ row ∧ vocab !! t = Some j.

(** ** Weights *)

(** [t] occurs in [s] as a substring. *)
Definition substring_of (t s : string) : Prop := ∃ pre post, s = pre +:+ t +:+ post.

(** The largest count of a term of the row, and the tf-idf weight of a
    term. *)
Definition max_tf (row : list string) : nat := max_list (map (count row) row).

Definition tfidf (movies : list tokenized) (row : list string) (term : string) : R :=
  INR (count row term) / INR (max_tf row) *
  (ln (INR (length movies) / INR (document_frequency movies term)) / ln 10).

(** The movies [featurize] accepts: no row of tokens is empty, and each token
    occurs in some genre text. *)
Definition featurizable (movies : list tokenized) : Prop :=
  ∀ m, m ∈ movies →
    tokens m ≠ [] ∧
    ∀ t, t ∈ tokens m → (1 <= document_frequency movies t)%nat.

(** The feature vector of the movie [m]: of the size of the vocabulary, with
    one stored entry per distinct token, the tf-idf weight of the token at the
    index of the token. *)
Definition feature_vector (movies : list tokenized) (m : tokenized) (v : csr) : Prop :=
  shape1 v = size (vocabulary movies) ∧
  ∀ j x, stored v !! j = Some x ↔
    ∃ t, t ∈ tokens m ∧ vocabulary movies !! t = Some j ∧
         x = tfidf movies (tokens m) t.

(** ** Predictions *)

(** The cosine similarity between the movies [m] and [i] of the catalogue,
    as the inner loop of [make_predictions] computes it, and the list of
    them for the rows of the user of [row]. *)
Definition similarity (movies : list featurized) (m i : Z) : result float64 :=
  a ← first (map features (movies_with movies m));
  b ← first (map features (movies_with movies i));
  cosine_sim a b.

Definition similarities (movies : list featurized) (ratings_train : list rating_row)
    (row : rating_row) (sims : list float64) : Prop :=
  Forall2 (λ r s, similarity movies (r_movieId r) (r_movieId row) = Ok s)
          (ratings_of ratings_train (userId row)) sims.

(** The ratings of the user [u] among the ratings, all of them and in their
    order. *)
Inductive rows_of_user (u : Z) : list rating_row → list rating_row → Prop :=
  | rows_of_user_nil : rows_of_user u [] []
  | rows_of_user_yes r rest rows :
      userId r = u → rows_of_user u rest rows →
      rows_of_user u (r :: rest) (r :: rows)
  | rows_of_user_no r rest rows :
      userId r ≠ u → rows_of_user u rest rows →
      rows_of_user u (r :: rest) rows.

(** The feature vector of the movie [k]: that of the first movie of the
    catalogue with this identifier. *)
Inductive vector_of : list featurized → Z → csr → Prop :=
  | vector_of_here m rest :
      vector_of (m :: rest) (movieId (row_of (tok_of m))) (features m)
  | vector_of_later m rest k v :
      movieId (row_of (tok_of m)) ≠ k → vector_of rest k v →
      vector_of (m :: rest) k v.

(** A catalogue as [featurize] builds it: the feature vectors keep inside
    one shape of [n] columns, at least one. *)
Definition catalogue_width (n : nat) (movies : list featurized) : Prop :=
  (0 < n)%nat ∧
  ∀ m, m ∈ movies → csr_wf (features m) ∧ shape1 (features m) = n.

(** The cosine of two vectors: nan when one of them has the norm zero. *)
Definition cosine (a b : csr) : float64 :=
  np_divide (Finite (dot a b)) (Finite (norm2 a * norm2 b)).

(** [sims] are the cosines between the movies of the rows [history], all of
    them and in their order, and the movie [k]. *)
Definition cosines (movies : list featurized) (history : list rating_row)
    (k : Z) (sims : list float64) : Prop :=
  Forall2 (λ r s, ∃ a b, vector_of movies (r_movieId r) a ∧
                         vector_of movies k b ∧ s = cosine a b)
          history sims.

(** The sum of a sequence of floats. *)
Definition sum_floats (l : list float64) : float64 := foldr fadd (Finite 0) l.

(** The test rows with a prediction: the user has a training rating, and
    the movie of the row and the movies the user rated are in the
    catalogue. *)
Definition covered (movies : list featurized) (ratings_train : list rating_row)
    (row : rating_row) : Prop :=
  ∃ history,
    rows_of_user (userId row) ratings_train history ∧ history ≠ [] ∧
    (∃ v, vector_of movies (r_movieId row) v) ∧
    ∀ r, r ∈ history → ∃ v, vector_of movies (r_movieId r) v.

(** A similarity between vectors without negative entries: nan or a number
    that is not negative. *)
Definition nonneg_or_nan (s : float64) : Prop :=
  match s with
  | Finite x => 0 <= x
  | NaN => True
  | PosInf | NegInf => False
  end.

(** [S], [W] and the mean in real numbers. *)
Definition weighted_sum (sims ratings : list R) : R :=
  sum_list (zip_with Rmult sims ratings).

Definition weight_sum (sims : list R) : R := sum_list sims.

Definition mean_rating (ratings : list R) : R :=
  sum_list ratings / INR (length ratings).

(** The least and the largest of the ratings. *)
Definition min_rating (l : list R) : R := foldr Rmin (hd 0 l) l.

Definition max_rating (l : list R) : R := foldr Rmax (hd 0 l) l.

(** ** Joining tokens *)

(** [sep.join(l)] *)
Fixpoint join (sep : string) (l : list string) : string :=
  match l with
  | [] => EmptyString
  | [t] => t
  | t :: l' => t +:+ sep +:+ join sep l'
  end.

(** ** Inputs of the examples *)

(** The catalogue of the docstring of [tokenize]. *)
Definition example_movies : list movie :=
  [ {| movieId := 123; genres := "Horror|Romance" |};
    {| movieId := 456; genres := "Sci-Fi" |} ].

(** A catalogue of one movie. *)
Definition single_movie : list movie := [ {| movieId := 1; genres := "Horror" |} ].

(** Two movies, the token of the second inside a token of the first. *)
Definition sci_movies : list movie :=
  [ {| movieId := 1; genres := "Sci-Fi" |}; {| movieId := 2; genres := "Sci" |} ].

(** The vector [(1)] and the vector [(0)] with its zero stored, as
    [featurize] builds it for [single_movie]. *)
Definition unit_vector : csr := {| shape1 := 1; stored := {[ 0%nat := 1 ]} |}.

Definition zero_vector : csr := {| shape1 := 1; stored := {[ 0%nat := 0 ]} |}.

(** A vector without columns. *)
Definition empty_vector : csr := {| shape1 := 0; stored := ∅ |}.

(** The vector [(-1)]. *)
Definition minus_vector : csr := {| shape1 := 1; stored := {[ 0%nat := -1 ]} |}.

Definition plain_movie (k : Z) (v : csr) : featurized :=
  {| tok_of := {| row_of := {| movieId := k; genres := "Horror" |};
                  tokens := ["horror"%string] |};
     features := v |}.

Definition small_catalogue : list featurized :=
  [ plain_movie 1 unit_vector; plain_movie 3 unit_vector ].

Definition small_train : list rating_row :=
  [ {| userId := 9; r_movieId := 1; rating := 4 |} ].

Definition small_test : list rating_row :=
  [ {| userId := 9; r_movieId := 3; rating := 5 |} ].

(** The movie 1 has a feature vector of norm zero. *)
Definition zero_catalogue : list featurized :=
  [ plain_movie 1 zero_vector; plain_movie 3 unit_vector ].

(** The movies 1 and 2 have opposite feature vectors; the user 9 rated
    both. *)
Definition opposite_catalogue : list featurized :=
  [ plain_movie 1 unit_vector; plain_movie 2 minus_vector;
    plain_movie 3 unit_vector ].

Definition opposite_train : list rating_row :=
  [ {| userId := 9; r_movieId := 1; rating := 3 |};
    {| userId := 9; r_movieId := 2; rating := 1 |} ].

(** Three movies; the user 9 rated the first two and asks for the third. *)
Definition scenario_movies : list movie :=
  [ {| movieId := 1; genres := "Horror|Romance" |};
    {| movieId := 2; genres := "Sci-Fi" |};
    {| movieId := 3; genres := "Horror" |} ].

Definition scenario_catalogue : list tokenized := tokenize scenario_movies.

Definition scenario_train : list rating_row :=
  [ {| userId := 9; r_movieId := 1; rating := 4 |};
    {| userId := 9; r_movieId := 2; rating := 2 |} ].

Definition scenario_test : list rating_row :=
  [ {| userId := 9; r_movieId := 3; rating := 5 |} ].

(** Membership in a list that is written out. *)
Ltac list_member :=
  match goal with
  | |- _ ∈ _ => repeat constructor
  | |- _ ∉ _ =>
      let H := fresh in
      intros H;
      repeat (apply elem_of_cons in H as [H | H]; [discriminate H |]);
      apply elem_of_nil in H; exact H
  end.

(** * Properties *)

(** ** Strings *)

Section strings.
Implicit Types (s t u : string) (c : ascii).

Lemma append_nil_l s : EmptyString +:+ s = s.
Proof. reflexivity. Qed.

Lemma append_cons c s t : String c s +:+ t = String c (s +:+ t).
Proof. reflexivity. Qed.

Lemma append_nil_r s : s +:+ EmptyString = s.
Proof.
  induction s as [|c s IH]; [done |]. by rewrite append_cons, IH.
Qed.

Lemma append_assoc s t u : (s +:+ t) +:+ u = s +:+ (t +:+ u).
Proof.
  induction s as [|c s IH]; [done |]. by rewrite !append_cons, IH.
Qed.

Lemma append_snoc s c t : (s +:+ String c EmptyString) +:+ t = s +:+ String c t.
Proof. by rewrite append_assoc. Qed.

Lemma all_chars_append p s t :
  all_chars p (s +:+ t) = all_chars p s && all_chars p t.
Proof.
  induction s as [|c s IH]; [done |].
  rewrite append_cons. simpl. by rewrite IH, andb_assoc.
Qed.

Lemma prefix_append s t : String.prefix s (s +:+ t) = true.
Proof.
  induction s as [|c s IH]; [by destruct t |].
  rewrite append_cons. simpl. by destruct (ascii_dec c c).
Qed.

Lemma prefix_split s t :
  String.prefix s t = true → ∃ u, t = s +:+ u.
Proof.
  revert t. induction s as [|c s IH]; intros t H.
  - by exists t.
  - destruct t as [|d t]; simpl in H; [done |].
    destruct (ascii_dec c d) as [->|]; [| done].
    destruct (IH _ H) as [u ->]. by exists u.
Qed.

(** [contains] is substring containment. *)
Lemma contains_spec s pat :
  contains s pat = true ↔ ∃ pre post, s = pre +:+ pat +:+ post.
Proof.
  split.
  - induction s as [|c s IH]; cbn [contains]; rewrite orb_true_iff.
    + intros [H|]; [| done]. destruct (prefix_split _ _ H) as [u Hu].
      by exists EmptyString, u.
    + intros [H|H].
      * destruct (prefix_split _ _ H) as [u Hu]. by exists EmptyString, u.
      * destruct (IH H) as (pre & post & ->). by exists (String c pre), post.
  - intros (pre & post & ->). induction pre as [|c pre IH].
    + rewrite append_nil_l.
      destruct (pat +:+ post) eqn:E; cbn [contains];
        rewrite <- E, prefix_append; done.
    + rewrite append_cons. cbn [contains]. by rewrite IH, orb_true_r.
Qed.
End strings.

(** ** The tokenizer *)

Section tokenizer.
Implicit Types (s cur run rest gap : string) (c : ascii).

Lemma flush_nonempty cur : cur ≠ EmptyString → flush cur = [cur].
Proof. by destruct cur. Qed.

Lemma snoc_nonempty cur c : cur +:+ String c EmptyString ≠ EmptyString.
Proof. by destruct cur. Qed.


Lemma findall_from_run cur run rest :
  all_chars is_token_char run = true →
  findall_from cur (run +:+ rest) = findall_from (cur +:+ run) rest.
Proof.
  revert cur. induction run as [|c run IH]; intros cur; simpl.
  - by rewrite append_nil_r.
  - rewrite andb_true_iff. intros [-> Hrun].
    by rewrite IH, append_snoc.
Qed.




Lemma maximal_runs_separator c s runs :
  is_separator is_token_char c = true →
  maximal_runs is_token_char s runs →
  maximal_runs is_token_char (String c s) runs.
Proof.
  intros Hc. destruct 1 as [gap Hgap | gap run rest runs Hgap Hne Hrun Hstop Hrest].
  - apply runs_done. simpl. by rewrite Hc.
  - apply (runs_more (String c gap)); try done. simpl. by rewrite Hc.
Qed.

(** The scan, with and without an open run. *)
Lemma findall_from_runs s :
  maximal_runs is_token_char s (findall_from EmptyString s) ∧
  ∀ cur, cur ≠ EmptyString →
    ∃ run rest, s = run +:+ rest ∧
      all_chars is_token_char run = true ∧ run_stops is_token_char rest = true ∧
      maximal_runs is_token_char rest (findall_from EmptyString rest) ∧
      findall_from cur s = (cur +:+ run) :: findall_from EmptyString rest.
Proof.
  induction s as [|c s [IH1 IH2]].
  - split; [by apply runs_done |].
    intros cur Hcur. exists EmptyString, EmptyString.
    repeat split; try done; [by apply runs_done |].
    simpl. by rewrite append_nil_r, flush_nonempty.
  - destruct (is_token_char c) eqn:Hc.
    + assert (∀ cur, ∃ run rest, String c s = run +:+ rest ∧
        all_chars is_token_char run = true ∧ run_stops is_token_char rest = true ∧
        maximal_runs is_token_char rest (findall_from EmptyString rest) ∧
        findall_from cur (String c s) =
          (cur +:+ run) :: findall_from EmptyString rest) as Hopen.
      { intros cur.
        destruct (IH2 (cur +:+ String c EmptyString) (snoc_nonempty _ _))
          as (run & rest & -> & Hrun & Hstop & Hrest & Heq).
        exists (String c run), rest. repeat split; try done.
        - simpl. by rewrite Hc, Hrun.
        - simpl. by rewrite Hc, Heq, append_snoc. }
      split; [| intros cur _; apply Hopen].
      destruct (Hopen EmptyString) as (run & rest & E & Hrun & Hstop & Hrest & Heq).
      rewrite Heq, E. simpl.
      apply (runs_more EmptyString run rest); try done.
      intros ->. rewrite append_nil_l in E. subst rest.
      simpl in Hstop. unfold is_separator in Hstop. by rewrite Hc in Hstop.
    + assert (maximal_runs is_token_char (String c s)
                (findall_from EmptyString (String c s)))
        as Hclosed.
      { simpl. rewrite Hc. simpl. apply maximal_runs_separator; [| done].
        unfold is_separator. by rewrite Hc. }
      split; [done |].
      intros cur Hcur. exists EmptyString, (String c s).
      repeat split; try done.
      * simpl. unfold is_separator. by rewrite Hc.
      * rewrite append_nil_r. simpl. rewrite Hc.
        by rewrite flush_nonempty.
Qed.

Lemma findall_maximal_runs s : maximal_runs is_token_char s (findall s).
Proof. apply findall_from_runs. Qed.

Lemma lower_char_token c : is_token_char (lower_char c) = is_token_char c.
Proof.
  unfold lower_char. destruct (is_upper c) eqn:Hu; [| done].
  unfold is_token_char, is_word. rewrite Hu. simpl.
  unfold is_upper in Hu. apply andb_true_iff in Hu as [H1 H2].
  apply Nat.leb_le in H1, H2.
  assert (code c < 256)%nat as Hlt by apply nat_ascii_bounded.
  unfold is_upper, is_lower, is_digit, code.
  rewrite nat_ascii_embedding by (unfold code in *; lia).
  unfold code in *.
  replace (97 <=? nat_of_ascii c + 32)%nat with true
    by (symmetry; apply Nat.leb_le; lia).
  replace (nat_of_ascii c + 32 <=? 122)%nat with true
    by (symmetry; apply Nat.leb_le; lia).
  simpl. by rewrite orb_true_r.
Qed.


(** The class of the scan and the class of the specification have the same
    characters, and [lower_char] is the translation of the capital letters:
    two checks of the 256 characters, one by one. *)
Lemma is_word_class c : is_word c = word_character c.
Proof. by destruct c as [[] [] [] [] [] [] [] []]. Qed.

Lemma is_token_char_class c : is_token_char c = token_character c.
Proof. by destruct c as [[] [] [] [] [] [] [] []]. Qed.

Lemma is_upper_capital c : is_upper c = occurs c capital_letters.
Proof. by destruct c as [[] [] [] [] [] [] [] []]. Qed.

Lemma lower_char_translate c :
  lower_char c = translate capital_letters small_letters c.
Proof. by destruct c as [[] [] [] [] [] [] [] []]. Qed.

Lemma lower_lowercased s : lower s = lowercased s.
Proof.
  induction s as [|c s IH]; simpl; [done |].
  by rewrite lower_char_translate, IH.
Qed.

Lemma all_chars_class (p q : ascii → bool) s :
  (∀ c, p c = q c) → all_chars p s = all_chars q s.
Proof.
  intros Hpq. induction s as [|c s IH]; simpl; [done |]. by rewrite Hpq, IH.
Qed.


Lemma is_separator_class c :
  is_separator token_character c = is_separator is_token_char c.
Proof. unfold is_separator. by rewrite is_token_char_class. Qed.


End tokenizer.



(** ** The error monad *)

Section monad.
Context {A B : Type}.
Implicit Types (f : A → result B) (l : list A).

Lemma bind_Ok {C : Type} (m : result A) (k : A → result C) (c : C) :
  (m ≫= k) = Ok c ↔ ∃ a, m = Ok a ∧ k a = Ok c.
Proof.
  destruct m as [a|e]; simpl; split.
  - intros H. by exists a.
  - by intros (a' & [= <-] & H).
  - done.
  - by intros (a' & ? & _).
Qed.

Lemma for_each_app f l1 l2 ys1 ys2 :
  for_each f l1 = Ok ys1 → for_each f l2 = Ok ys2 →
  for_each f (l1 ++ l2) = Ok (ys1 ++ ys2).
Proof.
  revert ys1. induction l1 as [|x l1 IH]; intros ys1; simpl.
  - by intros [= <-].
  - destruct (f x) as [y|]; simpl; [| done].
    destruct (for_each f l1) as [ys|]; simpl; [| done].
    intros [= <-] H2. by rewrite (IH ys eq_refl H2).
Qed.

(** A loop that meets no exception returns one result per element, in
    order. *)
Lemma for_each_Ok f l ys :
  for_each f l = Ok ys ↔ Forall2 (λ x y, f x = Ok y) l ys.
Proof.
  revert ys. induction l as [|x l IH]; intros ys; simpl.
  - split; [intros [= <-]; constructor | by inversion 1].
  - split.
    + destruct (f x) as [y|] eqn:Hx; simpl; [| done].
      destruct (for_each f l) as [ys'|] eqn:Hl; simpl; [| done].
      intros [= <-]. constructor; [done | by apply IH].
    + inversion 1 as [|? y ? ys' Hx Hl]; subst. rewrite Hx. simpl.
      apply IH in Hl. by rewrite Hl.
Qed.

Lemma for_each_total f l :
  Forall (λ x, ∃ y, f x = Ok y) l → ∃ ys, for_each f l = Ok ys.
Proof.
  induction 1 as [|x l [y Hy] _ [ys IH]]; simpl; [by exists [] |].
  exists (y :: ys). by rewrite Hy, IH.
Qed.

Lemma for_each_length f l ys : for_each f l = Ok ys → length ys = length l.
Proof.
  rewrite for_each_Ok. intros H. symmetry. by eapply Forall2_length.
Qed.

Lemma for_each_map f (g : A → B) l :
  Forall (λ x, f x = Ok (g x)) l → for_each f l = Ok (map g l).
Proof.
  induction 1 as [|x l Hx _ IH]; simpl; [done |]. by rewrite Hx, IH.
Qed.
End monad.

Lemma for_each_elem_of {A B : Type} (f : A → result B) (l : list A)
    (ys : list B) (x : A) :
  for_each f l = Ok ys → x ∈ l → ∃ y, f x = Ok y.
Proof.
  rewrite for_each_Ok. intros Hall Hx.
  induction Hall as [|x' y l ys Hy _ IH]; [by apply elem_of_nil in Hx |].
  apply elem_of_cons in Hx as [-> | Hx]; [by exists y | by apply IH].
Qed.

Lemma for_each_Forall2 {A B : Type} (f : A → result B) (Q : A → B → Prop)
    (l : list A) :
  (∀ x, x ∈ l → ∃ y, f x = Ok y ∧ Q x y) →
  ∃ ys, for_each f l = Ok ys ∧ Forall2 Q l ys.
Proof.
  induction l as [|x l IH]; intros Hall; simpl.
  - exists []. by split; [| constructor].
  - destruct (Hall x) as (y & Hy & HQ); [apply elem_of_cons; by left |].
    destruct IH as (ys & Hys & HQs).
    { intros x' Hx'. apply Hall, elem_of_cons. by right. }
    exists (y :: ys). rewrite Hy, Hys. by split; [| constructor].
Qed.

(** ** Sorting a set *)

Section sorted_set.
Context `{Countable A} (R : relation A).
Context `{!Transitive R, !Total R, !AntiSymm (=) R, !∀ x y, Decision (R x y)}.

(** Sorting the elements of a set gives the one sorted list without
    repetition that has these elements. *)
Lemma merge_sort_elements (s : gset A) (l : list A) :
  StronglySorted R l → NoDup l → (∀ x, x ∈ l ↔ x ∈ s) →
  merge_sort R (elements s) = l.
Proof.
  intros Hsorted Hnodup Hl.
  apply (StronglySorted_unique R); [by apply StronglySorted_merge_sort | done |].
  rewrite merge_sort_Permutation.
  apply NoDup_Permutation; [apply NoDup_elements | done |].
  intros x. by rewrite elem_of_elements, Hl.
Qed.

Lemma merge_sort_elements_sorted (s : gset A) :
  StronglySorted R (merge_sort R (elements s)).
Proof. by apply StronglySorted_merge_sort. Qed.

Lemma merge_sort_elements_NoDup (s : gset A) :
  NoDup (merge_sort R (elements s)).
Proof. rewrite merge_sort_Permutation. apply NoDup_elements. Qed.

Lemma elem_of_merge_sort_elements (s : gset A) x :
  x ∈ merge_sort R (elements s) ↔ x ∈ s.
Proof. by rewrite merge_sort_Permutation, elem_of_elements. Qed.
End sorted_set.

Lemma StronglySorted_filter {A : Type} (R : relation A) (P : A → Prop)
    `{!∀ x, Decision (P x)} (l : list A) :
  StronglySorted R l → StronglySorted R (filter P l).
Proof.
  induction 1 as [|x l _ IH Hx]; [constructor |].
  rewrite filter_cons. case_decide; [| done].
  constructor; [done |].
  apply Forall_forall. intros y [_ Hy]%list_elem_of_filter.
  by eapply Forall_forall in Hx.
Qed.

Lemma StronglySorted_seq (j n : nat) : StronglySorted le (seq j n).
Proof.
  revert j. induction n as [|n IH]; intros j; simpl; constructor; [apply IH |].
  apply Forall_forall. intros k Hk%elem_of_seq. lia.
Qed.

(** ** The dataset splitter *)

Section splitter.
Context {A : Type}.
Implicit Types (rows : list A) (P : nat → Prop).

Lemma stride_from_seq (step skip j n : nat) :
  (skip < step)%nat → ((j + skip) mod step = 0)%nat →
  stride_from step skip (seq j n) = filter (λ i, (i mod step = 0)%nat) (seq j n).
Proof.
  revert skip j. induction n as [|n IH]; intros skip j Hskip Hmod; [done |].
  simpl. rewrite filter_cons. destruct skip as [|skip].
  - rewrite Nat.add_0_r in Hmod. rewrite decide_True by done.
    f_equal. apply IH; [lia |].
    replace (S j + (step - 1))%nat with (j + 1 * step)%nat by lia.
    by rewrite Nat.Div0.mod_add.
  - rewrite decide_False.
    + apply IH; [lia |]. by replace (S j + skip)%nat with (j + S skip)%nat by lia.
    + intros Hj.
      apply Nat.Div0.mod_divides in Hj as [a Ha].
      apply Nat.Div0.mod_divides in Hmod as [b Hb].
      assert (S skip = step * (b - a))%nat as Hs by nia.
      destruct (b - a)%nat; nia.
Qed.

Lemma stride_1000_seq (n : nat) :
  stride 1000 (seq 0 n) = filter multiple_of_1000 (seq 0 n).
Proof. unfold stride. by rewrite stride_from_seq by (done || lia). Qed.

Lemma sorted_positions_filter (s : gset nat) P `{!∀ i, Decision (P i)} n :
  (∀ i, i ∈ s ↔ (i < n)%nat ∧ P i) →
  sorted_positions s = filter P (seq 0 n).
Proof.
  intros Hs. apply (merge_sort_elements le).
  - apply StronglySorted_filter, StronglySorted_seq.
  - apply NoDup_filter, NoDup_seq.
  - intros i. rewrite list_elem_of_filter, elem_of_seq, Hs.
    intuition lia.
Qed.

(** The two lists of positions that [train_test_split] computes. *)
Lemma split_positions_filter (n : nat) :
  split_positions n =
    (filter (λ i, ¬ multiple_of_1000 i) (seq 0 n),
     filter multiple_of_1000 (seq 0 n)).
Proof.
  unfold split_positions. rewrite stride_1000_seq. f_equal.
  - apply sorted_positions_filter. intros i.
    rewrite elem_of_difference, !elem_of_list_to_set, list_elem_of_filter,
      elem_of_seq.
    intuition lia.
  - apply sorted_positions_filter. intros i.
    rewrite elem_of_list_to_set, list_elem_of_filter, elem_of_seq.
    intuition lia.
Qed.

Lemma rows_where_snoc P `{!∀ i, Decision (P i)} rows (x : A) :
  rows_where P (rows ++ [x]) =
    rows_where P rows ++ (if decide (P (length rows)) then [x] else []).
Proof.
  unfold rows_where. rewrite imap_app, filter_app, fmap_app. f_equal.
  simpl. rewrite Nat.add_0_r, filter_cons. simpl. by case_decide.
Qed.

(** Reading the rows at the selected positions never leaves the frame. *)
Lemma iloc_filter P `{!∀ i, Decision (P i)} rows :
  iloc rows (filter P (seq 0 (length rows))) = Ok (rows_where P rows).
Proof.
  induction rows as [|x rows IH] using rev_ind; [done |].
  rewrite length_app. cbn [length]. rewrite Nat.add_1_r.
  rewrite seq_S, filter_app, rows_where_snoc. cbn [Nat.add].
  apply for_each_app.
  - apply for_each_Ok. apply for_each_Ok in IH.
    eapply Forall2_impl; [exact IH |]. intros i y Hi. simpl in *.
    destruct (rows !! i) as [r|] eqn:Hr; [| done].
    by rewrite (lookup_app_l_Some _ _ _ _ Hr).
  - rewrite filter_cons, filter_nil. case_decide; [| done]. simpl.
    by rewrite list_lookup_middle.
Qed.

Lemma rows_where_length P `{!∀ i, Decision (P i)} rows :
  length (rows_where P rows) = length (filter P (seq 0 (length rows))).
Proof.
  pose proof (iloc_filter P rows) as Hiloc.
  by apply for_each_length in Hiloc.
Qed.
End splitter.

(** C6. [train_test_split] returns, as the test subset, the rows at the
    positions 0, 1000, 2000, ... in the original order and, as the training
    subset, all the other rows in their original order.  The positions of the
    two subsets are disjoint and together they are the positions of the whole
    collection, each once.  A collection of 2500 rows gives 3 test rows and
    2497 training rows. *)
Theorem train_test_split_positions {A : Type} (ratings : list A) :
  let n := length ratings in
  let train := (split_positions n).1 in
  let test := (split_positions n).2 in
  train_test_split ratings =
    Ok (rows_where (λ i, ¬ multiple_of_1000 i) ratings,
        rows_where multiple_of_1000 ratings) ∧
  test = filter multiple_of_1000 (seq 0 n) ∧
  train = filter (λ i, ¬ multiple_of_1000 i) (seq 0 n) ∧
  (∀ i, ¬ (i ∈ train ∧ i ∈ test)) ∧
  (∀ i, (i < n)%nat ↔ i ∈ train ∨ i ∈ test) ∧
  train ++ test ≡ₚ seq 0 n ∧
  (n = 2500%nat →
   length (rows_where multiple_of_1000 ratings) = 3%nat ∧
   length (rows_where (λ i, ¬ multiple_of_1000 i) ratings) = 2497%nat).
Proof.
  intros n train test. subst train test.
  rewrite split_positions_filter. simpl.
  split; [| split; [done | split; [done | split; [| split; [| split]]]]].
  - unfold train_test_split. fold n. rewrite split_positions_filter.
    subst n. by rewrite !iloc_filter.
  - intros i. rewrite !list_elem_of_filter. tauto.
  - intros i. rewrite !list_elem_of_filter, elem_of_seq.
    split; [| intros [[_ ?]|[_ ?]]; lia].
    intros Hi. destruct (decide (multiple_of_1000 i)); [right | left]; split;
      (done || lia).
  - rewrite Permutation_app_comm. apply filter_app_complement.
  - intros Hn. rewrite !rows_where_length. fold n. rewrite Hn.
    split; vm_compute; reflexivity.
Qed.

Lemma train_test_split_positions_witness :
  length (replicate 2500 tt) = 2500%nat ∧
  length (rows_where multiple_of_1000 (replicate 2500 tt)) = 3%nat ∧
  length (rows_where (λ i, ¬ multiple_of_1000 i) (replicate 2500 tt)) = 2497%nat.
Proof.
  split; [apply length_replicate |].
  apply (train_test_split_positions (replicate 2500 tt)), length_replicate.
Defined.

(** ** Sums *)

Section sums.
Implicit Types (l : list R) (x : R).

Lemma foldl_Rplus x l : foldl Rplus x l = x + sum_list l.
Proof.
  revert x. induction l as [|y l IH]; intros x; simpl; [lra |].
  rewrite IH. lra.
Qed.

Lemma pysum_sum_list l : pysum l = sum_list l.
Proof. unfold pysum. rewrite foldl_Rplus. lra. Qed.

Lemma sum_list_app l1 l2 : sum_list (l1 ++ l2) = sum_list l1 + sum_list l2.
Proof. induction l1 as [|x l1 IH]; simpl; [lra | rewrite IH; lra]. Qed.

Lemma sum_list_Permutation l1 l2 : l1 ≡ₚ l2 → sum_list l1 = sum_list l2.
Proof. induction 1; simpl; lra. Qed.

Lemma sum_list_nonneg l : Forall (λ x, 0 <= x) l → 0 <= sum_list l.
Proof. induction 1; simpl; lra. Qed.

Lemma sum_list_zero l : Forall (λ x, x = 0) l → sum_list l = 0.
Proof. induction 1; simpl; lra. Qed.

(** A sum of non-negative numbers is zero only if each of them is. *)
Lemma sum_list_nonneg_zero l :
  Forall (λ x, 0 <= x) l → sum_list l = 0 → Forall (λ x, x = 0) l.
Proof.
  induction 1 as [|x l Hx Hl IH]; simpl; [constructor |].
  intros Hsum. pose proof (sum_list_nonneg l Hl).
  constructor; [lra |]. apply IH. lra.
Qed.

(** Weighted sums lie between the bounds of the weighted values. *)
Lemma sum_list_scale_le (ws rs : list R) (hi : R) :
  length rs = length ws →
  Forall (λ w, 0 <= w) ws → Forall (λ r, r <= hi) rs →
  sum_list (zip_with Rmult rs ws) <= hi * sum_list ws.
Proof.
  intros Hlen Hws. revert rs Hlen.
  induction Hws as [|w ws Hw _ IH]; intros rs Hlen Hrs.
  - destruct rs; simpl; lra.
  - destruct Hrs as [|r rs Hr Hrs]; simpl in *; [done |].
    specialize (IH rs ltac:(lia) Hrs). nra.
Qed.

Lemma sum_list_scale_ge (ws rs : list R) (lo : R) :
  length rs = length ws →
  Forall (λ w, 0 <= w) ws → Forall (λ r, lo <= r) rs →
  lo * sum_list ws <= sum_list (zip_with Rmult rs ws).
Proof.
  intros Hlen Hws. revert rs Hlen.
  induction Hws as [|w ws Hw _ IH]; intros rs Hlen Hrs.
  - destruct rs; simpl; lra.
  - destruct Hrs as [|r rs Hr Hrs]; simpl in *; [done |].
    specialize (IH rs ltac:(lia) Hrs). nra.
Qed.

Lemma sum_list_le_length l (hi : R) :
  Forall (λ r, r <= hi) l → sum_list l <= hi * INR (length l).
Proof.
  induction 1 as [|x l Hx _ IH]; [simpl; lra |].
  cbn [length]. rewrite S_INR. simpl. lra.
Qed.

Lemma sum_list_ge_length l (lo : R) :
  Forall (λ r, lo <= r) l → lo * INR (length l) <= sum_list l.
Proof.
  induction 1 as [|x l Hx _ IH]; [simpl; lra |].
  cbn [length]. rewrite S_INR. simpl. lra.
Qed.
End sums.

Lemma Rdiv_nonneg (a b : R) : 0 <= a → 0 < b → 0 <= a / b.
Proof.
  intros Ha Hb. unfold Rdiv. apply Rmult_le_pos; [done |].
  left. by apply Rinv_0_lt_compat.
Qed.

Lemma divide_Ok (x y : R) : y ≠ 0 → divide x y = Ok (x / y).
Proof. intros Hy. unfold divide. by destruct (Req_dec_T y 0). Qed.

Lemma divide_zero (x : R) : divide x 0 = Raise ZeroDivision.
Proof. unfold divide. by destruct (Req_dec_T 0 0). Qed.

Lemma divide_inv (x y q : R) : divide x y = Ok q → y ≠ 0 ∧ q = x / y.
Proof. unfold divide. destruct (Req_dec_T y 0); [done |]. by intros [= <-]. Qed.

Lemma INR_length_nonzero {A : Type} (l : list A) : l ≠ [] → INR (length l) ≠ 0.
Proof. intros H. destruct l; [done |]. apply not_0_INR. simpl. lia. Qed.

(** ** Floats *)

Section floats.
Implicit Types (x y z : float64) (l : list float64) (xs : list R).

Lemma np_divide_Finite (a b : R) :
  b ≠ 0 → np_divide (Finite a) (Finite b) = Finite (a / b).
Proof. intros Hb. simpl. by destruct (Req_dec_T b 0). Qed.

Lemma np_divide_zero_zero : np_divide (Finite 0) (Finite 0) = NaN.
Proof. simpl. by destruct (Req_dec_T 0 0). Qed.

Lemma np_divide_pos_zero (a : R) : 0 < a → np_divide (Finite a) (Finite 0) = PosInf.
Proof.
  intros Ha. simpl. destruct (Req_dec_T 0 0) as [_ | ?]; [| done].
  destruct (Req_dec_T a 0); [lra |]. by destruct (Rlt_dec 0 a).
Qed.

Lemma is_positive_Finite (a : R) : is_positive (Finite a) = true ↔ 0 < a.
Proof. simpl. by destruct (Rlt_dec 0 a). Qed.

Lemma fadd_comm x y : fadd x y = fadd y x.
Proof. destruct x, y; simpl; try done. f_equal. lra. Qed.

Lemma fadd_assoc x y z : fadd (fadd x y) z = fadd x (fadd y z).
Proof. destruct x, y, z; simpl; try done. f_equal. lra. Qed.

Lemma fadd_0_l x : fadd (Finite 0) x = x.
Proof. destruct x; simpl; try done. f_equal. lra. Qed.

Lemma fadd_0_r x : fadd x (Finite 0) = x.
Proof. by rewrite fadd_comm, fadd_0_l. Qed.

Lemma fmul_comm x y : fmul x y = fmul y x.
Proof. destruct x, y; simpl; try done. f_equal. lra. Qed.

(** The built-in [sum] adds from the left; the order plays no role. *)
Lemma foldl_fadd x l : foldl fadd x l = fadd x (sum_floats l).
Proof.
  revert x. induction l as [|y l IH]; intros x; simpl.
  - by rewrite fadd_0_r.
  - rewrite IH. apply fadd_assoc.
Qed.

Lemma fsum_sum_floats l : fsum l = sum_floats l.
Proof. unfold fsum. by rewrite foldl_fadd, fadd_0_l. Qed.

Lemma sum_floats_Finite xs : sum_floats (map Finite xs) = Finite (sum_list xs).
Proof. induction xs as [|a xs IH]; simpl; [done |]. by rewrite IH. Qed.

(** One nan makes the sum nan. *)
Lemma sum_floats_NaN l : NaN ∈ l → sum_floats l = NaN.
Proof.
  induction l as [|y l IH]; [by intros ?%elem_of_nil |].
  intros [<- | Hl]%elem_of_cons; simpl; [done |].
  rewrite (IH Hl). by destruct y.
Qed.

(** A list of floats holds a nan, or an infinity, or real numbers only. *)
Lemma floats_cases l :
  NaN ∈ l ∨ PosInf ∈ l ∨ NegInf ∈ l ∨ ∃ xs, l = map Finite xs.
Proof.
  induction l as [|y l IH]; [right; right; right; by exists [] |].
  destruct y as [a | | |].
  - destruct IH as [H | [H | [H | [xs ->]]]].
    + left. by apply elem_of_cons; right.
    + right; left. by apply elem_of_cons; right.
    + right; right; left. by apply elem_of_cons; right.
    + right; right; right. by exists (a :: xs).
  - right; left. apply elem_of_cons. by left.
  - right; right; left. apply elem_of_cons. by left.
  - left. apply elem_of_cons. by left.
Qed.
End floats.

(** ** The evaluator *)

Section evaluator.
Implicit Types (p a : list R) (rs : list rating_row).

Lemma abs_differences_zip p a :
  map fabs (zip_with fsub (map Finite p) (map Finite a)) =
  map Finite (abs_differences p a).
Proof.
  revert a. induction p as [|x p IH]; intros [|y a]; simpl; try done.
  by rewrite IH.
Qed.

Lemma abs_differences_nonneg p a : Forall (λ x, 0 <= x) (abs_differences p a).
Proof.
  revert a. induction p as [|x p IH]; intros [|y a]; simpl; try constructor.
  - apply Rabs_pos.
  - apply IH.
Qed.


Lemma abs_differences_length p a :
  length p = length a → length (abs_differences p a) = length a.
Proof.
  unfold abs_differences. rewrite length_zip_with. lia.
Qed.

Lemma ratings_Finite rs :
  map (λ r, Finite (rating r)) rs = map Finite (map rating rs).
Proof. by rewrite map_map. Qed.

Lemma mean_absolute_error_equal_length p rs :
  length p = length rs →
  mean_absolute_error (map Finite p) rs =
    Ok (np_divide (Finite (sum_list (abs_differences p (map rating rs))))
                  (Finite (INR (length rs)))).
Proof.
  intros Hlen. unfold mean_absolute_error, array_sub.
  rewrite decide_True by (by rewrite !length_map).
  cbn [mbind result_bind]. unfold mean.
  rewrite ratings_Finite, abs_differences_zip, fsum_sum_floats, sum_floats_Finite.
  rewrite length_map, abs_differences_length; by rewrite length_map.
Qed.
End evaluator.




(** ** The similarity engine *)

Section similarity.
Implicit Types (a b : csr) (m : gmap nat R) (l : list nat).

Lemma foldl_squares (x : R) (xs : list R) :
  foldl (λ acc i, acc + i * i) x xs = x + sum_list (map (λ i, i * i) xs).
Proof.
  revert x. induction xs as [|y xs IH]; intros x; simpl; [lra |].
  rewrite IH. lra.
Qed.

Lemma sum_squares_nonneg (xs : list R) : 0 <= sum_list (map (λ i, i * i) xs).
Proof.
  apply sum_list_nonneg, Forall_forall. intros y (x & -> & _)%list_elem_of_fmap.
  nra.
Qed.

(** Changing one summand of a sum over distinct positions. *)
Lemma sum_list_point (g g' : nat → R) l i :
  NoDup l → i ∈ l → (∀ j, j ≠ i → g' j = g j) →
  sum_list (map g' l) = sum_list (map g l) + (g' i - g i).
Proof.
  intros Hnd Hi Hg. induction Hnd as [|j l Hj Hnd IH]; [by inversion Hi |].
  simpl. apply elem_of_cons in Hi as [<-|Hi].
  - assert (map g' l = map g l) as ->; [| lra].
    apply map_ext_in. intros j Hj'%list_elem_of_In. apply Hg. by intros ->.
  - rewrite IH by done. rewrite (Hg j) by (by intros ->). lra.
Qed.

(** The stored entries and the dense vector have the same sum: the other
    components are zero. *)
Lemma sum_stored_dense (f : R → R) m n :
  f 0 = 0 → (∀ i, is_Some (m !! i) → (i < n)%nat) →
  sum_list (map f (map_to_list m).*2) =
  sum_list (map (λ i, f (default 0 (m !! i))) (seq 0 n)).
Proof.
  intros Hf. induction m as [|i x m Hi IH] using map_ind; intros Hdom.
  - rewrite map_to_list_empty. simpl. symmetry. apply sum_list_zero.
    apply Forall_forall. intros y (j & -> & _)%list_elem_of_fmap.
    by rewrite lookup_empty.
  - rewrite (sum_list_Permutation _ (f x :: map f (map_to_list m).*2)).
    2:{ by rewrite map_to_list_insert. }
    simpl. rewrite IH.
    2:{ intros j Hj. apply Hdom. rewrite lookup_insert_ne; [done |].
        intros ->. rewrite Hi in Hj. by destruct Hj. }
    rewrite (sum_list_point (λ j, f (default 0 (m !! j)))
               (λ j, f (default 0 (<[i:=x]> m !! j))) (seq 0 n) i).
    + rewrite lookup_insert_eq, Hi. simpl. lra.
    + apply NoDup_seq.
    + apply elem_of_seq. split; [lia |]. simpl. apply Hdom.
      rewrite lookup_insert_eq. by eexists.
    + intros j Hj. by rewrite lookup_insert_ne.
Qed.

(** The sum of the squares of [a.data] is the squared norm. *)
Lemma sum_squares_data a :
  csr_wf a →
  sum_list (map (λ i, i * i) (data a)) =
  sum_list (map (λ x, x * x) (dense a)).
Proof.
  intros Hwf. unfold data, dense.
  rewrite (sum_stored_dense (λ i, i * i) (stored a) (shape1 a)); [| lra | done].
  by rewrite map_map.
Qed.

Lemma norm2_data a :
  csr_wf a → sqrt (foldl (λ acc i, acc + i * i) 0 (data a)) = norm2 a.
Proof.
  intros Hwf. rewrite foldl_squares, Rplus_0_l. unfold norm2.
  by rewrite sum_squares_data.
Qed.

Lemma getitem_entry a i : (i < shape1 a)%nat → getitem a i = Ok (entry a i).
Proof. intros Hi. unfold getitem. by rewrite decide_True. Qed.

(** The [while] loop of [cosine_sim] over the columns [j .. j + n - 1]. *)
Lemma cosine_loop a b (v : R) (j n : nat) :
  (j + n <= shape1 a)%nat → (j + n <= shape1 b)%nat →
  foldl (λ acc i, v ← acc; bi ← getitem b i; ai ← getitem a i;
                  Ok (v + bi * ai))
        (Ok v) (seq j n)
  = Ok (v + sum_list (map (λ i, entry a i * entry b i) (seq j n))).
Proof.
  revert v j. induction n as [|n IH]; intros v j Ha Hb; simpl.
  - f_equal. lra.
  - rewrite !getitem_entry by lia. simpl.
    rewrite IH by lia. f_equal. lra.
Qed.

Lemma dot_same_shape a b :
  shape1 a = shape1 b →
  dot a b = sum_list (map (λ i, entry a i * entry b i) (seq 0 (shape1 a))).
Proof.
  intros Hshape. unfold dot, dense. rewrite <- Hshape.
  f_equal. induction (seq 0 (shape1 a)) as [|i l IH]; simpl; [done |].
  by rewrite IH.
Qed.

Lemma norm2_nonneg a : 0 <= norm2 a.
Proof. apply sqrt_pos. Qed.

(** [cosine_sim] on vectors of one shape, in the specification's terms. *)
Lemma cosine_sim_divide a b :
  csr_wf a → csr_wf b → shape1 a = shape1 b →
  cosine_sim a b =
    if decide (shape1 a = 0%nat)
    then q ← divide (dot a b) (norm2 a * norm2 b); Ok (Finite q)
    else Ok (cosine a b).
Proof.
  intros Ha Hb Hshape. unfold cosine_sim, cosine.
  rewrite cosine_loop by lia. cbn [mbind result_bind].
  rewrite !norm2_data by done. rewrite Rplus_0_l.
  by rewrite dot_same_shape.
Qed.

Lemma cosine_sim_cosine a b :
  csr_wf a → csr_wf b → shape1 a = shape1 b → (0 < shape1 a)%nat →
  cosine_sim a b = Ok (cosine a b).
Proof.
  intros Ha Hb Hshape Hpos. rewrite cosine_sim_divide by done.
  rewrite decide_False by lia. done.
Qed.

(** A vector of norm zero has no component that is not zero. *)
Lemma norm2_zero a (j : nat) :
  norm2 a = 0 → (j < shape1 a)%nat → entry a j = 0.
Proof.
  unfold norm2. intros Hnorm Hj.
  apply sqrt_eq_0 in Hnorm; [| apply sum_squares_nonneg].
  apply sum_list_nonneg_zero in Hnorm.
  2:{ apply Forall_forall. intros y (x & -> & _)%list_elem_of_fmap. nra. }
  assert (entry a j * entry a j = 0) as Hsq; [| nra].
  eapply Forall_forall in Hnorm; [exact Hnorm |].
  apply list_elem_of_fmap. exists (entry a j). split; [done |].
  unfold dense. apply list_elem_of_fmap. exists j. split; [done |].
  apply elem_of_seq. lia.
Qed.

Lemma dot_zero a b :
  shape1 a = shape1 b → norm2 a = 0 ∨ norm2 b = 0 → dot a b = 0.
Proof.
  intros Hshape Hzero. rewrite dot_same_shape by done.
  apply sum_list_zero, Forall_forall.
  intros x (j & -> & [_ Hj]%elem_of_seq)%list_elem_of_fmap.
  destruct Hzero as [Hz | Hz].
  - rewrite (norm2_zero a j Hz) by lia. lra.
  - rewrite (norm2_zero b j Hz) by lia. lra.
Qed.

(** The cosine with a vector of norm zero is nan. *)
Lemma cosine_zero a b :
  shape1 a = shape1 b → norm2 a = 0 ∨ norm2 b = 0 → cosine a b = NaN.
Proof.
  intros Hshape Hzero. unfold cosine. rewrite (dot_zero a b Hshape Hzero).
  assert (norm2 a * norm2 b = 0) as ->
    by (destruct Hzero as [-> | ->]; lra).
  apply np_divide_zero_zero.
Qed.

(** A vector without columns has the norm zero. *)
Lemma norm2_no_column a : shape1 a = 0%nat → norm2 a = 0.
Proof. intros Ha. unfold norm2, dense. rewrite Ha. simpl. apply sqrt_0. Qed.
End similarity.

(** C7, as the specification states it, fails: for a vector of norm zero the
    division is numpy's, and [cosine_sim] returns nan; nothing is raised. *)
Lemma cosine_sim_zero_norm :
  norm2 zero_vector = 0 ∧
  cosine_sim unit_vector zero_vector = Ok NaN ∧
  cosine_sim unit_vector zero_vector ≠ Raise ZeroDivision.
Proof.
  assert (norm2 zero_vector = 0) as Hnorm.
  { unfold norm2. change (dense zero_vector) with [0]. simpl.
    replace (0 * 0 + 0) with 0 by lra. apply sqrt_0. }
  assert (cosine_sim unit_vector zero_vector = Ok NaN) as Hnan.
  { rewrite cosine_sim_cosine.
    - f_equal. apply cosine_zero; [reflexivity | by right].
    - intros i [y Hy]. simpl in *.
      apply lookup_singleton_Some in Hy as [<- _]. lia.
    - intros i [y Hy]. simpl in *.
      apply lookup_singleton_Some in Hy as [<- _]. lia.
    - reflexivity.
    - simpl. lia. }
  split; [exact Hnorm |]. split; [exact Hnan |]. by rewrite Hnan.
Qed.

(** C7, amended. For two well-formed vectors of the same dimension,
    [cosine_sim a b] is [dot a b / (norm2 a * norm2 b)] when both Euclidean
    norms are not zero.  When one of the norms is zero, the result is not 0
    and, for vectors with a column, no fault either: the division is numpy's
    and returns nan.  Only for vectors without a column the division is
    Python's and raises [ZeroDivisionError]. *)
Theorem cosine_sim_dot_norm (a b : csr) :
  csr_wf a → csr_wf b → shape1 a = shape1 b →
  (norm2 a ≠ 0 → norm2 b ≠ 0 →
     cosine_sim a b = Ok (Finite (dot a b / (norm2 a * norm2 b)))) ∧
  (norm2 a = 0 ∨ norm2 b = 0 → (0 < shape1 a)%nat →
     cosine_sim a b = Ok NaN) ∧
  (shape1 a = 0%nat → cosine_sim a b = Raise ZeroDivision).
Proof.
  intros Ha Hb Hshape. split; [| split].
  - intros Hna Hnb.
    assert (0 < shape1 a)%nat as Hpos.
    { destruct (shape1 a) eqn:E; [| lia]. by rewrite norm2_no_column in Hna. }
    rewrite cosine_sim_cosine by done. f_equal.
    apply np_divide_Finite. by apply Rmult_integral_contrapositive.
  - intros Hzero Hpos. rewrite cosine_sim_cosine by done. f_equal.
    by apply cosine_zero.
  - intros Hnone. rewrite cosine_sim_divide by done.
    rewrite decide_True by done.
    rewrite (norm2_no_column a Hnone), Rmult_0_l, divide_zero. done.
Qed.

(** ** The prediction engine *)

Section prediction.
Implicit Types (movies : list featurized) (row : rating_row).
Implicit Types (sims : list float64) (ratings : list R).
Implicit Types (history : list rating_row).

Lemma weighted_sum_comm (xs ratings : list R) :
  sum_list (zip_with Rmult ratings xs) = weighted_sum xs ratings.
Proof.
  unfold weighted_sum. revert xs.
  induction ratings as [|r ratings IH]; intros [|s xs]; simpl; try done.
  rewrite IH. lra.
Qed.

(** The selection of the rows of a user is the one the specification
    describes. *)
Lemma rows_of_user_ratings_of (u : Z) (ratings_train : list rating_row) :
  rows_of_user u ratings_train (ratings_of ratings_train u).
Proof.
  unfold ratings_of. induction ratings_train as [|r rest IH]; [constructor |].
  rewrite filter_cons. case_decide; by constructor.
Qed.

Lemma rows_of_user_unique (u : Z) (ratings_train : list rating_row) history :
  rows_of_user u ratings_train history → history = ratings_of ratings_train u.
Proof.
  unfold ratings_of. induction 1 as [| r rest rows Hr _ IH | r rest rows Hr _ IH];
    [done | |]; rewrite filter_cons.
  - rewrite decide_True by done. by f_equal.
  - by rewrite decide_False.
Qed.

(** The selection of the feature vector of a movie, likewise. *)
Lemma vector_of_first movies (k : Z) (v : csr) :
  vector_of movies k v ↔ first (map features (movies_with movies k)) = Ok v.
Proof.
  unfold movies_with. split.
  - induction 1 as [m rest | m rest k v Hne _ IH]; rewrite filter_cons.
    + by rewrite decide_True.
    + by rewrite decide_False.
  - induction movies as [|m rest IH]; [done |].
    rewrite filter_cons. case_decide as Hk.
    + simpl. intros [= <-]. rewrite <- Hk. constructor.
    + intros Hv. constructor; [done | by apply IH].
Qed.

Lemma vector_of_elem movies (k : Z) (v : csr) :
  vector_of movies k v → ∃ m, m ∈ movies ∧ features m = v.
Proof.
  induction 1 as [m rest | m rest k v _ _ (m' & Hm' & Hv)].
  - exists m. split; [apply elem_of_cons; by left | done].
  - exists m'. split; [apply elem_of_cons; by right | done].
Qed.

Lemma similarity_cosine (n : nat) movies (k i : Z) (a b : csr) :
  catalogue_width n movies → vector_of movies k a → vector_of movies i b →
  similarity movies k i = Ok (cosine a b).
Proof.
  intros [Hn Hwidth] Ha Hb. unfold similarity.
  rewrite (proj1 (vector_of_first _ _ _) Ha), (proj1 (vector_of_first _ _ _) Hb).
  cbn [mbind result_bind].
  destruct (vector_of_elem _ _ _ Ha) as (ma & Hma & <-).
  destruct (vector_of_elem _ _ _ Hb) as (mb & Hmb & <-).
  destruct (Hwidth ma Hma) as [Wa Sa], (Hwidth mb Hmb) as [Wb Sb].
  apply cosine_sim_cosine; (done || congruence || lia).
Qed.

Lemma cosines_exist (n : nat) movies history (k : Z) :
  catalogue_width n movies →
  (∃ v, vector_of movies k v) →
  (∀ r, r ∈ history → ∃ v, vector_of movies (r_movieId r) v) →
  ∃ sims, cosines movies history k sims ∧
          Forall2 (λ r s, similarity movies (r_movieId r) k = Ok s) history sims.
Proof.
  intros Hwidth [b Hb]. induction history as [|r history IH]; intros Hall.
  - exists []. split; constructor.
  - destruct (Hall r) as [a Ha]; [apply elem_of_cons; by left |].
    destruct IH as (sims & Hcos & Hsims).
    { intros r' Hr'. apply Hall, elem_of_cons. by right. }
    exists (cosine a b :: sims). split; constructor; try done.
    + by exists a, b.
    + by eapply similarity_cosine.
Qed.

(** The products of the ratings and the similarities, in the order of the
    specification. *)
Lemma cosine_arr_products ratings sims :
  zip_with (λ a b, fmul (Finite a) b) ratings sims =
  zip_with fmul sims (map Finite ratings).
Proof.
  revert sims. induction ratings as [|r ratings IH]; intros [|s sims];
    simpl; try done.
  by rewrite IH, fmul_comm.
Qed.

(** One pass of the outer loop. *)
Lemma predict_row_sums movies ratings_train row sims :
  similarities movies ratings_train row sims →
  let ratings := map rating (ratings_of ratings_train (userId row)) in
  let S := sum_floats (zip_with fmul sims (map Finite ratings)) in
  predict_row movies ratings_train row =
    if is_positive S then Ok (np_divide S (sum_floats sims))
    else pre ← divide (sum_list ratings) (INR (length ratings));
         Ok (Finite pre).
Proof.
  intros Hsims ratings S. unfold predict_row.
  apply for_each_Ok in Hsims. unfold similarity in Hsims.
  rewrite Hsims. cbn [mbind result_bind]. fold ratings.
  by rewrite !fsum_sum_floats, cosine_arr_products, pysum_sum_list.
Qed.

Lemma predict_row_forecast movies ratings_train row sims :
  ratings_of ratings_train (userId row) ≠ [] →
  similarities movies ratings_train row sims →
  let ratings := map rating (ratings_of ratings_train (userId row)) in
  let S := sum_floats (zip_with fmul sims (map Finite ratings)) in
  predict_row movies ratings_train row =
    Ok (if is_positive S then np_divide S (sum_floats sims)
        else Finite (sum_list ratings / INR (length ratings))).
Proof.
  intros Hne Hsims ratings S.
  rewrite (predict_row_sums _ _ _ sims Hsims). fold ratings S.
  destruct (is_positive S); [done |].
  rewrite divide_Ok; [done |]. apply INR_length_nonzero. subst ratings.
  by destruct (ratings_of ratings_train (userId row)).
Qed.

(** A covered row has its prediction. *)
Lemma predict_row_covered (n : nat) movies ratings_train row :
  catalogue_width n movies → covered movies ratings_train row →
  ∃ history sims,
    rows_of_user (userId row) ratings_train history ∧
    cosines movies history (r_movieId row) sims ∧
    let ratings := map rating history in
    let S := sum_floats (zip_with fmul sims (map Finite ratings)) in
    predict_row movies ratings_train row =
      Ok (if is_positive S then np_divide S (sum_floats sims)
          else Finite (sum_list ratings / INR (length ratings))).
Proof.
  intros Hwidth (history & Hhistory & Hne & Htest & Htrain).
  destruct (cosines_exist n movies history (r_movieId row) Hwidth Htest Htrain)
    as (sims & Hcos & Hsims).
  exists history, sims. split; [done |]. split; [done |].
  pose proof (rows_of_user_unique _ _ _ Hhistory) as ->.
  by apply predict_row_forecast.
Qed.
End prediction.

(** C1, as the specification states it, fails: the user 9 has a training
    rating, but the movie 5 of the test row is not in the catalogue, and
    [make_predictions] raises an [IndexError] instead of predicting. *)
Lemma make_predictions_unknown_movie :
  let row := {| userId := 9; r_movieId := 5; rating := 1 |} in
  rows_of_user (userId row) small_train small_train ∧ small_train ≠ [] ∧
  make_predictions small_catalogue small_train [row] = Raise IndexError.
Proof.
  intros row. split; [| split].
  - apply (rows_of_user_ratings_of 9 small_train).
  - discriminate.
  - reflexivity.
Qed.

(** C1, amended. In a catalogue whose feature vectors have one width, at
    least one column, let every test row be covered: its user has at least
    one training rating, and its movie and the movies its user rated are in
    the catalogue.  Then [make_predictions] returns one prediction per test
    row, in the order of the test subset.  The prediction of a row is built
    from [S], the sum of similarity times rating over all the training rows
    of the user, and [W], the sum of these similarities, a similarity being
    the cosine of the two feature vectors, nan when a norm is zero: it is
    [S / W] when [S > 0] (numpy's division: an infinity when [W] is zero)
    and the mean of the user's training ratings otherwise, in particular
    when [S] is nan. *)
Theorem make_predictions_weighted (n : nat) (movies : list featurized)
    (ratings_train ratings_test : list rating_row) :
  catalogue_width n movies →
  Forall (covered movies ratings_train) ratings_test →
  ∃ predicted,
    make_predictions movies ratings_train ratings_test = Ok predicted ∧
    length predicted = length ratings_test ∧
    Forall2 (λ row pre,
        ∃ history sims,
          rows_of_user (userId row) ratings_train history ∧
          cosines movies history (r_movieId row) sims ∧
          let ratings := map rating history in
          let S := sum_floats (zip_with fmul sims (map Finite ratings)) in
          let W := sum_floats sims in
          pre = if is_positive S then np_divide S W
                else Finite (sum_list ratings / INR (length ratings)))
      ratings_test predicted.
Proof.
  intros Hwidth Hall.
  destruct (for_each_Forall2 (predict_row movies ratings_train)
    (λ row pre,
        ∃ history sims,
          rows_of_user (userId row) ratings_train history ∧
          cosines movies history (r_movieId row) sims ∧
          let ratings := map rating history in
          let S := sum_floats (zip_with fmul sims (map Finite ratings)) in
          let W := sum_floats sims in
          pre = if is_positive S then np_divide S W
                else Finite (sum_list ratings / INR (length ratings)))
    ratings_test) as (predicted & Hpred & Hrows).
  { intros row Hrow. eapply Forall_forall in Hall; [| exact Hrow].
    destruct (predict_row_covered n movies ratings_train row Hwidth Hall)
      as (history & sims & Hhistory & Hcos & Hpre).
    eexists. split; [exact Hpre |]. by exists history, sims. }
  exists predicted. split; [exact Hpred |].
  split; [by eapply for_each_length | exact Hrows].
Qed.

(** ** The order of strings *)

Lemma string_compare_refl (s : string) : String.compare s s = Eq.
Proof.
  induction s as [|c s IH]; simpl; [done |].
  unfold Ascii.compare. by rewrite N.compare_refl.
Qed.

Lemma string_compare_trans (s1 s2 s3 : string) :
  String.compare s1 s2 ≠ Gt → String.compare s2 s3 ≠ Gt →
  String.compare s1 s3 ≠ Gt.
Proof.
  revert s2 s3. induction s1 as [|c1 s1 IH]; intros [|c2 s2] [|c3 s3];
    simpl; try done.
  unfold Ascii.compare.
  destruct (N.compare_spec (N_of_ascii c1) (N_of_ascii c2)) as [E12|L12|G12];
    [| | done];
    destruct (N.compare_spec (N_of_ascii c2) (N_of_ascii c3)) as [E23|L23|G23];
    try done;
    destruct (N.compare_spec (N_of_ascii c1) (N_of_ascii c3)) as [E13|L13|G13];
    try done; try lia.
  apply IH.
Qed.

#[global] Instance string_le_trans : Transitive string_le.
Proof.
  intros s1 s2 s3. unfold string_le, String.leb. intros H12 H23.
  pose proof (string_compare_trans s1 s2 s3) as H.
  destruct (String.compare s1 s2), (String.compare s2 s3),
    (String.compare s1 s3); try done; by exfalso; apply H.
Qed.

#[global] Instance string_le_total : Total string_le.
Proof. intros s1 s2. apply String.leb_total. Qed.

#[global] Instance string_le_antisymm : AntiSymm (=) string_le.
Proof. intros s1 s2. apply String.leb_antisym. Qed.

Lemma StronglySorted_lookup_lt {A : Type} (R : relation A) (l : list A)
    (i j : nat) (x y : A) :
  StronglySorted R l → l !! i = Some x → l !! j = Some y → (i < j)%nat → R x y.
Proof.
  intros Hsorted. revert i j.
  induction Hsorted as [|z l _ IH Hz]; intros i j Hi Hj Hlt; [done |].
  destruct j as [|j]; [lia |]. destruct i as [|i]; simpl in *.
  - injection Hi as <-. eapply Forall_forall in Hz; [done |].
    by eapply list_elem_of_lookup_2.
  - apply (IH i j); (done || lia).
Qed.

(** ** The vocabulary *)

Section vocabulary.
Implicit Types (l : list string) (t : string) (i : nat).
Implicit Types (movies : list tokenized).

Lemma elem_of_sorted_set l t : t ∈ sorted_set l ↔ t ∈ l.
Proof.
  unfold sorted_set.
  by rewrite (elem_of_merge_sort_elements string_le), elem_of_list_to_set.
Qed.

Lemma sorted_set_NoDup l : NoDup (sorted_set l).
Proof. apply (merge_sort_elements_NoDup string_le). Qed.

Lemma sorted_set_sorted l : StronglySorted string_le (sorted_set l).
Proof. apply (merge_sort_elements_sorted string_le). Qed.

Lemma enumerate_dict_snoc l t :
  enumerate_dict (l ++ [t]) = <[t := length l]> (enumerate_dict l).
Proof.
  unfold enumerate_dict. rewrite imap_app, foldl_app. simpl.
  by rewrite Nat.add_0_r.
Qed.

(** On a list without repetition the dictionary sends each term to its
    position. *)
Lemma enumerate_dict_lookup l t i :
  NoDup l → enumerate_dict l !! t = Some i ↔ l !! i = Some t.
Proof.
  induction l as [|x l IH] using rev_ind; intros Hnd.
  - unfold enumerate_dict. simpl. by rewrite lookup_empty.
  - apply NoDup_app in Hnd as (Hnd & Hx & _).
    rewrite enumerate_dict_snoc. destruct (decide (x = t)) as [->|Hne].
    + rewrite lookup_insert_eq. split.
      * intros [= <-]. by rewrite list_lookup_middle.
      * intros Hi. f_equal. apply lookup_app_Some in Hi as [Hi | [Hlen Hi]].
        -- exfalso. apply (Hx t); [by eapply list_elem_of_lookup_2 |].
           by apply list_elem_of_singleton.
        -- apply list_lookup_singleton_Some in Hi as [Hi _]. lia.
    + rewrite lookup_insert_ne by done. rewrite IH by done.
      rewrite lookup_app_Some, list_lookup_singleton_Some.
      intuition congruence.
Qed.

Lemma enumerate_dict_dom l t :
  NoDup l → is_Some (enumerate_dict l !! t) ↔ t ∈ l.
Proof.
  intros Hnd. rewrite list_elem_of_lookup. unfold is_Some.
  split; intros [i Hi]; exists i; by apply enumerate_dict_lookup.
Qed.

Lemma enumerate_dict_size l : NoDup l → size (enumerate_dict l) = length l.
Proof.
  induction l as [|x l IH] using rev_ind; intros Hnd; [done |].
  apply NoDup_app in Hnd as (Hnd & Hx & _).
  rewrite enumerate_dict_snoc, map_size_insert_None, IH, length_app by
    (done || (apply eq_None_not_Some; rewrite enumerate_dict_dom by done;
              intros Hin; apply (Hx x); [done | by apply list_elem_of_singleton])).
  simpl. lia.
Qed.

Lemma elem_of_token_list movies t :
  t ∈ concat (map tokens movies) ↔ ∃ m, m ∈ movies ∧ t ∈ tokens m.
Proof.
  induction movies as [|m movies IH]; simpl.
  - split; [by intros ?%elem_of_nil | by intros (m & ?%elem_of_nil & _)].
  - rewrite elem_of_app, IH. split.
    + intros [Ht | (m' & Hm' & Ht)].
      * exists m. split; [apply elem_of_cons; by left | done].
      * exists m'. split; [apply elem_of_cons; by right | done].
    + intros (m' & [-> | Hm']%elem_of_cons & Ht); [by left |].
      right. by exists m'.
Qed.

Lemma vocabulary_lookup movies t i :
  vocabulary movies !! t = Some i ↔
  sorted_set (concat (map tokens movies)) !! i = Some t.
Proof. apply enumerate_dict_lookup, sorted_set_NoDup. Qed.

Lemma vocabulary_dom movies t :
  is_Some (vocabulary movies !! t) ↔ ∃ m, m ∈ movies ∧ t ∈ tokens m.
Proof.
  unfold vocabulary. rewrite enumerate_dict_dom by apply sorted_set_NoDup.
  by rewrite elem_of_sorted_set, elem_of_token_list.
Qed.

Lemma vocabulary_size movies :
  size (vocabulary movies) = length (sorted_set (concat (map tokens movies))).
Proof. apply enumerate_dict_size, sorted_set_NoDup. Qed.

Lemma vocabulary_index_bound movies t i :
  vocabulary movies !! t = Some i → (i < size (vocabulary movies))%nat.
Proof.
  rewrite vocabulary_lookup, vocabulary_size. apply lookup_lt_Some.
Qed.

Lemma vocabulary_inj movies t1 t2 i :
  vocabulary movies !! t1 = Some i → vocabulary movies !! t2 = Some i → t1 = t2.
Proof. rewrite !vocabulary_lookup. congruence. Qed.

(** A term with a smaller index comes first in the alphabet. *)
Lemma vocabulary_monotone movies t1 t2 i1 i2 :
  vocabulary movies !! t1 = Some i1 → vocabulary movies !! t2 = Some i2 →
  (i1 <= i2)%nat → string_le t1 t2.
Proof.
  rewrite !vocabulary_lookup. intros H1 H2 Hle.
  destruct (decide (i1 = i2)) as [->|Hne].
  - assert (t1 = t2) as -> by congruence.
    unfold string_le, String.leb. by rewrite string_compare_refl.
  - pose proof (sorted_set_sorted (concat (map tokens movies))) as Hsorted.
    apply (StronglySorted_lookup_lt _ _ i1 i2 t1 t2 Hsorted); (done || lia).
Qed.
End vocabulary.

(** ** The feature builder *)

Section features.
Implicit Types (row : list string) (t term : string) (c : gmap string nat).
Implicit Types (movies : list tokenized) (m : tokenized).

Lemma count_elem_of row t : t ∈ row ↔ (1 <= count row t)%nat.
Proof.
  rewrite list_elem_of_In. unfold count.
  rewrite (count_occ_In String.string_dec). lia.
Qed.

Lemma Counter_snoc row t :
  Counter (row ++ [t]) =
    <[t := S (default 0%nat (Counter row !! t))]> (Counter row).
Proof. unfold Counter. by rewrite foldl_snoc. Qed.

(** [Counter] counts: a term that occurs is mapped to its number of
    occurrences, the others are absent. *)
Lemma Counter_lookup row t :
  Counter row !! t =
    match count row t with
    | O => None
    | S n => Some (S n)
    end.
Proof.
  induction row as [|x row IH] using rev_ind; [done |].
  rewrite Counter_snoc. unfold count in *. rewrite count_occ_app. simpl.
  destruct (String.string_dec x t) as [->|Hne].
  - rewrite lookup_insert_eq, IH.
    destruct (count_occ String.string_dec row t); simpl; [done |].
    f_equal. lia.
  - rewrite lookup_insert_ne, IH, Nat.add_0_r by done. done.
Qed.

Lemma Counter_lookup_Some row t n :
  Counter row !! t = Some n ↔ t ∈ row ∧ n = count row t.
Proof.
  rewrite Counter_lookup, count_elem_of.
  destruct (count row t) as [|k].
  - split; [done | intros [? _]; lia].
  - split; [intros [= <-]; split; [lia | done] | by intros [_ ->]].
Qed.

Lemma Counter_empty row : Counter row = ∅ ↔ row = [].
Proof.
  split; [| by intros ->].
  destruct row as [|t row]; [done |]. intros Hempty.
  assert (Counter (t :: row) !! t = None) as Hnone by (by rewrite Hempty).
  rewrite Counter_lookup in Hnone.
  assert (1 <= count (t :: row) t)%nat as Hcount
    by (apply count_elem_of, elem_of_cons; by left).
  by destruct (count (t :: row) t); [lia |].
Qed.

(** The largest value of a dictionary of counts. *)
Lemma map_fold_max c :
  let top := map_fold (λ _ n acc, n `max` acc)%nat 0%nat c in
  (∀ k n, c !! k = Some n → (n <= top)%nat) ∧
  (c ≠ ∅ → ∃ k, c !! k = Some top).
Proof.
  simpl.
  apply (map_fold_weak_ind
    (λ r (c : gmap string nat),
       ((∀ k n, c !! k = Some n → (n <= r)%nat) ∧
        (c ≠ ∅ → ∃ k, c !! k = Some r)) ∧ (c = ∅ → r = 0%nat))).
  - repeat split; (done || (intros k n; by rewrite lookup_empty)).
  - intros i x m r Hi [[Hle Hmax] Hzero]. split; [split |].
    + intros k n. destruct (decide (i = k)) as [->|Hne].
      * rewrite lookup_insert_eq. intros [= <-]. lia.
      * rewrite lookup_insert_ne by done. intros Hk%Hle. lia.
    + intros _. destruct (decide (r <= x)%nat) as [Hrx|Hrx].
      * exists i. rewrite lookup_insert_eq. f_equal. lia.
      * destruct Hmax as [k Hk].
        { intros ->%Hzero. lia. }
        exists k. rewrite lookup_insert_ne by congruence.
        rewrite Hk. f_equal. lia.
    + intros Hempty. by apply insert_non_empty in Hempty.
Qed.

(** [Counter(row).most_common(1)[0]] gives the count [max_tf row]; on an empty
    row it is an [IndexError]. *)
Lemma most_common_max_tf row :
  row ≠ [] → first (most_common_1 (Counter row)) = Ok (max_tf row).
Proof.
  intros Hrow. unfold most_common_1.
  rewrite decide_False by (by rewrite Counter_empty). simpl. f_equal.
  destruct (map_fold_max (Counter row)) as [Hle [k Hk]];
    [by rewrite Counter_empty |].
  simpl in *. apply Counter_lookup_Some in Hk as [Hk Htop].
  apply Nat.le_antisymm.
  - rewrite Htop. apply max_list_elem_of_le, list_elem_of_fmap. by exists k.
  - assert (max_tf row ∈ map (count row) row) as (t & -> & Ht)%list_elem_of_fmap.
    { apply max_list_elem_of. by destruct row. }
    apply (Hle t). by apply Counter_lookup_Some.
Qed.

Lemma most_common_empty : first (most_common_1 (Counter [])) = Raise IndexError.
Proof. reflexivity. Qed.

Lemma max_tf_ge row t : (count row t <= max_tf row)%nat.
Proof.
  destruct (decide (t ∈ row)) as [Ht|Ht].
  - apply max_list_elem_of_le, list_elem_of_fmap. by exists t.
  - rewrite count_elem_of in Ht. lia.
Qed.

Lemma max_tf_pos row : row ≠ [] → (1 <= max_tf row)%nat.
Proof.
  destruct row as [|t row]; [done |]. intros _.
  etransitivity; [| apply (max_tf_ge _ t)].
  apply count_elem_of, elem_of_cons. by left.
Qed.

Lemma document_frequency_le movies t :
  (document_frequency movies t <= length movies)%nat.
Proof. apply length_filter. Qed.

Lemma df_table_lookup movies t :
  df_table movies (vocabulary movies) !! t =
    (λ _, document_frequency movies t) <$> vocabulary movies !! t.
Proof.
  unfold df_table. rewrite map_lookup_imap.
  by destruct (vocabulary movies !! t).
Qed.
End features.

Section feature_rows.
Implicit Types (row : list string) (t term : string) (coo : list (nat * R)).
Implicit Types (movies : list tokenized) (m : tokenized) (v : csr).

Lemma log10_Ok (x : R) : 0 < x → log10 x = Ok (ln x / ln 10).
Proof. intros Hx. unfold log10. by destruct (Rlt_dec 0 x). Qed.

(** One pass of the loop over [set(row)]. *)
Lemma tfidf_entry_Ok movies row t (j : nat) :
  row ≠ [] → movies ≠ [] →
  vocabulary movies !! t = Some j →
  (1 <= document_frequency movies t)%nat →
  tfidf_entry (length movies) (vocabulary movies)
    (df_table movies (vocabulary movies)) row (max_tf row) t
  = Ok (j, tfidf movies row t).
Proof.
  intros Hrow Hmovies Hj Hdf. unfold tfidf_entry.
  assert (0 < INR (max_tf row)) as Hmax
    by (apply lt_0_INR; pose proof (max_tf_pos row Hrow); lia).
  assert (0 < INR (document_frequency movies t)) as Hdf'
    by (apply lt_0_INR; lia).
  assert (0 < INR (length movies)) as HN
    by (apply lt_0_INR; destruct movies; [done | simpl; lia]).
  rewrite divide_Ok by lra. simpl.
  unfold dict_get. rewrite df_table_lookup, Hj. simpl.
  rewrite divide_Ok by lra. simpl.
  rewrite log10_Ok by (by apply Rdiv_lt_0_compat). simpl.
  done.
Qed.

(** A pass that returns has met a term with a document frequency. *)
Lemma tfidf_entry_inv movies row (mx : nat) t (e : nat * R) :
  tfidf_entry (length movies) (vocabulary movies)
    (df_table movies (vocabulary movies)) row mx t = Ok e →
  (1 <= document_frequency movies t)%nat.
Proof.
  unfold tfidf_entry.
  intros (ratio & _ & (df & Hdf & (q & Hq & _)%bind_Ok)%bind_Ok)%bind_Ok.
  unfold dict_get in Hdf. rewrite df_table_lookup in Hdf.
  destruct (vocabulary movies !! t); simpl in Hdf; [| done].
  injection Hdf as <-. apply divide_inv in Hq as [Hq _].
  destruct (document_frequency movies t); [by simpl in Hq | lia].
Qed.

(** Entries at distinct columns are stored as they are. *)
Lemma coo_lookup coo (j : nat) (x : R) :
  NoDup coo.*1 → foldl coo_add ∅ coo !! j = Some x ↔ (j, x) ∈ coo.
Proof.
  revert j x. induction coo as [|[k y] coo IH] using rev_ind; intros j x Hnd.
  - simpl. rewrite lookup_empty. split; [done | by intros ?%elem_of_nil].
  - rewrite fmap_app in Hnd. apply NoDup_app in Hnd as (Hnd & Hk & _).
    assert (k ∉ coo.*1) as Hfresh.
    { intros Hin. apply (Hk k Hin). by apply list_elem_of_singleton. }
    assert (foldl coo_add ∅ coo !! k = None) as Hnone.
    { apply eq_None_not_Some. intros [z Hz]. apply Hfresh.
      apply IH in Hz; [| done]. apply list_elem_of_fmap. by exists (k, z). }
    rewrite foldl_snoc. unfold coo_add at 1. simpl. rewrite Hnone. simpl.
    rewrite Rplus_0_l, elem_of_app, list_elem_of_singleton.
    destruct (decide (k = j)) as [->|Hne].
    + rewrite lookup_insert_eq. split.
      * intros [= <-]. by right.
      * intros [Hin | [= <-]]; [| done]. exfalso. apply Hfresh.
        apply list_elem_of_fmap. by exists (j, x).
    + rewrite lookup_insert_ne by done. rewrite IH by done.
      split; [by left | intros [? | [= ? ?]]; [done | congruence]].
Qed.

(** The loop over [movies['tokens']]: the vector of a row of tokens. *)
Lemma featurize_row_Ok movies m :
  m ∈ movies → tokens m ≠ [] →
  (∀ t, t ∈ tokens m → (1 <= document_frequency movies t)%nat) →
  ∃ v, featurize_row (length movies) (vocabulary movies)
         (df_table movies (vocabulary movies)) (tokens m) = Ok v ∧
       feature_vector movies m v.
Proof.
  intros Hm Hrow Hdf. unfold featurize_row.
  rewrite most_common_max_tf by done. simpl.
  set (index t := default 0%nat (vocabulary movies !! t)).
  assert (∀ t, t ∈ tokens m → vocabulary movies !! t = Some (index t)) as Hindex.
  { intros t Ht. destruct (proj2 (vocabulary_dom movies t)) as [j Hj];
      [by exists m |]. unfold index. by rewrite Hj. }
  rewrite (for_each_map _ (λ t, (index t, tfidf movies (tokens m) t))).
  2:{ apply Forall_forall. intros t Ht%elem_of_elements%elem_of_list_to_set.
      apply tfidf_entry_Ok; try done; [| by apply Hindex | by apply Hdf].
      intros ->. by apply elem_of_nil in Hm. }
  simpl. unfold csr_matrix. rewrite decide_True.
  2:{ apply Forall_forall.
      intros e (t & -> & Ht%elem_of_elements%elem_of_list_to_set)%list_elem_of_fmap.
      simpl. by eapply vocabulary_index_bound, Hindex. }
  eexists. split; [done |]. split; [done |]. simpl. intros j x.
  rewrite coo_lookup.
  - rewrite list_elem_of_fmap. split.
    + intros (t & [= -> ->] & Ht%elem_of_elements%elem_of_list_to_set).
      exists t. split; [done |]. split; [by apply Hindex | done].
    + intros (t & Ht & Hj & ->). exists t. split.
      * f_equal. rewrite (Hindex t Ht) in Hj. by injection Hj.
      * by apply elem_of_elements, elem_of_list_to_set.
  - rewrite <- list_fmap_compose. apply NoDup_fmap_2_strong; [| apply NoDup_elements].
    intros t1 t2 Ht1%elem_of_elements%elem_of_list_to_set
      Ht2%elem_of_elements%elem_of_list_to_set. simpl. intros Heq.
    apply (vocabulary_inj movies t1 t2 (index t1)); [by apply Hindex |].
    rewrite Heq. by apply Hindex.
Qed.

Lemma featurize_row_inv movies m v :
  featurize_row (length movies) (vocabulary movies)
    (df_table movies (vocabulary movies)) (tokens m) = Ok v →
  tokens m ≠ [] ∧
  ∀ t, t ∈ tokens m → (1 <= document_frequency movies t)%nat.
Proof.
  unfold featurize_row. intros Hv.
  destruct (decide (tokens m = [])) as [Hnil|Hrow].
  { rewrite Hnil in Hv. by rewrite most_common_empty in Hv. }
  split; [done |]. intros t Ht.
  rewrite most_common_max_tf in Hv by done. simpl in Hv.
  apply bind_Ok in Hv as (coo & Hcoo & _).
  destruct (for_each_elem_of _ _ _ t Hcoo) as [e He].
  { by apply elem_of_elements, elem_of_list_to_set. }
  by eapply tfidf_entry_inv.
Qed.

(** [movies['features'] = value] *)
Lemma zip_features (Q : tokenized → csr → Prop) (ms : list tokenized)
    (vs : list csr) :
  Forall2 Q ms vs →
  Forall2 (λ m fd, tok_of fd = m ∧ Q m (features fd)) ms
    (zip_with (λ m v, {| tok_of := m; features := v |}) ms vs).
Proof. induction 1; simpl; by constructor. Qed.

(** [featurize] returns on the movies it accepts, and gives each of them its
    feature vector. *)
Lemma featurize_Ok movies :
  featurizable movies →
  ∃ fm, featurize movies = Ok (fm, vocabulary movies) ∧
        Forall2 (λ m fd, tok_of fd = m ∧ feature_vector movies m (features fd))
                movies fm.
Proof.
  intros Hok. unfold featurize.
  destruct (for_each_Forall2
    (λ m, featurize_row (length movies) (vocabulary movies)
            (df_table movies (vocabulary movies)) (tokens m))
    (feature_vector movies) movies) as (value & Hvalue & Hvectors).
  { intros m Hm. destruct (Hok m Hm) as [Hrow Hdf].
    by apply featurize_row_Ok. }
  rewrite Hvalue. simpl. eexists. split; [done |].
  by apply zip_features.
Qed.

Lemma featurize_inv movies fm vocab :
  featurize movies = Ok (fm, vocab) →
  featurizable movies ∧ vocab = vocabulary movies.
Proof.
  unfold featurize. intros (value & Hvalue & [= _ <-])%bind_Ok.
  split; [| done]. intros m Hm.
  destruct (for_each_elem_of _ _ _ m Hvalue Hm) as [v Hv].
  by eapply featurize_row_inv.
Qed.

(** What [featurize] returns, when it does. *)
Lemma featurize_spec movies fm vocab :
  featurize movies = Ok (fm, vocab) →
  vocab = vocabulary movies ∧
  Forall2 (λ m fd, tok_of fd = m ∧ feature_vector movies m (features fd))
          movies fm.
Proof.
  intros Hfm. destruct (featurize_inv _ _ _ Hfm) as [Hok ->].
  split; [done |].
  destruct (featurize_Ok movies Hok) as (fm' & Hfm' & Hvectors).
  rewrite Hfm in Hfm'. by injection Hfm' as ->.
Qed.
End feature_rows.

(** ** Tokenized movies *)

Section tokenized_movies.
Implicit Types (s t : string) (raw : list movie) (m : tokenized).

(** A maximal run of a string is a substring of it. *)
Lemma maximal_runs_substring s runs t :
  maximal_runs is_token_char s runs → t ∈ runs → ∃ pre post, s = pre +:+ t +:+ post.
Proof.
  induction 1 as [gap Hgap | gap run rest runs Hgap Hne Hrun Hstop _ IH].
  - by intros ?%elem_of_nil.
  - intros [-> | Ht]%elem_of_cons.
    + by exists gap, rest.
    + destruct (IH Ht) as (pre & post & ->).
      exists (gap +:+ run +:+ pre), post. by rewrite !append_assoc.
Qed.

Lemma token_contained genre t :
  t ∈ tokenize_string genre → contains (lower genre) t = true.
Proof.
  intros Ht. apply contains_spec.
  apply (maximal_runs_substring _ (tokenize_string genre)); [| done].
  apply findall_maximal_runs.
Qed.

Lemma elem_of_tokenize raw m :
  m ∈ tokenize raw ↔
  ∃ r, r ∈ raw ∧ m = {| row_of := r; tokens := tokenize_string (genres r) |}.
Proof.
  unfold tokenize. rewrite list_elem_of_fmap.
  split; intros (r & H1 & H2); by exists r.
Qed.

(** Each token of a tokenized catalogue occurs in a genre text: that of its
    own movie. *)
Lemma tokenize_document_frequency raw m t :
  m ∈ tokenize raw → t ∈ tokens m →
  (1 <= document_frequency (tokenize raw) t)%nat.
Proof.
  intros Hm Ht. unfold document_frequency.
  assert (m ∈ filter (λ m', contains (lower (genres (row_of m'))) t = true)
                     (tokenize raw)) as Hin.
  { apply list_elem_of_filter. split; [| done].
    apply elem_of_tokenize in Hm as (r & _ & ->). by apply token_contained. }
  destruct (filter _ (tokenize raw)); [by apply elem_of_nil in Hin | simpl; lia].
Qed.

Lemma tokenize_featurizable raw :
  (∀ r, r ∈ raw → tokenize_string (genres r) ≠ []) →
  featurizable (tokenize raw).
Proof.
  intros Hraw m Hm. split.
  - apply elem_of_tokenize in Hm as (r & Hr & ->). by apply Hraw.
  - intros t Ht. by eapply tokenize_document_frequency.
Qed.
End tokenized_movies.

(** C8. For every term of the vocabulary of a tokenized catalogue the
    document frequency is at least 1, because the term is a token of some
    movie and a substring of the lowercased genre text of that movie; the
    division [N / df] and the logarithm of the quotient are therefore
    defined. *)
Theorem document_frequency_positive (raw : list movie) (t : string) :
  let movies := tokenize raw in
  is_Some (vocabulary movies !! t) →
  (1 <= document_frequency movies t)%nat ∧
  df_table movies (vocabulary movies) !! t = Some (document_frequency movies t) ∧
  ∃ q idf,
    divide (INR (length movies)) (INR (document_frequency movies t)) = Ok q ∧
    log10 q = Ok idf.
Proof.
  intros movies Hvocab.
  destruct (proj1 (vocabulary_dom movies t) Hvocab) as (m & Hm & Ht).
  pose proof (tokenize_document_frequency raw m t Hm Ht) as Hdf.
  fold movies in Hdf. split; [done |]. split.
  - rewrite df_table_lookup. by destruct Hvocab as [j ->].
  - assert (0 < INR (document_frequency movies t)) by (apply lt_0_INR; lia).
    assert (0 < INR (length movies)).
    { apply lt_0_INR. destruct movies; [by apply elem_of_nil in Hm | simpl; lia]. }
    eexists _, _. rewrite divide_Ok by lra. split; [done |].
    apply log10_Ok. by apply Rdiv_lt_0_compat.
Qed.

Lemma example_movies_tokens r :
  r ∈ example_movies → tokenize_string (genres r) ≠ [].
Proof.
  unfold example_movies. intros Hr.
  repeat (apply elem_of_cons in Hr as [-> | Hr]; [by vm_compute |]).
  by apply elem_of_nil in Hr.
Qed.

Lemma document_frequency_positive_witness :
  let movies := tokenize example_movies in
  is_Some (vocabulary movies !! "horror"%string) ∧
  (1 <= document_frequency movies "horror")%nat ∧
  df_table movies (vocabulary movies) !! "horror"%string
    = Some (document_frequency movies "horror") ∧
  ∃ q idf,
    divide (INR (length movies)) (INR (document_frequency movies "horror")) = Ok q ∧
    log10 q = Ok idf.
Proof.
  assert (is_Some (vocabulary (tokenize example_movies) !! "horror"%string))
    as Hvocab by (exists 0%nat; vm_compute; reflexivity).
  split; [exact Hvocab |].
  exact (document_frequency_positive example_movies "horror" Hvocab).
Defined.

(** C4. The vocabulary returned by [featurize] is [vocabulary movies]: its
    terms are exactly the distinct tokens of all the movies, in alphabetical
    order, a term at position [i] of this order having the index [i], so the
    indices are [0 .. k-1] and the term of index 0 is the first of the
    alphabet.  For the token lists [["horror"; "romance"]] and [["sci-fi"]]
    the vocabulary is [{"horror": 0, "romance": 1, "sci-fi": 2}]. *)
Theorem vocabulary_sorted_distinct (movies : list tokenized) :
  let terms := sorted_set (concat (map tokens movies)) in
  (∀ fm vocab, featurize movies = Ok (fm, vocab) → vocab = vocabulary movies) ∧
  (∀ t, t ∈ terms ↔ ∃ m, m ∈ movies ∧ t ∈ tokens m) ∧
  NoDup terms ∧
  StronglySorted string_le terms ∧
  (∀ t i, vocabulary movies !! t = Some i ↔ terms !! i = Some t) ∧
  size (vocabulary movies) = length terms ∧
  (∀ t t', vocabulary movies !! t = Some 0%nat →
           is_Some (vocabulary movies !! t') → string_le t t') ∧
  map tokens (tokenize example_movies)
    = [["horror"; "romance"]; ["sci-fi"]]%string ∧
  ∃ fm, featurize (tokenize example_movies) =
          Ok (fm, {[ "horror"%string := 0%nat; "romance"%string := 1%nat;
                     "sci-fi"%string := 2%nat ]}).
Proof.
  intros terms. repeat split.
  - intros fm vocab Hfm. by apply featurize_inv in Hfm as [_ ->].
  - intros Ht. apply elem_of_token_list. by apply elem_of_sorted_set.
  - intros Ht. apply elem_of_sorted_set. by apply elem_of_token_list.
  - apply sorted_set_NoDup.
  - apply sorted_set_sorted.
  - by apply vocabulary_lookup.
  - by apply vocabulary_lookup.
  - apply vocabulary_size.
  - intros t t' Ht [i Ht']. eapply vocabulary_monotone; [done | done | lia].
  - destruct (featurize_Ok (tokenize example_movies)) as (fm & Hfm & _).
    { apply tokenize_featurizable, example_movies_tokens. }
    exists fm. rewrite Hfm. do 2 f_equal.
Qed.

(** ** Weights *)

Section weights.
Implicit Types (movies : list tokenized) (row : list string) (t : string).

(** The document frequency counts the genre texts that contain the term. *)
Lemma document_frequency_counts movies t :
  counts (λ m, substring_of t (lower (genres (row_of m)))) movies
         (document_frequency movies t).
Proof.
  unfold document_frequency. induction movies as [|m movies IH].
  - constructor.
  - rewrite filter_cons. case_decide as Hm.
    + apply counts_yes; [by apply contains_spec | exact IH].
    + apply counts_no; [by intros Hsub%contains_spec | exact IH].
Qed.

Lemma counts_functional {A : Type} (P : A → Prop) (l : list A) (n1 n2 : nat) :
  counts P l n1 → counts P l n2 → n1 = n2.
Proof.
  intros H1. revert n2.
  induction H1 as [|x l n Hx _ IH | x l n Hx _ IH]; intros n2 H2;
    inversion H2; subst; try done; f_equal; by apply IH.
Qed.

Lemma ln_10_pos : 0 < ln 10.
Proof. rewrite <- ln_1. apply ln_increasing; lra. Qed.

Lemma ln_nonneg (x : R) : 1 <= x → 0 <= ln x.
Proof.
  intros [Hx | <-]; [| rewrite ln_1; lra].
  left. rewrite <- ln_1. apply ln_increasing; lra.
Qed.

Lemma ln_zero (x : R) : 0 < x → ln x = 0 ↔ x = 1.
Proof.
  intros Hx. split; [| intros ->; apply ln_1].
  intros Hln. apply ln_inv; [done | lra |]. by rewrite ln_1.
Qed.

Lemma tf_ratio_pos row t :
  t ∈ row → 0 < INR (count row t) / INR (max_tf row).
Proof.
  intros Ht. apply count_elem_of in Ht.
  pose proof (max_tf_ge row t).
  apply Rdiv_lt_0_compat; apply lt_0_INR; lia.
Qed.

Lemma df_ratio movies t :
  (1 <= document_frequency movies t)%nat →
  1 <= INR (length movies) / INR (document_frequency movies t).
Proof.
  intros Hdf. pose proof (document_frequency_le movies t) as Hle.
  apply le_INR in Hle.
  assert (0 < INR (document_frequency movies t)) as Hpos
    by (apply lt_0_INR; lia).
  apply (Rmult_le_reg_r (INR (document_frequency movies t))); [done |].
  unfold Rdiv. rewrite Rmult_assoc, Rinv_l by lra. lra.
Qed.

(** A weight is not negative. *)
Lemma tfidf_nonneg movies row t :
  t ∈ row → (1 <= document_frequency movies t)%nat →
  0 <= tfidf movies row t.
Proof.
  intros Ht Hdf. unfold tfidf.
  apply Rmult_le_pos; [left; by apply tf_ratio_pos |].
  apply Rdiv_nonneg; [| apply ln_10_pos]. by apply ln_nonneg, df_ratio.
Qed.

(** A weight is zero exactly for a term that every genre text contains. *)
Lemma tfidf_zero movies row t :
  t ∈ row → (1 <= document_frequency movies t)%nat →
  tfidf movies row t = 0 ↔ document_frequency movies t = length movies.
Proof.
  intros Ht Hdf. unfold tfidf.
  pose proof (tf_ratio_pos row t Ht) as Hratio.
  pose proof ln_10_pos as Hln10.
  pose proof (df_ratio movies t Hdf) as Hq.
  assert (0 < INR (document_frequency movies t)) as Hpos
    by (apply lt_0_INR; lia).
  set (q := INR (length movies) / INR (document_frequency movies t)) in *.
  split.
  - intros [Hzero | Hzero]%Rmult_integral; [lra |].
    unfold Rdiv in Hzero. apply Rmult_integral in Hzero as [Hln | Hinv].
    2:{ exfalso. by apply (Rinv_neq_0_compat (ln 10)); [lra |]. }
    apply ln_zero in Hln; [| lra].
    symmetry. apply INR_eq.
    apply (Rmult_eq_reg_r (/ INR (document_frequency movies t)));
      [| apply Rinv_neq_0_compat; lra].
    rewrite Rinv_r by lra. exact Hln.
  - intros Heq. assert (q = 1) as ->.
    { unfold q. rewrite Heq. unfold Rdiv. apply Rinv_r.
      rewrite <- Heq. lra. }
    rewrite ln_1. lra.
Qed.
End weights.



(** ** The support of a feature vector *)

Section support.
Implicit Types (movies : list tokenized) (m : tokenized) (v : csr).

Lemma feature_vector_entry movies m v t (j : nat) :
  feature_vector movies m v → t ∈ tokens m →
  vocabulary movies !! t = Some j →
  entry v j = tfidf movies (tokens m) t.
Proof.
  intros [_ Hstored] Ht Hj. unfold entry.
  assert (stored v !! j = Some (tfidf movies (tokens m) t)) as ->; [| done].
  apply Hstored. by exists t.
Qed.

Lemma feature_vector_absent movies m v (j : nat) :
  feature_vector movies m v →
  ¬ token_index (vocabulary movies) (tokens m) j → entry v j = 0.
Proof.
  intros [_ Hstored] Hj. unfold entry.
  destruct (stored v !! j) as [x|] eqn:Hx; [| done].
  exfalso. apply Hj. apply Hstored in Hx as (t & Ht & Hvocab & _).
  by exists t.
Qed.

Lemma feature_vector_wf movies m v : feature_vector movies m v → csr_wf v.
Proof.
  intros [Hshape Hstored] j [x Hx]. rewrite Hshape.
  apply Hstored in Hx as (t & _ & Hj & _).
  by eapply vocabulary_index_bound.
Qed.

Lemma feature_vector_nonneg movies m v (j : nat) :
  featurizable movies → m ∈ movies → feature_vector movies m v →
  0 <= entry v j.
Proof.
  intros Hok Hm Hv. destruct (Hok m Hm) as [_ Hdf].
  destruct Hv as [Hshape Hstored]. unfold entry.
  destruct (stored v !! j) as [x|] eqn:Hx; simpl; [| lra].
  apply Hstored in Hx as (t & Ht & _ & ->).
  apply tfidf_nonneg; [done | by apply Hdf].
Qed.

End support.




(** ** Two small vectors and a small catalogue *)

Section small.

Lemma singleton_vector_wf (x : R) :
  csr_wf {| shape1 := 1; stored := {[ 0%nat := x ]} |}.
Proof.
  intros i [y Hy]. simpl in *.
  apply lookup_singleton_Some in Hy as [<- _]. lia.
Qed.

Lemma singleton_vector_dense (x : R) :
  dense {| shape1 := 1; stored := {[ 0%nat := x ]} |} = [x].
Proof. reflexivity. Qed.

Lemma unit_vector_norm : norm2 unit_vector = 1.
Proof.
  unfold norm2, unit_vector. rewrite singleton_vector_dense. simpl.
  replace (1 * 1 + 0) with 1 by lra. apply sqrt_1.
Qed.

Lemma zero_vector_norm : norm2 zero_vector = 0.
Proof.
  unfold norm2, zero_vector. rewrite singleton_vector_dense. simpl.
  replace (0 * 0 + 0) with 0 by lra. apply sqrt_0.
Qed.

Lemma unit_vector_dot : dot unit_vector unit_vector = 1.
Proof.
  unfold dot, unit_vector. rewrite singleton_vector_dense. simpl. lra.
Qed.

Lemma unit_vector_cosine : cosine unit_vector unit_vector = Finite 1.
Proof.
  unfold cosine.
  rewrite unit_vector_norm, unit_vector_dot, np_divide_Finite by lra.
  f_equal. lra.
Qed.

Lemma small_catalogue_width : catalogue_width 1 small_catalogue.
Proof.
  split; [lia |]. intros m Hm. unfold small_catalogue in Hm.
  repeat (apply elem_of_cons in Hm as [-> | Hm];
          [split; [apply singleton_vector_wf | reflexivity] |]).
  by apply elem_of_nil in Hm.
Qed.

Lemma small_vectors :
  vector_of small_catalogue 1 unit_vector ∧
  vector_of small_catalogue 3 unit_vector.
Proof.
  split.
  - apply (vector_of_here (plain_movie 1 unit_vector)).
  - apply vector_of_later; [discriminate |].
    apply (vector_of_here (plain_movie 3 unit_vector)).
Qed.

Lemma small_similarity : similarity small_catalogue 1 3 = Ok (Finite 1).
Proof.
  destruct small_vectors as [H1 H3].
  rewrite (similarity_cosine 1 small_catalogue 1 3 unit_vector unit_vector
             small_catalogue_width H1 H3).
  by rewrite unit_vector_cosine.
Qed.

Lemma small_covered : Forall (covered small_catalogue small_train) small_test.
Proof.
  destruct small_vectors as [H1 H3].
  constructor; [| constructor].
  exists small_train. split; [apply (rows_of_user_ratings_of 9 small_train) |].
  split; [discriminate |]. split; [by exists unit_vector |].
  intros r ->%list_elem_of_singleton. by exists unit_vector.
Qed.
End small.

Lemma cosine_sim_dot_norm_witness :
  (csr_wf unit_vector ∧ csr_wf zero_vector ∧ csr_wf empty_vector ∧
   shape1 unit_vector = shape1 zero_vector) ∧
  (norm2 unit_vector ≠ 0 ∧
   cosine_sim unit_vector unit_vector =
     Ok (Finite (dot unit_vector unit_vector /
                 (norm2 unit_vector * norm2 unit_vector)))) ∧
  (norm2 zero_vector = 0 ∧ (0 < shape1 unit_vector)%nat ∧
   cosine_sim unit_vector zero_vector = Ok NaN) ∧
  (shape1 empty_vector = 0%nat ∧
   cosine_sim empty_vector empty_vector = Raise ZeroDivision).
Proof.
  pose proof (singleton_vector_wf 1) as Hunit.
  pose proof (singleton_vector_wf 0) as Hzero.
  assert (csr_wf empty_vector) as Hempty
    by (intros i [y Hy]; simpl in Hy; by rewrite lookup_empty in Hy).
  assert (0 < shape1 unit_vector)%nat as Hpos by (simpl; lia).
  split; [split; [exact Hunit | split; [exact Hzero |
          split; [exact Hempty | reflexivity]]] |].
  split; [| split].
  - assert (norm2 unit_vector ≠ 0) as Hnorm
      by (rewrite unit_vector_norm; lra).
    split; [exact Hnorm |].
    exact (proj1 (cosine_sim_dot_norm unit_vector unit_vector
                    Hunit Hunit eq_refl) Hnorm Hnorm).
  - split; [exact zero_vector_norm |]. split; [exact Hpos |].
    exact (proj1 (proj2 (cosine_sim_dot_norm unit_vector zero_vector
                           Hunit Hzero eq_refl))
             (or_intror zero_vector_norm) Hpos).
  - split; [reflexivity |].
    exact (proj2 (proj2 (cosine_sim_dot_norm empty_vector empty_vector
                           Hempty Hempty eq_refl)) eq_refl).
Defined.

Lemma make_predictions_weighted_witness :
  (catalogue_width 1 small_catalogue ∧
   Forall (covered small_catalogue small_train) small_test) ∧
  ∃ predicted,
    make_predictions small_catalogue small_train small_test = Ok predicted ∧
    length predicted = length small_test.
Proof.
  split; [split; [exact small_catalogue_width | exact small_covered] |].
  destruct (make_predictions_weighted 1 small_catalogue small_train small_test
              small_catalogue_width small_covered)
    as (predicted & Hpred & Hlen & _).
  exists predicted. split; [exact Hpred | exact Hlen].
Defined.

(** ** Bounds of the predictions *)

Section bounds.
Implicit Types (a b : csr) (sims ratings : list R) (lo hi : R).
Implicit Types (movies : list tokenized) (fm : list featurized).

Lemma foldr_Rmin_le (x : R) (l : list R) :
  foldr Rmin x l <= x ∧ Forall (λ y, foldr Rmin x l <= y) l.
Proof.
  induction l as [|y l [IHx IHl]]; simpl; [split; [lra | constructor] |].
  pose proof (Rmin_l y (foldr Rmin x l)).
  pose proof (Rmin_r y (foldr Rmin x l)).
  split; [lra |]. constructor; [done |].
  eapply Forall_impl; [exact IHl |]. simpl. intros z Hz. lra.
Qed.

Lemma foldr_Rmax_ge (x : R) (l : list R) :
  x <= foldr Rmax x l ∧ Forall (λ y, y <= foldr Rmax x l) l.
Proof.
  induction l as [|y l [IHx IHl]]; simpl; [split; [lra | constructor] |].
  pose proof (Rmax_l y (foldr Rmax x l)).
  pose proof (Rmax_r y (foldr Rmax x l)).
  split; [lra |]. constructor; [done |].
  eapply Forall_impl; [exact IHl |]. simpl. intros z Hz. lra.
Qed.

Lemma min_rating_le ratings : Forall (λ r, min_rating ratings <= r) ratings.
Proof. apply foldr_Rmin_le. Qed.

Lemma max_rating_ge ratings : Forall (λ r, r <= max_rating ratings) ratings.
Proof. apply foldr_Rmax_ge. Qed.

Lemma dot_nonneg a b :
  shape1 a = shape1 b →
  (∀ j, 0 <= entry a j) → (∀ j, 0 <= entry b j) → 0 <= dot a b.
Proof.
  intros Hshape Ha Hb. rewrite dot_same_shape by done.
  apply sum_list_nonneg, Forall_forall.
  intros x (j & -> & _)%list_elem_of_fmap.
  apply Rmult_le_pos; [apply Ha | apply Hb].
Qed.

(** The cosine of two vectors without negative entries is not negative, or
    it is nan. *)
Lemma cosine_quotient_nonneg a b :
  shape1 a = shape1 b → (∀ j, 0 <= entry a j) → (∀ j, 0 <= entry b j) →
  norm2 a * norm2 b ≠ 0 → 0 <= dot a b / (norm2 a * norm2 b).
Proof.
  intros Hshape Ha Hb Hnz.
  pose proof (norm2_nonneg a). pose proof (norm2_nonneg b).
  apply Rdiv_nonneg; [by apply dot_nonneg |].
  assert (0 <= norm2 a * norm2 b) by (by apply Rmult_le_pos). lra.
Qed.

Lemma cosine_nonneg a b :
  shape1 a = shape1 b → (∀ j, 0 <= entry a j) → (∀ j, 0 <= entry b j) →
  nonneg_or_nan (cosine a b).
Proof.
  intros Hshape Ha Hb.
  destruct (Req_dec_T (norm2 a * norm2 b) 0) as [Hz | Hnz].
  - apply Rmult_integral in Hz. by rewrite cosine_zero.
  - unfold cosine. rewrite np_divide_Finite by done. simpl.
    by apply cosine_quotient_nonneg.
Qed.

Lemma cosine_sim_nonneg a b (s : float64) :
  csr_wf a → csr_wf b → shape1 a = shape1 b →
  (∀ j, 0 <= entry a j) → (∀ j, 0 <= entry b j) →
  cosine_sim a b = Ok s → nonneg_or_nan s.
Proof.
  intros Hwa Hwb Hshape Ha Hb. rewrite cosine_sim_divide by done.
  case_decide.
  - intros (q & [Hnz ->]%divide_inv & [= <-])%bind_Ok. simpl.
    by apply cosine_quotient_nonneg.
  - intros [= <-]. by apply cosine_nonneg.
Qed.

Lemma first_elem_of {A : Type} (l : list A) (x : A) : first l = Ok x → x ∈ l.
Proof.
  destruct l as [|y l]; simpl; [done |]. intros [= ->].
  apply elem_of_cons. by left.
Qed.

(** A weighted mean with weights that are not negative lies between the
    bounds of the values. *)
Lemma weighted_mean_bounds sims ratings lo hi :
  length ratings = length sims →
  Forall (λ s, 0 <= s) sims →
  Forall (λ r, lo <= r) ratings → Forall (λ r, r <= hi) ratings →
  weight_sum sims ≠ 0 →
  lo <= weighted_sum sims ratings / weight_sum sims <= hi.
Proof.
  intros Hlen Hsims Hlo Hhi HW. rewrite <- weighted_sum_comm.
  pose proof (sum_list_nonneg sims Hsims) as HW0.
  unfold weight_sum in *.
  pose proof (sum_list_scale_ge sims ratings lo Hlen Hsims Hlo).
  pose proof (sum_list_scale_le sims ratings hi Hlen Hsims Hhi).
  assert (0 < sum_list sims) as Hpos by lra.
  split; apply (Rmult_le_reg_r (sum_list sims)); try done;
    unfold Rdiv; rewrite Rmult_assoc, Rinv_l by done; lra.
Qed.

Lemma mean_rating_bounds ratings lo hi :
  ratings ≠ [] →
  Forall (λ r, lo <= r) ratings → Forall (λ r, r <= hi) ratings →
  lo <= mean_rating ratings <= hi.
Proof.
  intros Hne Hlo Hhi. unfold mean_rating.
  pose proof (sum_list_ge_length ratings lo Hlo).
  pose proof (sum_list_le_length ratings hi Hhi).
  assert (0 < INR (length ratings)) as Hpos.
  { destruct ratings; [done |]. apply lt_0_INR. simpl. lia. }
  split; apply (Rmult_le_reg_r (INR (length ratings))); try done;
    unfold Rdiv; rewrite Rmult_assoc, Rinv_l by lra; lra.
Qed.

(** Similarities that are not negative or nan: one of them is nan, or all
    are real numbers. *)
Lemma nonneg_or_nan_cases (sims : list float64) :
  Forall nonneg_or_nan sims →
  NaN ∈ sims ∨ ∃ xs, sims = map Finite xs ∧ Forall (λ x, 0 <= x) xs.
Proof.
  induction 1 as [|s sims Hs _ IH].
  - right. exists []. by split; [| constructor].
  - destruct s as [x | | |]; simpl in Hs; try done.
    + destruct IH as [Hnan | (xs & -> & Hxs)].
      * left. apply elem_of_cons. by right.
      * right. exists (x :: xs). by split; [| constructor].
    + left. apply elem_of_cons. by left.
Qed.

Lemma products_NaN (sims : list float64) ratings :
  length ratings = length sims → NaN ∈ sims →
  NaN ∈ zip_with fmul sims (map Finite ratings).
Proof.
  revert ratings. induction sims as [|s sims IH]; intros [|r ratings] Hlen Hin;
    simpl in *; try done.
  apply elem_of_cons in Hin as [<- | Hin]; apply elem_of_cons; [by left |].
  right. apply IH; [lia | done].
Qed.

Lemma products_Finite (xs ratings : list R) :
  zip_with fmul (map Finite xs) (map Finite ratings) =
  map Finite (zip_with Rmult xs ratings).
Proof.
  revert ratings. induction xs as [|x xs IH]; intros [|r ratings];
    simpl; try done.
  by rewrite IH.
Qed.

Lemma weighted_sum_zero (xs ratings : list R) :
  Forall (λ x, x = 0) xs → weighted_sum xs ratings = 0.
Proof.
  unfold weighted_sum. intros Hxs. revert ratings.
  induction Hxs as [|x xs -> _ IH]; intros [|r ratings]; simpl; try done.
  rewrite IH. lra.
Qed.

(** The prediction of a row, when the similarities are not negative: the
    mean of the ratings of the user, or their average with the similarities
    as weights, none of them negative and their sum positive. *)
Lemma predict_row_average fm (ratings_train : list rating_row)
    (row : rating_row) (pre : float64) :
  (∀ k i s, similarity fm k i = Ok s → nonneg_or_nan s) →
  predict_row fm ratings_train row = Ok pre →
  let ratings := map rating (ratings_of ratings_train (userId row)) in
  ratings ≠ [] ∧
  (pre = Finite (mean_rating ratings) ∨
   ∃ xs, similarities fm ratings_train row (map Finite xs) ∧
         Forall (λ x, 0 <= x) xs ∧ 0 < weight_sum xs ∧
         pre = Finite (weighted_sum xs ratings / weight_sum xs)).
Proof.
  intros Hnonneg Hpre ratings.
  assert (∃ arr, similarities fm ratings_train row arr) as [arr Hsims].
  { unfold predict_row in Hpre. apply bind_Ok in Hpre as (arr & Harr & _).
    exists arr. by apply for_each_Ok. }
  assert (Forall nonneg_or_nan arr) as Hpos.
  { unfold similarities in Hsims. clear Hpre.
    induction Hsims as [|r s rs ss Hs _ IH]; constructor; [| done].
    by eapply Hnonneg. }
  assert (length ratings = length arr) as Hlen.
  { subst ratings. rewrite length_map. by eapply Forall2_length. }
  rewrite (predict_row_sums _ _ _ arr Hsims) in Hpre. fold ratings in Hpre.
  cbv zeta in Hpre.
  assert ((pre' ← divide (sum_list ratings) (INR (length ratings));
           Ok (Finite pre')) = Ok pre →
          ratings ≠ [] ∧ pre = Finite (mean_rating ratings))
    as Hmean.
  { intros (q & [Hn ->]%divide_inv & [= <-])%bind_Ok.
    split; [| done]. intros Hnil. by rewrite Hnil in Hn. }
  destruct (nonneg_or_nan_cases arr Hpos) as [Hnan | (xs & -> & Hxs)].
  - rewrite (sum_floats_NaN _ (products_NaN arr ratings Hlen Hnan)) in Hpre.
    destruct (Hmean Hpre) as [Hne ->]. split; [done | by left].
  - rewrite products_Finite, !sum_floats_Finite in Hpre.
    fold (weighted_sum xs ratings) in Hpre.
    destruct (is_positive (Finite (weighted_sum xs ratings))) eqn:HS.
    2:{ destruct (Hmean Hpre) as [Hne ->]. split; [done | by left]. }
    apply is_positive_Finite in HS. injection Hpre as <-.
    assert (ratings ≠ []) as Hne.
    { intros Hnil. rewrite Hnil in HS. unfold weighted_sum in HS.
      destruct xs; simpl in HS; lra. }
    assert (weight_sum xs ≠ 0) as HW.
    { intros HW. unfold weight_sum in HW.
      rewrite (weighted_sum_zero xs ratings) in HS; [lra |].
      by apply sum_list_nonneg_zero. }
    pose proof (sum_list_nonneg xs Hxs) as HW0. fold (weight_sum xs) in HW0.
    split; [done |]. right. exists xs.
    split; [done |]. split; [done |]. split; [lra |].
    by apply np_divide_Finite.
Qed.

(** In real numbers such a prediction lies between the least and the
    largest rating of the user. *)
Lemma predict_row_bounds fm (ratings_train : list rating_row)
    (row : rating_row) (pre : float64) :
  (∀ k i s, similarity fm k i = Ok s → nonneg_or_nan s) →
  predict_row fm ratings_train row = Ok pre →
  let ratings := map rating (ratings_of ratings_train (userId row)) in
  ratings ≠ [] ∧
  ∃ x, pre = Finite x ∧ min_rating ratings <= x <= max_rating ratings.
Proof.
  intros Hnonneg Hpre ratings.
  destruct (predict_row_average fm ratings_train row pre Hnonneg Hpre)
    as (Hne & [-> | (xs & Hsims & Hxs & HW & ->)]); fold ratings in Hne |- *.
  - split; [done |]. eexists. split; [done |].
    apply mean_rating_bounds; [done | apply min_rating_le | apply max_rating_ge].
  - split; [done |]. eexists. split; [done |].
    apply weighted_mean_bounds;
      [| done | apply min_rating_le | apply max_rating_ge | lra].
    subst ratings. apply Forall2_length in Hsims.
    by rewrite !length_map in *.
Qed.

(** The vectors [featurize] returns. *)
Lemma featurize_vectors movies fm vocab (fd : featurized) :
  featurize movies = Ok (fm, vocab) → fd ∈ fm →
  featurizable movies ∧
  ∃ m, m ∈ movies ∧ feature_vector movies m (features fd).
Proof.
  intros Hfm Hfd. destruct (featurize_inv _ _ _ Hfm) as [Hok _].
  split; [done |].
  apply featurize_spec in Hfm as [_ Hvectors].
  apply list_elem_of_lookup in Hfd as [i Hi].
  destruct (Forall2_lookup_r _ _ _ _ _ Hvectors Hi) as (m & Hm & _ & Hv).
  exists m. split; [by eapply list_elem_of_lookup_2 | done].
Qed.

Lemma featurize_cosine_nonneg movies fm vocab (fa fb : featurized)
    (s : float64) :
  featurize movies = Ok (fm, vocab) → fa ∈ fm → fb ∈ fm →
  cosine_sim (features fa) (features fb) = Ok s → nonneg_or_nan s.
Proof.
  intros Hfm Ha Hb.
  destruct (featurize_vectors _ _ _ fa Hfm Ha) as (Hok & ma & Hma & Hva).
  destruct (featurize_vectors _ _ _ fb Hfm Hb) as (_ & mb & Hmb & Hvb).
  apply cosine_sim_nonneg.
  - by eapply feature_vector_wf.
  - by eapply feature_vector_wf.
  - destruct Hva as [-> _], Hvb as [-> _]. done.
  - intros j. by apply (feature_vector_nonneg movies ma).
  - intros j. by apply (feature_vector_nonneg movies mb).
Qed.

Lemma featurize_similarity_nonneg movies fm vocab (k i : Z) (s : float64) :
  featurize movies = Ok (fm, vocab) → similarity fm k i = Ok s →
  nonneg_or_nan s.
Proof.
  intros Hfm. unfold similarity.
  intros (a & Ha%first_elem_of & (b & Hb%first_elem_of & Hs)%bind_Ok)%bind_Ok.
  apply list_elem_of_fmap in Ha as (fa & -> & [_ Hfa]%list_elem_of_filter).
  apply list_elem_of_fmap in Hb as (fb & -> & [_ Hfb]%list_elem_of_filter).
  exact (featurize_cosine_nonneg movies fm vocab fa fb s Hfm Hfa Hfb Hs).
Qed.
(** A similarity that [cosine_sim] returns is the cosine of the two
    vectors. *)
Lemma cosine_sim_inv a b (s : float64) :
  csr_wf a → csr_wf b → shape1 a = shape1 b →
  cosine_sim a b = Ok s → s = cosine a b.
Proof.
  intros Hwa Hwb Hshape. rewrite cosine_sim_divide by done.
  case_decide as Hnone.
  - intros (q & [Hnz _]%divide_inv & _)%bind_Ok.
    exfalso. apply Hnz. rewrite (norm2_no_column a Hnone). lra.
  - by intros [= <-].
Qed.

Lemma featurize_similarity_cosine movies fm vocab (k i : Z) (s : float64) :
  featurize movies = Ok (fm, vocab) → similarity fm k i = Ok s →
  ∃ a b, vector_of fm k a ∧ vector_of fm i b ∧ s = cosine a b.
Proof.
  intros Hfm. unfold similarity.
  intros (a & Ha & (b & Hb & Hs)%bind_Ok)%bind_Ok.
  apply vector_of_first in Ha, Hb.
  exists a, b. split; [done |]. split; [done |].
  destruct (vector_of_elem _ _ _ Ha) as (fa & Hfa & <-).
  destruct (vector_of_elem _ _ _ Hb) as (fb & Hfb & <-).
  destruct (featurize_vectors _ _ _ fa Hfm Hfa) as (_ & ma & _ & Hva).
  destruct (featurize_vectors _ _ _ fb Hfm Hfb) as (_ & mb & _ & Hvb).
  apply cosine_sim_inv; [by eapply feature_vector_wf .. | | done].
  destruct Hva as [-> _], Hvb as [-> _]. done.
Qed.
End bounds.

(** C10, as the specification states it, fails twice.  For the catalogue of
    the single movie ["Horror"], [featurize] builds a vector of norm zero,
    and the similarity of this vector with itself is nan and not a
    non-negative number.  And in the arithmetic of the code a prediction
    leaves the range of the ratings by a rounding error: for the movie with
    the vector (0, 1) and a user who rated the movies with the vectors
    (0, 1) and (1, 2) both 3.5, the prediction is 3.5000000000000004. *)
Lemma prediction_exceeds_ratings :
  (∃ fm vocab fd,
     featurize (tokenize single_movie) = Ok (fm, vocab) ∧ fd ∈ fm ∧
     cosine_sim (features fd) (features fd) = Ok NaN) ∧
  let target := [0; 1]%float in
  let arr := [b64_cosine_sim [0; 1]%float target;
              b64_cosine_sim [1; 2]%float target] in
  b64_predict [3.5; 3.5]%float arr = 0x1.c000000000001p+1%float ∧
  PrimFloat.ltb 3.5%float (b64_predict [3.5; 3.5]%float arr) = true.
Proof.
  split; [| split; vm_compute; reflexivity].
  destruct (featurize_Ok (tokenize single_movie)) as (fm & Hfm & Hvectors).
  { apply tokenize_featurizable. intros r ->%list_elem_of_singleton.
    by vm_compute. }
  apply Forall2_cons_inv_l in Hvectors as (fd & fm' & [Htok Hv] & _ & ->).
  exists (fd :: fm'), (vocabulary (tokenize single_movie)), fd.
  split; [exact Hfm |]. split; [apply list_elem_of_here |].
  assert ("horror"%string ∈ tokens (tok_of fd)) as Ht.
  { rewrite Htok. apply list_elem_of_singleton. reflexivity. }
  assert (vocabulary (tokenize single_movie) !! "horror"%string = Some 0%nat)
    as Hj by (vm_compute; reflexivity).
  rewrite <- Htok in Hv.
  assert (shape1 (features fd) = 1%nat) as Hshape.
  { destruct Hv as [Hs _]. rewrite Hs. vm_compute. reflexivity. }
  assert (entry (features fd) 0 = 0) as Hentry.
  { rewrite (feature_vector_entry _ _ _ "horror" 0 Hv Ht Hj).
    apply tfidf_zero; [exact Ht | |]; vm_compute; lia. }
  assert (norm2 (features fd) = 0) as Hnorm.
  { unfold norm2, dense. rewrite Hshape. simpl. rewrite Hentry.
    replace (0 * 0 + 0) with 0 by lra. apply sqrt_0. }
  pose proof (feature_vector_wf _ _ _ Hv) as Hwf.
  rewrite cosine_sim_cosine; [| exact Hwf | exact Hwf | reflexivity | lia].
  f_equal. apply cosine_zero; [reflexivity | left; exact Hnorm].
Qed.

(** C10, amended. Every weight [featurize] stores is non-negative, so the
    cosine similarity of two of its feature vectors is non-negative or, when
    a vector has the norm zero, nan.  Consequently every prediction that
    [make_predictions] returns from these vectors, for a row whose user has
    at least one training rating then, is the mean of the training ratings
    of the user or their average [S / W] with the cosines as weights, none
    of them negative and their sum [W] positive: a convex combination of
    the ratings, computed in floating point. *)
Theorem prediction_weighted_average (movies : list tokenized)
    (fm : list featurized) (vocab : gmap string nat) :
  featurize movies = Ok (fm, vocab) →
  (∀ fd j x, fd ∈ fm → stored (features fd) !! j = Some x → 0 <= x) ∧
  (∀ fa fb s, fa ∈ fm → fb ∈ fm →
     cosine_sim (features fa) (features fb) = Ok s → nonneg_or_nan s) ∧
  (∀ ratings_train ratings_test predicted,
     make_predictions fm ratings_train ratings_test = Ok predicted →
     Forall2 (λ row pre,
         ∃ history,
           rows_of_user (userId row) ratings_train history ∧ history ≠ [] ∧
           let ratings := map rating history in
           (pre = Finite (mean_rating ratings) ∨
            ∃ xs, cosines fm history (r_movieId row) (map Finite xs) ∧
                  Forall (λ x, 0 <= x) xs ∧ 0 < weight_sum xs ∧
                  pre = Finite (weighted_sum xs ratings / weight_sum xs)))
       ratings_test predicted).
Proof.
  intros Hfm. split; [| split].
  - intros fd j x Hfd Hx.
    destruct (featurize_vectors _ _ _ fd Hfm Hfd) as (Hok & m & Hm & Hv).
    pose proof (feature_vector_nonneg movies m (features fd) j Hok Hm Hv) as H.
    unfold entry in H. by rewrite Hx in H.
  - intros fa fb s. exact (featurize_cosine_nonneg movies fm vocab fa fb s Hfm).
  - intros ratings_train ratings_test predicted Hpred.
    apply for_each_Ok in Hpred.
    eapply Forall2_impl; [exact Hpred |]. intros row pre Hrow.
    destruct (predict_row_average fm ratings_train row pre) as (Hne & Hpre);
      [| done |].
    { intros k i s. exact (featurize_similarity_nonneg movies fm vocab k i s Hfm). }
    exists (ratings_of ratings_train (userId row)).
    split; [apply rows_of_user_ratings_of |].
    split; [intros Hnil; by rewrite Hnil in Hne |].
    destruct Hpre as [-> | (xs & Hsims & Hxs & HW & ->)]; [by left | right].
    exists xs. split; [| done].
    eapply Forall2_impl; [exact Hsims |]. intros r s Hs.
    exact (featurize_similarity_cosine movies fm vocab _ _ s Hfm Hs).
Qed.

(** ** A scenario from the movies to the prediction *)

Section scenario.
Implicit Types (v : csr) (m : tokenized).

Lemma sum_list_ge_elem (l : list R) (x : R) :
  Forall (λ y, 0 <= y) l → x ∈ l → x <= sum_list l.
Proof.
  induction 1 as [|y l Hy Hl IH]; [by intros ?%elem_of_nil |].
  pose proof (sum_list_nonneg l Hl).
  intros [-> | Hx]%elem_of_cons; simpl; [lra |].
  specialize (IH Hx). lra.
Qed.

(** A vector with a non-zero component has a positive norm. *)
Lemma norm2_pos v (j : nat) :
  (j < shape1 v)%nat → entry v j ≠ 0 → 0 < norm2 v.
Proof.
  intros Hj Hnz. unfold norm2. apply sqrt_lt_R0.
  apply Rlt_le_trans with (entry v j * entry v j); [nra |].
  apply sum_list_ge_elem.
  - apply Forall_forall. intros y (x & -> & _)%list_elem_of_fmap. nra.
  - apply list_elem_of_fmap. exists (entry v j). split; [done |].
    unfold dense. apply list_elem_of_fmap. exists j. split; [done |].
    apply elem_of_seq. lia.
Qed.

Lemma scenario_featurizable : featurizable (tokenize scenario_movies).
Proof.
  apply tokenize_featurizable. unfold scenario_movies. intros r Hr.
  repeat (apply elem_of_cons in Hr as [-> | Hr]; [by vm_compute |]).
  by apply elem_of_nil in Hr.
Qed.
End scenario.

Section scenario_vectors.

Lemma scenario_vocabulary :
  vocabulary scenario_catalogue !! "horror"%string = Some 0%nat ∧
  vocabulary scenario_catalogue !! "romance"%string = Some 1%nat ∧
  vocabulary scenario_catalogue !! "sci-fi"%string = Some 2%nat ∧
  size (vocabulary scenario_catalogue) = 3%nat.
Proof. repeat split; vm_compute; reflexivity. Qed.

Lemma scenario_weight_pos m t :
  m ∈ scenario_catalogue → t ∈ tokens m →
  0 < tfidf scenario_catalogue (tokens m) t.
Proof.
  intros Hm Ht.
  assert (1 <= document_frequency scenario_catalogue t)%nat as Hdf
    by (by apply (tokenize_document_frequency scenario_movies m)).
  pose proof (tfidf_nonneg scenario_catalogue (tokens m) t Ht Hdf) as Hge.
  assert (tfidf scenario_catalogue (tokens m) t ≠ 0); [| lra].
  rewrite tfidf_zero by done.
  unfold scenario_catalogue, tokenize, scenario_movies in Hm. simpl in Hm.
  repeat (apply elem_of_cons in Hm as [-> | Hm]; [
    simpl in Ht; repeat (apply elem_of_cons in Ht as [-> | Ht]; [by vm_compute |]);
    by apply elem_of_nil in Ht |]).
  by apply elem_of_nil in Hm.
Qed.

Lemma scenario_vocabulary_size : size (vocabulary scenario_catalogue) = 3%nat.
Proof. vm_compute. reflexivity. Qed.

(** The three feature vectors: which components are zero, which positive. *)
Lemma scenario_vector m v :
  m ∈ scenario_catalogue →
  feature_vector scenario_catalogue m v →
  shape1 v = 3%nat ∧ csr_wf v ∧
  ∀ t j, vocabulary scenario_catalogue !! t = Some j →
    (t ∈ tokens m → 0 < entry v j) ∧ (t ∉ tokens m → entry v j = 0).
Proof.
  generalize scenario_vocabulary_size scenario_weight_pos.
  generalize scenario_catalogue. intros movies Hsize Hpos Hm Hv.
  split; [destruct Hv as [-> _]; exact Hsize |].
  split; [exact (feature_vector_wf movies m v Hv) |].
  intros t j Hj. split.
  - intros Ht. rewrite (feature_vector_entry _ _ _ t j Hv Ht Hj).
    exact (Hpos m t Hm Ht).
  - intros Ht. apply (feature_vector_absent _ _ _ _ Hv).
    intros (t' & Ht' & Hj').
    by rewrite (vocabulary_inj _ _ _ _ Hj Hj') in Ht.
Qed.

End scenario_vectors.

(** Three movies with the feature vectors of the scenario, whatever their
    weights are. *)
Section three_movies.
Variables f1 f2 f3 : featurized.
Hypothesis Hid1 : movieId (row_of (tok_of f1)) = 1%Z.
Hypothesis Hid2 : movieId (row_of (tok_of f2)) = 2%Z.
Hypothesis Hid3 : movieId (row_of (tok_of f3)) = 3%Z.
Let v1 := features f1.
Let v2 := features f2.
Let v3 := features f3.
Hypothesis Hshape : shape1 v1 = 3%nat ∧ shape1 v2 = 3%nat ∧ shape1 v3 = 3%nat.
Hypothesis Hwf : csr_wf v1 ∧ csr_wf v2 ∧ csr_wf v3.
Hypothesis H1 : 0 < entry v1 0 ∧ 0 < entry v1 1 ∧ entry v1 2 = 0.
Hypothesis H2 : entry v2 0 = 0 ∧ entry v2 1 = 0 ∧ 0 < entry v2 2.
Hypothesis H3 : 0 < entry v3 0 ∧ entry v3 1 = 0 ∧ entry v3 2 = 0.

Lemma three_movies_with :
  movies_with [f1; f2; f3] 1 = [f1] ∧
  movies_with [f1; f2; f3] 2 = [f2] ∧
  movies_with [f1; f2; f3] 3 = [f3].
Proof.
  unfold movies_with. rewrite !filter_cons, !filter_nil, Hid1, Hid2, Hid3.
  repeat split.
Qed.

Lemma three_dot (a b : csr) :
  shape1 a = 3%nat → shape1 b = 3%nat →
  dot a b = entry a 0 * entry b 0 + (entry a 1 * entry b 1 +
            (entry a 2 * entry b 2 + 0)).
Proof.
  intros Ha Hb. rewrite dot_same_shape by congruence. by rewrite Ha.
Qed.

Lemma three_similarity_13 :
  ∃ c, 0 < c ∧ similarity [f1; f2; f3] 1 3 = Ok (Finite c).
Proof.
  destruct Hshape as (S1 & S2 & S3), Hwf as (W1 & W2 & W3).
  destruct H1 as (A0 & A1 & A2), H3 as (C0 & C1 & C2).
  destruct three_movies_with as (M1 & M2 & M3).
  unfold similarity. rewrite M1, M3. simpl. fold v1 v3.
  assert (0 < norm2 v1) as N1 by (apply (norm2_pos v1 0); [lia | lra]).
  assert (0 < norm2 v3) as N3 by (apply (norm2_pos v3 0); [lia | lra]).
  rewrite cosine_sim_cosine by (assumption || congruence || lia).
  assert (0 < norm2 v1 * norm2 v3) as Hden by (by apply Rmult_lt_0_compat).
  unfold cosine. rewrite np_divide_Finite by lra.
  eexists. split; [| reflexivity].
  apply Rdiv_lt_0_compat; [| done].
  rewrite three_dot by done. rewrite A2, C1, C2. nra.
Qed.

Lemma three_similarity_23 : similarity [f1; f2; f3] 2 3 = Ok (Finite 0).
Proof.
  destruct Hshape as (S1 & S2 & S3), Hwf as (W1 & W2 & W3).
  destruct H2 as (B0 & B1 & B2), H3 as (C0 & C1 & C2).
  destruct three_movies_with as (M1 & M2 & M3).
  unfold similarity. rewrite M2, M3. simpl. fold v2 v3.
  assert (0 < norm2 v2) as N2 by (apply (norm2_pos v2 2); [lia | lra]).
  assert (0 < norm2 v3) as N3 by (apply (norm2_pos v3 0); [lia | lra]).
  rewrite cosine_sim_cosine by (assumption || congruence || lia).
  assert (0 < norm2 v2 * norm2 v3) as Hden by (by apply Rmult_lt_0_compat).
  unfold cosine. rewrite np_divide_Finite by lra. do 2 f_equal.
  rewrite three_dot by done. rewrite B0, B1, C2. unfold Rdiv. lra.
Qed.

Lemma three_prediction :
  make_predictions [f1; f2; f3] scenario_train scenario_test = Ok [Finite 4].
Proof.
  destruct three_similarity_13 as (c & Hc & H13).
  pose proof three_similarity_23 as H23.
  unfold make_predictions, scenario_test. cbn [for_each].
  rewrite (predict_row_forecast _ _ _ [Finite c; Finite 0]).
  - cbn [mbind result_bind]. do 2 f_equal.
    change (map rating (ratings_of scenario_train
              (userId {| userId := 9; r_movieId := 3; rating := 5 |})))
      with [4; 2].
    change (sum_floats (zip_with fmul [Finite c; Finite 0] (map Finite [4; 2])))
      with (Finite (c * 4 + (0 * 2 + 0))).
    change (sum_floats [Finite c; Finite 0]) with (Finite (c + (0 + 0))).
    assert (is_positive (Finite (c * 4 + (0 * 2 + 0))) = true) as ->
      by (apply is_positive_Finite; lra).
    rewrite np_divide_Finite by lra. f_equal. field. lra.
  - discriminate.
  - repeat constructor; [exact H13 | exact H23].
Qed.
End three_movies.

Lemma scenario_vectors (fm : list featurized) :
  Forall2 (λ m fd, tok_of fd = m ∧
                   feature_vector scenario_catalogue m (features fd))
          scenario_catalogue fm →
  make_predictions fm scenario_train scenario_test = Ok [Finite 4].
Proof.
  intros Hv.
  assert (length fm = 3%nat) as Hlen
    by (rewrite <- (Forall2_length _ _ _ Hv); reflexivity).
  destruct fm as [|f1 [|f2 [|f3 [|f4 fm]]]]; try discriminate Hlen. clear Hlen.
  destruct scenario_vocabulary as (Vh & Vr & Vs & _).
  set (m1 := {| row_of := {| movieId := 1; genres := "Horror|Romance" |};
                tokens := ["horror"; "romance"]%string |}).
  set (m2 := {| row_of := {| movieId := 2; genres := "Sci-Fi" |};
                tokens := ["sci-fi"]%string |}).
  set (m3 := {| row_of := {| movieId := 3; genres := "Horror" |};
                tokens := ["horror"]%string |}).
  destruct (Forall2_lookup_lr _ _ _ 0%nat m1 f1 Hv eq_refl eq_refl) as [T1 F1].
  destruct (Forall2_lookup_lr _ _ _ 1%nat m2 f2 Hv eq_refl eq_refl) as [T2 F2].
  destruct (Forall2_lookup_lr _ _ _ 2%nat m3 f3 Hv eq_refl eq_refl) as [T3 F3].
  clear Hv.
  apply (scenario_vector m1) in F1 as (S1 & W1 & E1);
    [| by apply (list_elem_of_lookup_2 _ 0%nat)].
  apply (scenario_vector m2) in F2 as (S2 & W2 & E2);
    [| by apply (list_elem_of_lookup_2 _ 1%nat)].
  apply (scenario_vector m3) in F3 as (S3 & W3 & E3);
    [| by apply (list_elem_of_lookup_2 _ 2%nat)].
  apply three_prediction.
  - rewrite T1. reflexivity.
  - rewrite T2. reflexivity.
  - rewrite T3. reflexivity.
  - exact (conj S1 (conj S2 S3)).
  - exact (conj W1 (conj W2 W3)).
  - split; [| split].
    + apply (E1 _ _ Vh). subst m1. simpl. list_member.
    + apply (E1 _ _ Vr). subst m1. simpl. list_member.
    + apply (E1 _ _ Vs). subst m1. simpl. list_member.
  - split; [| split].
    + apply (E2 _ _ Vh). subst m2. simpl. list_member.
    + apply (E2 _ _ Vr). subst m2. simpl. list_member.
    + apply (E2 _ _ Vs). subst m2. simpl. list_member.
  - split; [| split].
    + apply (E3 _ _ Vh). subst m3. simpl. list_member.
    + apply (E3 _ _ Vr). subst m3. simpl. list_member.
    + apply (E3 _ _ Vs). subst m3. simpl. list_member.
Qed.

(** The scenario: the prediction for the third movie is the rating of the
    first, the only one that shares a genre with it. *)
Lemma scenario_prediction :
  ∃ fm vocab,
    featurize scenario_catalogue = Ok (fm, vocab) ∧
    make_predictions fm scenario_train scenario_test = Ok [Finite 4].
Proof.
  destruct (featurize_Ok scenario_catalogue scenario_featurizable)
    as (fm & Hfm & Hv).
  exists fm, (vocabulary scenario_catalogue). split; [exact Hfm |].
  exact (scenario_vectors fm Hv).
Qed.

Lemma prediction_weighted_average_witness :
  ∃ fm vocab,
    featurize scenario_catalogue = Ok (fm, vocab) ∧
    make_predictions fm scenario_train scenario_test = Ok [Finite 4] ∧
    Forall2 (λ row pre,
        ∃ history,
          rows_of_user (userId row) scenario_train history ∧ history ≠ [] ∧
          let ratings := map rating history in
          (pre = Finite (mean_rating ratings) ∨
           ∃ xs, cosines fm history (r_movieId row) (map Finite xs) ∧
                 Forall (λ x, 0 <= x) xs ∧ 0 < weight_sum xs ∧
                 pre = Finite (weighted_sum xs ratings / weight_sum xs)))
      scenario_test [Finite 4].
Proof.
  destruct scenario_prediction as (fm & vocab & Hfm & Hpred).
  exists fm, vocab. split; [exact Hfm |]. split; [exact Hpred |].
  exact (proj2 (proj2 (prediction_weighted_average scenario_catalogue fm vocab Hfm))
           scenario_train scenario_test [Finite 4] Hpred).
Defined.

(** * Further properties *)

(** ** More on the tokenizer *)

Section tokens.
Implicit Types (s t cur : string) (c : ascii).

Lemma lower_append s t : lower (s +:+ t) = lower s +:+ lower t.
Proof.
  induction s as [|c s IH]; [done |].
  rewrite append_cons. simpl. by rewrite IH, append_cons.
Qed.

Lemma is_upper_bounds c :
  is_upper c = true ↔ (65 <= code c <= 90)%nat.
Proof.
  unfold is_upper. rewrite andb_true_iff, !Nat.leb_le. done.
Qed.

Lemma lower_char_not_upper c : is_upper (lower_char c) = false.
Proof.
  unfold lower_char. destruct (is_upper c) eqn:Hu; [| done].
  apply is_upper_bounds in Hu.
  apply not_true_iff_false. rewrite is_upper_bounds. unfold code in *.
  rewrite nat_ascii_embedding by lia. lia.
Qed.

Lemma lower_char_fixed c : is_upper c = false → lower_char c = c.
Proof. unfold lower_char. by intros ->. Qed.

Lemma lower_no_upper s : all_chars (λ c, negb (is_upper c)) (lower s) = true.
Proof.
  induction s as [|c s IH]; simpl; [done |].
  by rewrite lower_char_not_upper, IH.
Qed.

Lemma lower_fixed s :
  all_chars (λ c, negb (is_upper c)) s = true → lower s = s.
Proof.
  induction s as [|c s IH]; simpl; [done |].
  intros [Hc Hs]%andb_true_iff. apply negb_true_iff in Hc.
  by rewrite lower_char_fixed, IH.
Qed.

Lemma lower_idemp s : lower (lower s) = lower s.
Proof. apply lower_fixed, lower_no_upper. Qed.

(** What the maximal runs of a string look like. *)
Lemma maximal_runs_token s runs t :
  maximal_runs is_token_char s runs → t ∈ runs →
  t ≠ EmptyString ∧ all_chars is_token_char t = true ∧ substring_of t s.
Proof.
  intros Hruns Ht. split; [| split].
  - induction Hruns as [|gap run rest runs _ Hne _ _ _ IH];
      [by apply elem_of_nil in Ht |].
    apply elem_of_cons in Ht as [-> | Ht]; [done | by apply IH].
  - induction Hruns as [|gap run rest runs _ _ Hrun _ _ IH];
      [by apply elem_of_nil in Ht |].
    apply elem_of_cons in Ht as [-> | Ht]; [done | by apply IH].
  - by apply (maximal_runs_substring s runs).
Qed.

Lemma findall_token t :
  t ≠ EmptyString → all_chars is_token_char t = true → findall t = [t].
Proof.
  intros Hne Ht. unfold findall.
  rewrite <- (append_nil_r t) at 1. rewrite findall_from_run by done.
  simpl. by apply flush_nonempty.
Qed.

(** The scan of two strings joined by a separator. *)
Lemma findall_from_separator cur s c t :
  is_separator is_token_char c = true →
  findall_from cur (s +:+ String c t) =
    findall_from cur s ++ findall_from EmptyString t.
Proof.
  intros Hc. revert cur. induction s as [|d s IH]; intros cur.
  - rewrite append_nil_l. simpl. unfold is_separator in Hc.
    by destruct (is_token_char c).
  - rewrite append_cons. simpl. destruct (is_token_char d).
    + apply IH.
    + by rewrite IH, app_assoc.
Qed.

Lemma lower_char_separator c :
  is_separator is_token_char (lower_char c) = is_separator is_token_char c.
Proof. unfold is_separator. by rewrite lower_char_token. Qed.

Lemma tokenize_string_separator s c t :
  is_separator is_token_char c = true →
  tokenize_string (s +:+ String c t) = tokenize_string s ++ tokenize_string t.
Proof.
  intros Hc. unfold tokenize_string, findall. rewrite lower_append. simpl.
  apply findall_from_separator. by rewrite lower_char_separator.
Qed.

Lemma tokenize_string_token s t :
  t ∈ tokenize_string s →
  t ≠ EmptyString ∧ all_chars is_token_char t = true ∧
  all_chars (λ c, negb (is_upper c)) t = true ∧
  substring_of t (lower s).
Proof.
  intros Ht.
  destruct (maximal_runs_token (lower s) (tokenize_string s) t)
    as (Hne & Htok & Hsub); [apply findall_maximal_runs | done |].
  repeat split; try done.
  destruct Hsub as (pre & post & Hs).
  pose proof (lower_no_upper s) as Hlow. rewrite Hs in Hlow.
  rewrite !all_chars_append in Hlow.
  by apply andb_true_iff in Hlow as [_ [Hlow _]%andb_true_iff].
Qed.

Lemma tokenize_string_fixed s t :
  t ∈ tokenize_string s → tokenize_string t = [t].
Proof.
  intros (Hne & Htok & Hlow & _)%tokenize_string_token.
  unfold tokenize_string. rewrite lower_fixed by done.
  by apply findall_token.
Qed.

Lemma tokenize_string_join (l : list string) (c : ascii) :
  is_separator is_token_char c = true →
  Forall (λ t, tokenize_string t = [t]) l →
  tokenize_string (join (String c EmptyString) l) = l.
Proof.
  intros Hc. induction 1 as [|t l Ht Hl IH]; [done |].
  destruct l as [|t' l]; [done |].
  change (join (String c EmptyString) (t :: t' :: l))
    with (t +:+ String c EmptyString +:+ join (String c EmptyString) (t' :: l)).
  rewrite append_cons, append_nil_l.
  rewrite tokenize_string_separator by done. by rewrite Ht, IH.
Qed.
End tokens.

(** X1. On ASCII text, every token is a non-empty run of word characters and
    hyphens without a capital letter, and a substring of the lowercased
    text. *)
Theorem tokenize_string_tokens (s t : string) :
  ascii_text s →
  t ∈ tokenize_string s →
  t ≠ EmptyString ∧
  all_chars token_character t = true ∧
  all_chars (λ c, negb (occurs c capital_letters)) t = true ∧
  substring_of t (lowercased s).
Proof.
  intros _ (Hne & Htok & Hlow & Hsub)%tokenize_string_token.
  split; [done |]. split; [| split].
  - rewrite <- Htok. apply all_chars_class. intros c.
    by rewrite is_token_char_class.
  - rewrite <- Hlow. apply all_chars_class. intros c.
    by rewrite is_upper_capital.
  - by rewrite <- lower_lowercased.
Qed.

Lemma tokenize_string_tokens_witness :
  ascii_text "Sci-Fi|3D" ∧
  "sci-fi"%string ∈ tokenize_string "Sci-Fi|3D" ∧
  "sci-fi"%string ≠ EmptyString ∧
  all_chars token_character "sci-fi" = true ∧
  all_chars (λ c, negb (occurs c capital_letters)) "sci-fi" = true ∧
  substring_of "sci-fi" (lowercased "Sci-Fi|3D").
Proof.
  assert ("sci-fi"%string ∈ tokenize_string "Sci-Fi|3D") as Ht
    by (change ("sci-fi"%string ∈ ["sci-fi"; "3d"]%string); list_member).
  split; [reflexivity |]. split; [exact Ht |].
  exact (tokenize_string_tokens "Sci-Fi|3D" "sci-fi" eq_refl Ht).
Defined.

(** X2. On ASCII text, tokenization does not see the case of the letters,
    and it is idempotent: joining the tokens of a string with a separator
    and tokenizing again gives the same tokens. *)
Theorem tokenize_string_idempotent (s : string) (c : ascii) :
  ascii_text s →
  is_ascii c = true →
  is_separator token_character c = true →
  tokenize_string (lowercased s) = tokenize_string s ∧
  tokenize_string (join (String c EmptyString) (tokenize_string s))
    = tokenize_string s.
Proof.
  intros _ _ Hc. rewrite is_separator_class in Hc. split.
  - unfold tokenize_string. by rewrite <- lower_lowercased, lower_idemp.
  - apply tokenize_string_join; [done |].
    apply Forall_forall. intros t Ht. by eapply tokenize_string_fixed.
Qed.

Lemma tokenize_string_idempotent_witness :
  ascii_text "Horror|Film_Noir|3D" ∧
  is_ascii "|" = true ∧
  is_separator token_character "|" = true ∧
  tokenize_string (lowercased "Horror|Film_Noir|3D")
    = tokenize_string "Horror|Film_Noir|3D" ∧
  tokenize_string (join "|" (tokenize_string "Horror|Film_Noir|3D"))
    = tokenize_string "Horror|Film_Noir|3D".
Proof.
  split; [reflexivity |]. split; [reflexivity |]. split; [reflexivity |].
  exact (tokenize_string_idempotent "Horror|Film_Noir|3D" "|"
           eq_refl eq_refl eq_refl).
Defined.

(** X3. On ASCII text, a separator between two texts separates their tokens:
    the tokens of the whole are the tokens of the first text followed by
    those of the second. *)
Theorem tokenize_string_app (s t : string) (c : ascii) :
  ascii_text s →
  ascii_text t →
  is_ascii c = true →
  is_separator token_character c = true →
  tokenize_string (s +:+ String c t) = tokenize_string s ++ tokenize_string t.
Proof.
  intros _ _ _ Hc. rewrite is_separator_class in Hc.
  by apply tokenize_string_separator.
Qed.

Lemma tokenize_string_app_witness :
  ascii_text "Horror" ∧
  ascii_text "Sci-Fi" ∧
  is_ascii "|" = true ∧
  is_separator token_character "|" = true ∧
  tokenize_string ("Horror" +:+ String "|" "Sci-Fi")
    = tokenize_string "Horror" ++ tokenize_string "Sci-Fi".
Proof.
  split; [reflexivity |]. split; [reflexivity |]. split; [reflexivity |].
  split; [reflexivity |].
  exact (tokenize_string_app "Horror" "Sci-Fi" "|"
           eq_refl eq_refl eq_refl eq_refl).
Defined.

(** ** More on the feature builder *)

Section featurize_more.
Implicit Types (raw : list movie) (movies : list tokenized) (m : tokenized).
Implicit Types (row : list string) (t : string) (v : csr).

Lemma for_each_raise {A B : Type} (f : A → result B) (l1 l2 : list A)
    (x : A) (ys : list B) (e : pyerr) :
  for_each f l1 = Ok ys → f x = Raise e →
  for_each f (l1 ++ x :: l2) = Raise e.
Proof.
  revert ys. induction l1 as [|y l1 IH]; intros ys; simpl.
  - intros _ ->. done.
  - destruct (f y) as [z|]; simpl; [| done].
    destruct (for_each f l1) as [zs|] eqn:Hl1; simpl; [| done].
    intros _ Hx. by rewrite (IH zs eq_refl Hx).
Qed.

(** The first movie without a token, if there is one. *)
Lemma first_without_tokens raw :
  Exists (λ r, tokenize_string (genres r) = []) raw →
  ∃ l1 r l2, raw = l1 ++ r :: l2 ∧
    Forall (λ r', tokenize_string (genres r') ≠ []) l1 ∧
    tokenize_string (genres r) = [].
Proof.
  induction raw as [|r raw IH]; [by intros ?%Exists_nil |].
  intros Hex. destruct (decide (tokenize_string (genres r) = [])) as [Hr|Hr].
  - exists [], r, raw. by repeat split.
  - apply Exists_cons in Hex as [? | Hex]; [done |].
    destruct (IH Hex) as (l1 & r' & l2 & -> & Hl1 & Hr').
    exists (r :: l1), r', l2. repeat split; [| done]. by constructor.
Qed.

Lemma tokenize_app raw1 raw2 :
  tokenize (raw1 ++ raw2) = tokenize raw1 ++ tokenize raw2.
Proof. unfold tokenize. apply map_app. Qed.

(** On a tokenized catalogue the only failure of [featurize] is the empty
    row of tokens. *)
Lemma featurize_tokenize_raise raw :
  Exists (λ r, tokenize_string (genres r) = []) raw →
  featurize (tokenize raw) = Raise IndexError.
Proof.
  intros (l1 & r & l2 & Hraw & Hl1 & Hr)%first_without_tokens.
  unfold featurize.
  set (movies := tokenize raw).
  set (f := λ m, featurize_row (length movies) (vocabulary movies)
                   (df_table movies (vocabulary movies)) (tokens m)).
  assert (movies = tokenize l1 ++
            {| row_of := r; tokens := tokenize_string (genres r) |} :: tokenize l2)
    as Hmovies by (unfold movies; by rewrite Hraw, tokenize_app).
  destruct (for_each_Forall2 f (λ _ _, True) (tokenize l1)) as (ys & Hys & _).
  { intros m Hm.
    assert (m ∈ movies) as Hin
      by (rewrite Hmovies; apply elem_of_app; by left).
    destruct (featurize_row_Ok movies m Hin) as (v & Hv & _).
    - apply elem_of_tokenize in Hm as (r' & Hr' & ->). simpl.
      by eapply Forall_forall in Hl1.
    - intros t Ht. by apply (tokenize_document_frequency raw m).
    - by exists v. }
  assert (for_each f movies = Raise IndexError) as ->; [| reflexivity].
  rewrite Hmovies. apply (for_each_raise f _ _ _ ys IndexError Hys).
  unfold f. simpl. rewrite Hr. reflexivity.
Qed.

Lemma coo_size (coo : list (nat * R)) :
  NoDup coo.*1 → size (foldl coo_add ∅ coo) = length coo.
Proof.
  induction coo as [|[k y] coo IH] using rev_ind; intros Hnd; [done |].
  rewrite fmap_app in Hnd. apply NoDup_app in Hnd as (Hnd & Hk & _).
  assert (foldl coo_add ∅ coo !! k = None) as Hnone.
  { apply eq_None_not_Some. intros [z Hz]. apply (Hk k).
    - apply coo_lookup in Hz; [| done]. apply list_elem_of_fmap. by exists (k, z).
    - by apply list_elem_of_singleton. }
  rewrite foldl_snoc, length_app. unfold coo_add at 1. simpl.
  rewrite map_size_insert_None by done. rewrite IH by done. lia.
Qed.

(** The number of stored entries of a feature vector. *)
Lemma featurize_row_size movies m v :
  m ∈ movies → tokens m ≠ [] →
  (∀ t, t ∈ tokens m → (1 <= document_frequency movies t)%nat) →
  featurize_row (length movies) (vocabulary movies)
    (df_table movies (vocabulary movies)) (tokens m) = Ok v →
  size (stored v) = size (list_to_set (tokens m) : gset string).
Proof.
  intros Hm Hrow Hdf. unfold featurize_row.
  rewrite most_common_max_tf by done. simpl.
  set (index t := default 0%nat (vocabulary movies !! t)).
  assert (∀ t, t ∈ tokens m → vocabulary movies !! t = Some (index t)) as Hindex.
  { intros t Ht. destruct (proj2 (vocabulary_dom movies t)) as [j Hj];
      [by exists m |]. unfold index. by rewrite Hj. }
  rewrite (for_each_map _ (λ t, (index t, tfidf movies (tokens m) t))).
  2:{ apply Forall_forall. intros t Ht%elem_of_elements%elem_of_list_to_set.
      apply tfidf_entry_Ok; try done; [| by apply Hindex | by apply Hdf].
      intros ->. by apply elem_of_nil in Hm. }
  simpl. unfold csr_matrix. case_decide; [| done]. intros [= <-]. simpl.
  rewrite coo_size, length_map; [done |].
  rewrite <- list_fmap_compose. apply NoDup_fmap_2_strong; [| apply NoDup_elements].
  intros t1 t2 Ht1%elem_of_elements%elem_of_list_to_set
    Ht2%elem_of_elements%elem_of_list_to_set. simpl. intros Heq.
  apply (vocabulary_inj movies t1 t2 (index t1)); [by apply Hindex |].
  rewrite Heq. by apply Hindex.
Qed.

Lemma featurize_rows movies fm vocab (i : nat) m (fd : featurized) :
  featurize movies = Ok (fm, vocab) →
  movies !! i = Some m → fm !! i = Some fd →
  tok_of fd = m ∧
  featurize_row (length movies) (vocabulary movies)
    (df_table movies (vocabulary movies)) (tokens m) = Ok (features fd).
Proof.
  unfold featurize. intros (value & Hvalue & [= <- _])%bind_Ok Hm Hfd.
  apply for_each_Ok in Hvalue.
  apply lookup_zip_with_Some in Hfd as (m' & v & -> & Hm' & Hv).
  rewrite Hm in Hm'. injection Hm' as <-. simpl. split; [done |].
  by destruct (Forall2_lookup_lr _ _ _ _ _ _ Hvalue Hm Hv).
Qed.

(** The tf-idf weight is at most the logarithm of the number of movies. *)
Lemma tfidf_le_log movies row t :
  t ∈ row → (1 <= document_frequency movies t)%nat →
  tfidf movies row t <= ln (INR (length movies)) / ln 10.
Proof.
  intros Ht Hdf. unfold tfidf.
  pose proof ln_10_pos as Hln10.
  pose proof (tf_ratio_pos row t Ht) as Hratio.
  pose proof (df_ratio movies t Hdf) as Hq.
  assert (INR (count row t) / INR (max_tf row) <= 1) as Hle1.
  { pose proof (max_tf_ge row t) as Hmax.
    assert (0 < INR (max_tf row))
      by (apply lt_0_INR; apply count_elem_of in Ht; lia).
    apply le_INR in Hmax.
    apply (Rmult_le_reg_r (INR (max_tf row))); [done |].
    unfold Rdiv. rewrite Rmult_assoc, Rinv_l by lra. lra. }
  assert (1 <= INR (document_frequency movies t)) as Hdf1
    by (apply (le_INR 1); lia).
  assert (INR (length movies) / INR (document_frequency movies t)
          <= INR (length movies)) as Hqle.
  { assert (0 <= INR (length movies)) by apply pos_INR.
    apply (Rmult_le_reg_r (INR (document_frequency movies t))); [lra |].
    unfold Rdiv. rewrite Rmult_assoc, Rinv_l by lra. nra. }
  assert (ln (INR (length movies) / INR (document_frequency movies t))
          <= ln (INR (length movies))) as Hlnle.
  { destruct Hqle as [Hlt | ->]; [| lra]. left. apply ln_increasing; lra. }
  pose proof (ln_nonneg _ Hq) as Hln0.
  assert (0 < / ln 10) by (by apply Rinv_0_lt_compat).
  set (a := INR (count row t) / INR (max_tf row)) in *.
  set (x := ln (INR (length movies) / INR (document_frequency movies t))) in *.
  set (y := ln (INR (length movies))) in *.
  unfold Rdiv.
  assert (a * x <= y) as Hax.
  { apply Rle_trans with (1 * x); [| lra].
    apply Rmult_le_compat_r; lra. }
  rewrite <- Rmult_assoc. apply Rmult_le_compat_r; lra.
Qed.

(** The genre texts with the token contain it. *)
Lemma counts_le {A : Type} (P Q : A → Prop) (l : list A) (n k : nat) :
  (∀ x, x ∈ l → P x → Q x) → counts P l n → counts Q l k → (n <= k)%nat.
Proof.
  intros HPQ HP. revert k.
  induction HP as [|x l n Hx _ IH | x l n Hx _ IH]; intros k HQ.
  - lia.
  - inversion HQ as [|? ? k' HQx HQl | ? ? ? HQx HQl]; subst.
    + assert (n <= k')%nat; [| lia]. apply IH; [| done].
      intros y Hy. apply HPQ, elem_of_cons. by right.
    + exfalso. apply HQx, HPQ; [apply elem_of_cons; by left | done].
  - inversion HQ as [|? ? k' HQx HQl | ? ? ? HQx HQl]; subst.
    + assert (n <= k')%nat; [| lia]. apply IH; [| done].
      intros y Hy. apply HPQ, elem_of_cons. by right.
    + apply IH; [| done]. intros y Hy. apply HPQ, elem_of_cons. by right.
Qed.
End featurize_more.

(** X4. On a tokenized catalogue [featurize] fails exactly when the genre
    text of some movie has no token: [most_common(1)[0]] then raises an
    [IndexError]; otherwise it returns one vector per movie and the
    vocabulary. *)
Theorem featurize_tokenize_defined (raw : list movie) :
  (Forall (λ r, tokenize_string (genres r) ≠ []) raw →
   ∃ fm, featurize (tokenize raw) = Ok (fm, vocabulary (tokenize raw)) ∧
         length fm = length raw) ∧
  (Exists (λ r, tokenize_string (genres r) = []) raw →
   featurize (tokenize raw) = Raise IndexError).
Proof.
  split; [| apply featurize_tokenize_raise].
  intros Hall. destruct (featurize_Ok (tokenize raw)) as (fm & Hfm & Hv).
  { apply tokenize_featurizable. intros r Hr. by eapply Forall_forall in Hall. }
  exists fm. split; [done |].
  rewrite <- (Forall2_length _ _ _ Hv). unfold tokenize. apply length_map.
Qed.

Lemma featurize_tokenize_defined_witness :
  (∃ fm, featurize (tokenize example_movies)
           = Ok (fm, vocabulary (tokenize example_movies)) ∧
         length fm = length example_movies) ∧
  featurize (tokenize [ {| movieId := 7; genres := "|" |} ]) = Raise IndexError.
Proof.
  split.
  - apply (proj1 (featurize_tokenize_defined example_movies)).
    apply Forall_forall, example_movies_tokens.
  - apply (proj2 (featurize_tokenize_defined [ {| movieId := 7; genres := "|" |} ])).
    apply Exists_cons_hd. reflexivity.
Defined.

(** X5. Every feature vector [featurize] returns has the shape
    [(1, len(vocab))], stores its entries inside this shape, one per distinct
    token of its movie, and the movie keeps its row. *)
Theorem featurize_shapes (movies : list tokenized) (fm : list featurized)
    (vocab : gmap string nat) :
  featurize movies = Ok (fm, vocab) →
  length fm = length movies ∧
  ∀ i m fd, movies !! i = Some m → fm !! i = Some fd →
    tok_of fd = m ∧
    shape1 (features fd) = size vocab ∧
    csr_wf (features fd) ∧
    size (stored (features fd)) = size (list_to_set (tokens m) : gset string).
Proof.
  intros Hfm. destruct (featurize_spec _ _ _ Hfm) as [-> Hvectors].
  split; [symmetry; by eapply Forall2_length |].
  intros i m fd Hm Hfd.
  destruct (Forall2_lookup_lr _ _ _ _ _ _ Hvectors Hm Hfd) as [Htok Hv].
  destruct (featurize_inv _ _ _ Hfm) as [Hok _].
  assert (m ∈ movies) as Hin by (by eapply list_elem_of_lookup_2).
  destruct (Hok m Hin) as [Hrow Hdf].
  split; [done |]. split; [by destruct Hv |].
  split; [by eapply feature_vector_wf |].
  apply (featurize_row_size movies m); try done.
  by destruct (featurize_rows _ _ _ i m fd Hfm Hm Hfd).
Qed.

Lemma featurize_shapes_witness :
  ∃ fm vocab,
    featurize (tokenize example_movies) = Ok (fm, vocab) ∧
    length fm = length (tokenize example_movies).
Proof.
  destruct (featurize_Ok (tokenize example_movies)) as (fm & Hfm & _).
  { apply tokenize_featurizable, example_movies_tokens. }
  exists fm, (vocabulary (tokenize example_movies)). split; [exact Hfm |].
  exact (proj1 (featurize_shapes _ _ _ Hfm)).
Defined.

(** X6. Every weight [featurize] stores lies between 0 and [log10 N], [N] the
    number of movies. *)
Theorem featurize_weight_bounds (movies : list tokenized) (fm : list featurized)
    (vocab : gmap string nat) (fd : featurized) (j : nat) (x : R) :
  featurize movies = Ok (fm, vocab) → fd ∈ fm →
  stored (features fd) !! j = Some x →
  0 <= x <= ln (INR (length movies)) / ln 10.
Proof.
  intros Hfm Hfd Hx.
  destruct (featurize_vectors _ _ _ fd Hfm Hfd) as (Hok & m & Hm & Hv).
  destruct (Hok m Hm) as [_ Hdf].
  destruct Hv as [_ Hstored]. apply Hstored in Hx as (t & Ht & _ & ->).
  split; [apply tfidf_nonneg | apply tfidf_le_log]; try done; by apply Hdf.
Qed.

Lemma featurize_weight_bounds_witness :
  ∃ fm vocab fd x,
    featurize (tokenize example_movies) = Ok (fm, vocab) ∧ fd ∈ fm ∧
    stored (features fd) !! 0%nat = Some x ∧
    0 <= x <= ln (INR (length (tokenize example_movies))) / ln 10.
Proof.
  destruct (featurize_Ok (tokenize example_movies)) as (fm & Hfm & Hvectors).
  { apply tokenize_featurizable, example_movies_tokens. }
  apply Forall2_cons_inv_l in Hvectors as (fd & fm' & [Htok [_ Hstored]] & _ & ->).
  set (x := tfidf (tokenize example_movies) ["horror"; "romance"]%string "horror").
  assert (stored (features fd) !! 0%nat = Some x) as Hx.
  { apply Hstored. exists "horror"%string.
    split; [simpl; list_member |].
    split; [vm_compute; reflexivity | reflexivity]. }
  assert (fd ∈ fd :: fm') as Hfd by (apply elem_of_cons; left; reflexivity).
  exists (fd :: fm'), (vocabulary (tokenize example_movies)), fd, x.
  split; [exact Hfm |]. split; [exact Hfd |]. split; [exact Hx |].
  exact (featurize_weight_bounds _ _ _ fd 0%nat x Hfm Hfd Hx).
Defined.

(** X7. The document frequency of [featurize] counts substrings, so it is at
    least the number of movies that have the term as a token. *)
Theorem document_frequency_tokens (raw : list movie) (t : string) (n : nat) :
  counts (λ m, t ∈ tokens m) (tokenize raw) n →
  (n <= document_frequency (tokenize raw) t)%nat.
Proof.
  intros Hn.
  apply (counts_le (λ m, t ∈ tokens m)
           (λ m, substring_of t (lower (genres (row_of m)))) (tokenize raw));
    [| done | apply document_frequency_counts].
  intros m (r & _ & ->)%elem_of_tokenize Ht. simpl in *.
  apply contains_spec. by apply token_contained.
Qed.

Lemma document_frequency_tokens_witness :
  counts (λ m, "sci"%string ∈ tokens m) (tokenize sci_movies) 1 ∧
  (1 <= document_frequency (tokenize sci_movies) "sci")%nat.
Proof.
  assert (counts (λ m, "sci"%string ∈ tokens m) (tokenize sci_movies) 1) as H.
  { apply counts_no; [| apply counts_yes; [| apply counts_nil]].
    - change ("sci"%string ∉ ["sci-fi"%string]). list_member.
    - change ("sci"%string ∈ ["sci"%string]). list_member. }
  split; [exact H |].
  exact (document_frequency_tokens sci_movies "sci" 1 H).
Defined.

(** ** More on the dataset splitter *)

Section splitter_more.
Context {A : Type}.
Implicit Types (rows : list A) (P : nat → Prop).

(** The two subsets that [train_test_split] returns. *)
Lemma train_test_split_rows rows :
  train_test_split rows =
    Ok (rows_where (λ i, ¬ multiple_of_1000 i) rows,
        rows_where multiple_of_1000 rows).
Proof.
  unfold train_test_split. rewrite split_positions_filter.
  by rewrite !iloc_filter.
Qed.

Lemma imap_pair_snd rows : (imap pair rows).*2 = rows.
Proof.
  apply list_eq. intros i.
  rewrite list_lookup_fmap, list_lookup_imap.
  by destruct (rows !! i).
Qed.

Lemma rows_where_partition P `{!∀ i, Decision (P i)} rows :
  rows_where (λ i, ¬ P i) rows ++ rows_where P rows ≡ₚ rows.
Proof.
  unfold rows_where. rewrite <- fmap_app.
  rewrite <- (imap_pair_snd rows) at 3. apply fmap_Permutation.
  rewrite Permutation_app_comm.
  apply (filter_app_complement (λ ix : nat * A, P ix.1)).
Qed.

Lemma rows_where_sublist P `{!∀ i, Decision (P i)} rows :
  rows_where P rows `sublist_of` rows.
Proof.
  unfold rows_where. rewrite <- (imap_pair_snd rows) at 2.
  apply fmap_sublist, sublist_filter.
Qed.

Lemma filter_imap_shift P `{!∀ i, Decision (P i)} rows :
  (filter (λ ix : nat * A, P ix.1) (imap (pair ∘ S) rows)).*2 =
  (filter (λ ix : nat * A, (P ∘ S) ix.1) (imap pair rows)).*2.
Proof.
  induction rows as [|y rows IH] using rev_ind; [done |].
  rewrite !imap_app, !filter_app, !fmap_app, IH. f_equal.
  simpl. rewrite !filter_cons. simpl. by repeat case_decide.
Qed.

Lemma rows_where_cons P `{!∀ i, Decision (P i)} (x : A) rows :
  rows_where P (x :: rows) =
    (if decide (P 0%nat) then [x] else []) ++ rows_where (P ∘ S) rows.
Proof.
  unfold rows_where. rewrite imap_cons, filter_cons.
  change ((0%nat, x).1) with 0%nat.
  case_decide; [rewrite fmap_cons |]; by rewrite filter_imap_shift.
Qed.

Lemma rows_where_all P `{!∀ i, Decision (P i)} rows :
  (∀ i, (i < length rows)%nat → P i) → rows_where P rows = rows.
Proof.
  revert P H. induction rows as [|x rows IH]; intros P ? HP; [done |].
  rewrite rows_where_cons, decide_True by (apply HP; simpl; lia).
  simpl. f_equal. apply IH. intros i Hi. apply HP. simpl. lia.
Qed.

Lemma rows_where_none P `{!∀ i, Decision (P i)} rows :
  (∀ i, (i < length rows)%nat → ¬ P i) → rows_where P rows = [].
Proof.
  revert P H. induction rows as [|x rows IH]; intros P ? HP; [done |].
  rewrite rows_where_cons, decide_False by (apply HP; simpl; lia).
  simpl. apply IH. intros i Hi. apply HP. simpl. lia.
Qed.

(** The number of multiples of 1000 below [n]. *)
Lemma multiples_below (n : nat) :
  length (filter multiple_of_1000 (seq 0 n)) = ((n + 999) / 1000)%nat.
Proof.
  induction n as [|n IH]; [done |].
  rewrite seq_S, filter_app, length_app, IH, Nat.add_0_l, filter_cons, filter_nil.
  pose proof (Nat.div_mod_eq n 1000) as Hn.
  pose proof (Nat.mod_upper_bound n 1000 ltac:(lia)) as Hr.
  assert (((S n + 999) / 1000)%nat = (n / 1000 + 1)%nat) as ->.
  { symmetry. apply (Nat.div_unique _ _ _ (n mod 1000)); lia. }
  destruct (decide (multiple_of_1000 n)) as [Hm | Hm];
    unfold multiple_of_1000 in Hm; cbn [length].
  - assert (((n + 999) / 1000)%nat = (n / 1000)%nat) as ->; [| lia].
    symmetry. apply (Nat.div_unique _ _ _ 999); lia.
  - assert (((n + 999) / 1000)%nat = (n / 1000 + 1)%nat) as ->; [| lia].
    symmetry. apply (Nat.div_unique _ _ _ (n mod 1000 - 1)); lia.
Qed.
End splitter_more.

(** X8. [train_test_split] always returns; the two subsets are subsequences
    of the collection, together they hold every row once, and the test
    subset has [ceil(n / 1000)] rows. *)
Theorem train_test_split_partition {A : Type} (ratings : list A) :
  ∃ train test,
    train_test_split ratings = Ok (train, test) ∧
    train `sublist_of` ratings ∧ test `sublist_of` ratings ∧
    train ++ test ≡ₚ ratings ∧
    length test = ((length ratings + 999) / 1000)%nat ∧
    (length train + length test = length ratings)%nat.
Proof.
  eexists _, _. split; [apply train_test_split_rows |].
  split; [apply rows_where_sublist |]. split; [apply rows_where_sublist |].
  pose proof (rows_where_partition multiple_of_1000 ratings) as Hperm.
  split; [exact Hperm |]. split.
  - rewrite rows_where_length. apply multiples_below.
  - rewrite <- length_app. by rewrite Hperm.
Qed.

(** X9. A collection of at most 1000 rows is split into its first row, the
    only test row, and the rest. *)
Theorem train_test_split_small {A : Type} (r : A) (rest : list A) :
  (length rest < 1000)%nat →
  train_test_split (r :: rest) = Ok (rest, [r]).
Proof.
  intros Hlen. rewrite train_test_split_rows. do 2 f_equal.
  - rewrite rows_where_cons, decide_False by (intros H; by apply H).
    rewrite app_nil_l. apply rows_where_all. intros i Hi.
    unfold compose, multiple_of_1000.
    intros Hmod. apply Nat.Div0.mod_divides in Hmod as [k Hk]. lia.
  - rewrite rows_where_cons, decide_True by done.
    cbn [app]. f_equal. apply rows_where_none. intros i Hi.
    unfold compose, multiple_of_1000.
    intros Hmod. apply Nat.Div0.mod_divides in Hmod as [k Hk]. lia.
Qed.

Lemma train_test_split_small_witness :
  (length [2%nat; 3%nat] < 1000)%nat ∧
  train_test_split [1%nat; 2%nat; 3%nat] = Ok ([2%nat; 3%nat], [1%nat]).
Proof.
  assert (length [2%nat; 3%nat] < 1000)%nat as Hlen by (simpl; lia).
  split; [exact Hlen |].
  exact (train_test_split_small 1%nat [2%nat; 3%nat] Hlen).
Defined.

(** ** More on the similarity engine *)

Section similarity_more.
Implicit Types (a b : csr) (xs ys : list R).

Lemma zip_products_comm xs ys :
  sum_list (zip_with Rmult xs ys) = sum_list (zip_with Rmult ys xs).
Proof.
  revert ys. induction xs as [|x xs IH]; intros [|y ys]; simpl; try done.
  rewrite IH. lra.
Qed.

Lemma dot_comm a b : dot a b = dot b a.
Proof. apply zip_products_comm. Qed.

Lemma foldl_raise {A B : Type} (f : result B → A → result B) (l : list A)
    (e : pyerr) :
  (∀ x, f (Raise e) x = Raise e) → foldl f (Raise e) l = Raise e.
Proof. intros Hf. induction l as [|x l IH]; simpl; [done | by rewrite Hf]. Qed.

(** The loop of [cosine_sim] leaves the narrower vector [b]. *)
Lemma cosine_sim_narrow a b :
  (shape1 b < shape1 a)%nat → cosine_sim a b = Raise IndexError.
Proof.
  intros Hlt. unfold cosine_sim.
  assert (seq 0 (shape1 a) =
          seq 0 (shape1 b) ++ shape1 b :: seq (S (shape1 b)) (shape1 a - S (shape1 b)))
    as ->.
  { replace (shape1 a) with (shape1 b + S (shape1 a - S (shape1 b)))%nat at 1 by lia.
    by rewrite seq_app. }
  rewrite foldl_app, cosine_loop by lia. simpl.
  assert (getitem b (shape1 b) = Raise IndexError) as ->
    by (unfold getitem; by rewrite decide_False by lia).
  simpl. by rewrite foldl_raise.
Qed.
End similarity_more.

(** X10. The cosine similarity of two vectors of one shape does not depend on
    their order. *)
Theorem cosine_sim_symmetric (a b : csr) :
  csr_wf a → csr_wf b → shape1 a = shape1 b →
  cosine_sim a b = cosine_sim b a.
Proof.
  intros Ha Hb Hshape. rewrite !cosine_sim_divide by done.
  unfold cosine. by rewrite Hshape, dot_comm, (Rmult_comm (norm2 a)).
Qed.

Lemma cosine_sim_symmetric_witness :
  (csr_wf unit_vector ∧ csr_wf zero_vector ∧
   shape1 unit_vector = shape1 zero_vector) ∧
  cosine_sim unit_vector zero_vector = cosine_sim zero_vector unit_vector.
Proof.
  pose proof (singleton_vector_wf 1) as Hunit.
  pose proof (singleton_vector_wf 0) as Hzero.
  split; [split; [exact Hunit | split; [exact Hzero | reflexivity]] |].
  exact (cosine_sim_symmetric unit_vector zero_vector Hunit Hzero eq_refl).
Defined.

(** X13. When the second vector has fewer columns than the first, the loop
    over the columns of the first leaves the second: an [IndexError]. *)
Theorem cosine_sim_index_error (a b : csr) :
  (shape1 b < shape1 a)%nat → cosine_sim a b = Raise IndexError.
Proof. apply cosine_sim_narrow. Qed.

Lemma cosine_sim_index_error_witness :
  (shape1 {| shape1 := 0; stored := ∅ |} < shape1 unit_vector)%nat ∧
  cosine_sim unit_vector {| shape1 := 0; stored := ∅ |} = Raise IndexError.
Proof.
  assert (shape1 {| shape1 := 0; stored := ∅ |} < shape1 unit_vector)%nat
    as Hlt by (simpl; lia).
  split; [exact Hlt |].
  exact (cosine_sim_index_error unit_vector {| shape1 := 0; stored := ∅ |} Hlt).
Defined.

(** ** More on the prediction engine *)

Section prediction_more.
Implicit Types (movies : list featurized) (row : rating_row).
Implicit Types (ratings_train ratings_test : list rating_row).
Implicit Types (sims : list float64) (ratings : list R).

Lemma for_each_raise_elem {A B : Type} (f : A → result B) (l : list A)
    (x : A) (e : pyerr) :
  x ∈ l → f x = Raise e → ∃ e', for_each f l = Raise e'.
Proof.
  intros Hx Hfx. induction l as [|y l IH]; [by apply elem_of_nil in Hx |].
  simpl. destruct (f y) as [z|e1] eqn:Hy; simpl; [| by exists e1].
  apply elem_of_cons in Hx as [-> | Hx]; [congruence |].
  destruct (IH Hx) as [e' ->]. by exists e'.
Qed.

Lemma first_raise {A : Type} (l : list A) (e : pyerr) :
  first l = Raise e → e = IndexError.
Proof. destruct l; simpl; [by intros [= <-] | done]. Qed.

(** No training rating: the mean of no ratings. *)
Lemma predict_row_no_history movies ratings_train row :
  ratings_of ratings_train (userId row) = [] →
  predict_row movies ratings_train row = Raise ZeroDivision.
Proof.
  intros Hnone. unfold predict_row. rewrite Hnone. simpl.
  destruct (Rlt_dec 0 0) as [? | _]; [lra |].
  unfold pysum. simpl. by rewrite divide_zero.
Qed.

(** The movie of the row is not in the catalogue. *)
Lemma predict_row_missing movies ratings_train row :
  ratings_of ratings_train (userId row) ≠ [] →
  movies_with movies (r_movieId row) = [] →
  predict_row movies ratings_train row = Raise IndexError.
Proof.
  intros Hsome Hmissing. unfold predict_row. rewrite Hmissing.
  destruct (ratings_of ratings_train (userId row)) as [|r users]; [done |].
  simpl.
  destruct (first (map features (movies_with movies (r_movieId r))))
    as [a | e] eqn:Ha; simpl; [done |].
  by rewrite (first_raise _ _ Ha).
Qed.

(** A similarity that is nan: [S] is nan, and the prediction is the mean. *)
Lemma predict_row_nan movies ratings_train row sims :
  similarities movies ratings_train row sims → NaN ∈ sims →
  predict_row movies ratings_train row =
    Ok (Finite (mean_rating (map rating (ratings_of ratings_train (userId row))))).
Proof.
  intros Hsims Hnan.
  assert (length (map rating (ratings_of ratings_train (userId row)))
          = length sims) as Hlen
    by (rewrite length_map; by eapply Forall2_length).
  rewrite (predict_row_forecast _ _ _ sims); [| | done].
  - cbv zeta. by rewrite (sum_floats_NaN _ (products_NaN _ _ Hlen Hnan)).
  - intros Hnil. rewrite Hnil in Hlen. destruct sims; [| done].
    by apply elem_of_nil in Hnan.
Qed.

(** [S] is positive and [W] is zero: numpy divides, the result is an
    infinity. *)
Lemma predict_row_infinite movies ratings_train row (xs : list R) :
  similarities movies ratings_train row (map Finite xs) →
  let ratings := map rating (ratings_of ratings_train (userId row)) in
  0 < weighted_sum xs ratings → weight_sum xs = 0 →
  predict_row movies ratings_train row = Ok PosInf.
Proof.
  intros Hsims ratings HS HW.
  rewrite (predict_row_sums _ _ _ (map Finite xs) Hsims). fold ratings.
  cbv zeta. rewrite products_Finite, !sum_floats_Finite.
  fold (weighted_sum xs ratings) (weight_sum xs).
  rewrite (proj2 (is_positive_Finite _) HS), HW.
  by rewrite np_divide_pos_zero.
Qed.

Lemma ratings_of_app ratings_train (others : list rating_row) (u : Z) :
  Forall (λ r, userId r ≠ u) others →
  ratings_of (ratings_train ++ others) u = ratings_of ratings_train u.
Proof.
  intros Hothers. unfold ratings_of. rewrite filter_app.
  assert (filter (λ r, userId r = u) others = []) as ->; [| apply app_nil_r].
  induction Hothers as [|r others Hr _ IH]; [done |].
  by rewrite filter_cons, decide_False.
Qed.

Lemma predict_row_ext movies ratings_train1 ratings_train2 row :
  ratings_of ratings_train1 (userId row) = ratings_of ratings_train2 (userId row) →
  predict_row movies ratings_train1 row = predict_row movies ratings_train2 row.
Proof. intros Heq. unfold predict_row. by rewrite Heq. Qed.

Lemma for_each_ext {A B : Type} (f g : A → result B) (l : list A) :
  Forall (λ x, f x = g x) l → for_each f l = for_each g l.
Proof. induction 1 as [|x l Hx _ IH]; simpl; [done | by rewrite Hx, IH]. Qed.
End prediction_more.

(** X14. A test row whose user has no training rating makes the prediction
    divide by zero (the mean of no ratings), and [make_predictions] returns
    no predictions. *)
Theorem make_predictions_no_history (movies : list featurized)
    (ratings_train ratings_test : list rating_row) (row : rating_row) :
  row ∈ ratings_test →
  ratings_of ratings_train (userId row) = [] →
  predict_row movies ratings_train row = Raise ZeroDivision ∧
  ∃ e, make_predictions movies ratings_train ratings_test = Raise e.
Proof.
  intros Hrow Hnone.
  pose proof (predict_row_no_history movies ratings_train row Hnone) as Hraise.
  split; [done |]. by eapply for_each_raise_elem.
Qed.

Lemma make_predictions_no_history_witness :
  let row := {| userId := 7; r_movieId := 3; rating := 1 |} in
  row ∈ [row] ∧ ratings_of small_train (userId row) = [] ∧
  predict_row small_catalogue small_train row = Raise ZeroDivision ∧
  ∃ e, make_predictions small_catalogue small_train [row] = Raise e.
Proof.
  intros row.
  assert (row ∈ [row]) as Hrow by (apply list_elem_of_singleton; reflexivity).
  split; [exact Hrow |]. split; [reflexivity |].
  exact (make_predictions_no_history small_catalogue small_train [row] row
           Hrow eq_refl).
Defined.

(** X15. A test row whose movie is not in the catalogue, for a user with
    training ratings, raises an [IndexError] ([values[0]] of an empty
    selection). *)
Theorem make_predictions_missing_movie (movies : list featurized)
    (ratings_train ratings_test : list rating_row) (row : rating_row) :
  row ∈ ratings_test →
  ratings_of ratings_train (userId row) ≠ [] →
  movies_with movies (r_movieId row) = [] →
  predict_row movies ratings_train row = Raise IndexError ∧
  ∃ e, make_predictions movies ratings_train ratings_test = Raise e.
Proof.
  intros Hrow Hsome Hmissing.
  pose proof (predict_row_missing movies ratings_train row Hsome Hmissing)
    as Hraise.
  split; [done |]. by eapply for_each_raise_elem.
Qed.

Lemma make_predictions_missing_movie_witness :
  let row := {| userId := 9; r_movieId := 5; rating := 1 |} in
  row ∈ [row] ∧ ratings_of small_train (userId row) ≠ [] ∧
  movies_with small_catalogue (r_movieId row) = [] ∧
  predict_row small_catalogue small_train row = Raise IndexError ∧
  ∃ e, make_predictions small_catalogue small_train [row] = Raise e.
Proof.
  intros row.
  assert (row ∈ [row]) as Hrow by (apply list_elem_of_singleton; reflexivity).
  assert (ratings_of small_train (userId row) ≠ []) as Hsome by discriminate.
  split; [exact Hrow |]. split; [exact Hsome |]. split; [reflexivity |].
  exact (make_predictions_missing_movie small_catalogue small_train [row] row
           Hrow Hsome eq_refl).
Defined.

(** X26. A similarity that is nan, as that of a movie whose feature vector
    has the norm zero, makes [S] nan; the test [S > 0] is false, so the
    prediction is the mean of the training ratings of the user, and nothing
    is raised. *)
Theorem make_predictions_nan_similarity (movies : list featurized)
    (ratings_train : list rating_row) (row : rating_row)
    (sims : list float64) :
  similarities movies ratings_train row sims → NaN ∈ sims →
  let ratings := map rating (ratings_of ratings_train (userId row)) in
  predict_row movies ratings_train row = Ok (Finite (mean_rating ratings)) ∧
  make_predictions movies ratings_train [row] = Ok [Finite (mean_rating ratings)].
Proof.
  intros Hsims Hnan ratings.
  pose proof (predict_row_nan movies ratings_train row sims Hsims Hnan) as Hrow.
  split; [done |]. unfold make_predictions. simpl. by rewrite Hrow.
Qed.

Lemma make_predictions_nan_similarity_witness :
  let row := {| userId := 9; r_movieId := 3; rating := 5 |} in
  similarities zero_catalogue small_train row [NaN] ∧ NaN ∈ [NaN] ∧
  predict_row zero_catalogue small_train row = Ok (Finite (mean_rating [4])) ∧
  make_predictions zero_catalogue small_train [row] = Ok [Finite (mean_rating [4])].
Proof.
  intros row.
  assert (similarities zero_catalogue small_train row [NaN]) as Hsims.
  { constructor; [| constructor]. unfold similarity. simpl.
    rewrite cosine_sim_cosine; [| apply singleton_vector_wf ..| reflexivity | simpl; lia].
    f_equal. apply cosine_zero; [reflexivity |]. left. exact zero_vector_norm. }
  assert (NaN ∈ [NaN]) as Hnan by (apply list_elem_of_singleton; reflexivity).
  split; [exact Hsims |]. split; [exact Hnan |].
  exact (make_predictions_nan_similarity zero_catalogue small_train row [NaN]
           Hsims Hnan).
Defined.

(** X27. When [S] is positive and the similarities add up to zero, the
    division [S / W] is numpy's: the prediction is the positive infinity,
    and nothing is raised. *)
Theorem make_predictions_zero_weight (movies : list featurized)
    (ratings_train : list rating_row) (row : rating_row) (xs : list R) :
  similarities movies ratings_train row (map Finite xs) →
  let ratings := map rating (ratings_of ratings_train (userId row)) in
  0 < weighted_sum xs ratings → weight_sum xs = 0 →
  predict_row movies ratings_train row = Ok PosInf ∧
  make_predictions movies ratings_train [row] = Ok [PosInf].
Proof.
  intros Hsims ratings HS HW.
  pose proof (predict_row_infinite movies ratings_train row xs Hsims HS HW)
    as Hrow.
  split; [done |]. unfold make_predictions. simpl. by rewrite Hrow.
Qed.

Lemma make_predictions_zero_weight_witness :
  let row := {| userId := 9; r_movieId := 3; rating := 5 |} in
  similarities opposite_catalogue opposite_train row (map Finite [1; -1]) ∧
  0 < weighted_sum [1; -1] [3; 1] ∧ weight_sum [1; -1] = 0 ∧
  predict_row opposite_catalogue opposite_train row = Ok PosInf ∧
  make_predictions opposite_catalogue opposite_train [row] = Ok [PosInf].
Proof.
  intros row.
  assert (norm2 minus_vector = 1) as Hminus.
  { unfold norm2. change (dense minus_vector) with [-1]. simpl.
    replace (-1 * -1 + 0) with 1 by lra. apply sqrt_1. }
  assert (similarities opposite_catalogue opposite_train row (map Finite [1; -1]))
    as Hsims.
  { constructor; [| constructor; [| constructor]]; unfold similarity; simpl.
    - rewrite cosine_sim_cosine;
        [| apply singleton_vector_wf ..| reflexivity | simpl; lia].
      f_equal. apply unit_vector_cosine.
    - rewrite cosine_sim_cosine;
        [| apply singleton_vector_wf ..| reflexivity | simpl; lia].
      f_equal. unfold cosine. rewrite Hminus, unit_vector_norm.
      rewrite np_divide_Finite by lra. f_equal.
      unfold dot. change (dense minus_vector) with [-1].
      change (dense unit_vector) with [1]. simpl. lra. }
  assert (0 < weighted_sum [1; -1] [3; 1]) as HS
    by (unfold weighted_sum; simpl; lra).
  assert (weight_sum [1; -1] = 0) as HW by (unfold weight_sum; simpl; lra).
  split; [exact Hsims |]. split; [exact HS |]. split; [exact HW |].
  exact (make_predictions_zero_weight opposite_catalogue opposite_train row
           [1; -1] Hsims HS HW).
Defined.

(** X18. Only the ratings of the user of a test row enter its prediction:
    training ratings of users that are not in the test subset change
    nothing. *)
Theorem make_predictions_other_users (movies : list featurized)
    (ratings_train others ratings_test : list rating_row) :
  (∀ r row, r ∈ others → row ∈ ratings_test → userId r ≠ userId row) →
  make_predictions movies (ratings_train ++ others) ratings_test =
  make_predictions movies ratings_train ratings_test.
Proof.
  intros Hothers. unfold make_predictions. apply for_each_ext.
  apply Forall_forall. intros row Hrow. apply predict_row_ext.
  apply ratings_of_app. apply Forall_forall. intros r Hr. by apply Hothers.
Qed.

Lemma make_predictions_other_users_witness :
  let others := [ {| userId := 8; r_movieId := 1; rating := 1 |} ] in
  (∀ r row, r ∈ others → row ∈ small_test → userId r ≠ userId row) ∧
  make_predictions small_catalogue (small_train ++ others) small_test =
  make_predictions small_catalogue small_train small_test.
Proof.
  intros others.
  assert (∀ r row, r ∈ others → row ∈ small_test → userId r ≠ userId row)
    as Hothers.
  { intros r row ->%list_elem_of_singleton ->%list_elem_of_singleton.
    discriminate. }
  split; [exact Hothers |].
  exact (make_predictions_other_users small_catalogue small_train others
           small_test Hothers).
Defined.

(** ** More on the evaluator *)

Section evaluator_more.
Implicit Types (p a : list float64) (rs : list rating_row).

(** The subtraction of an array of one element from an array. *)
Lemma array_sub_broadcast (x : float64) a :
  array_sub [x] a = Ok (map (λ y, fsub x y) a).
Proof.
  unfold array_sub. case_decide as Hlen; [| done].
  destruct a as [|y [|z a]]; simpl in *; try done.
Qed.

Lemma array_sub_mismatch p a :
  length p ≠ length a → length p ≠ 1%nat → length a ≠ 1%nat →
  array_sub p a = Raise ValueError.
Proof.
  intros Hne Hp Ha. unfold array_sub. rewrite decide_False by done.
  destruct p as [|x [|x' p]]; simpl in *; try done;
    destruct a as [|y [|y' a]]; simpl in *; done.
Qed.
End evaluator_more.

(** X20. Predictions and ratings of different lengths, neither of length 1,
    cannot be subtracted: a [ValueError]. *)
Theorem mean_absolute_error_mismatch (p : list float64) (rs : list rating_row) :
  length p ≠ length rs → length p ≠ 1%nat → length rs ≠ 1%nat →
  mean_absolute_error p rs = Raise ValueError.
Proof.
  intros Hne Hp Hrs. unfold mean_absolute_error.
  by rewrite array_sub_mismatch by (by rewrite ?length_map).
Qed.

Lemma mean_absolute_error_mismatch_witness :
  let rs := [ {| userId := 9; r_movieId := 3; rating := 4 |};
              {| userId := 9; r_movieId := 1; rating := 2 |} ] in
  let p := [Finite 1; Finite 2; Finite 3] in
  (length p ≠ length rs ∧ length p ≠ 1%nat ∧ length rs ≠ 1%nat) ∧
  mean_absolute_error p rs = Raise ValueError.
Proof.
  intros rs p.
  assert (length p ≠ length rs) as H1 by discriminate.
  assert (length p ≠ 1%nat) as H2 by discriminate.
  assert (length rs ≠ 1%nat) as H3 by discriminate.
  split; [split; [exact H1 | split; [exact H2 | exact H3]] |].
  exact (mean_absolute_error_mismatch p rs H1 H2 H3).
Defined.

(** X21. A single prediction is compared with every rating: the subtraction
    broadcasts it, no error is raised for the different lengths. *)
Theorem mean_absolute_error_broadcast (x : R) (rs : list rating_row) :
  rs ≠ [] →
  mean_absolute_error [Finite x] rs =
    Ok (Finite (sum_list (map (λ r, Rabs (x - rating r)) rs)
                / INR (length rs))).
Proof.
  intros Hne. unfold mean_absolute_error.
  rewrite array_sub_broadcast. cbn [mbind result_bind]. unfold mean.
  assert (map fabs (map (λ y, fsub (Finite x) y)
                        (map (λ r, Finite (rating r)) rs))
          = map Finite (map (λ r, Rabs (x - rating r)) rs)) as ->
    by (by rewrite !map_map).
  rewrite fsum_sum_floats, sum_floats_Finite, !length_map.
  by rewrite np_divide_Finite by (by apply INR_length_nonzero).
Qed.

Lemma mean_absolute_error_broadcast_witness :
  let rs := [ {| userId := 9; r_movieId := 3; rating := 4 |};
              {| userId := 9; r_movieId := 1; rating := 2 |} ] in
  rs ≠ [] ∧
  mean_absolute_error [Finite 3] rs =
    Ok (Finite (sum_list (map (λ r, Rabs (3 - rating r)) rs)
                / INR (length rs))).
Proof.
  intros rs.
  assert (rs ≠ []) as Hne by discriminate.
  split; [exact Hne |].
  exact (mean_absolute_error_broadcast 3 rs Hne).
Defined.

(** ** The program *)

Section program.
Implicit Types (ratings : list rating_row) (raw : list movie).
Implicit Types (movies : list tokenized) (l : list string).

(** The run of [main], stage by stage. *)
Lemma main_unfold ratings raw :
  main ratings raw =
  match featurize (tokenize raw) with
  | Raise e => ([], Raise e)
  | Ok (fm, vocab) =>
      let out := [vocab_title; vocab_items (take 10 (sorted_items vocab))] in
      match train_test_split ratings with
      | Raise e => (out, Raise e)
      | Ok (train, test) =>
          let out := out ++ [split_sizes (length train) (length test)] in
          match make_predictions fm train test with
          | Raise e => (out, Raise e)
          | Ok predictions =>
              match mean_absolute_error predictions test with
              | Raise e => (out, Raise e)
              | Ok err =>
                  (out ++ [error_value err;
                           predictions_head (take 10 predictions)], Ok ())
              end
          end
      end
  end.
Proof.
  unfold main.
  destruct (featurize (tokenize raw)) as [[fm vocab] | e]; [| reflexivity].
  destruct (train_test_split ratings) as [[train test] | e];
    unfold mbind, run_bind, call, print; cbn [fst snd app]; [| reflexivity].
  destruct (make_predictions fm train test) as [predictions | e];
    cbn [fst snd app]; [| reflexivity].
  destruct (mean_absolute_error predictions test) as [err | e];
    cbn [fst snd app]; reflexivity.
Qed.

#[global] Instance item_le_total : Total item_le.
Proof.
  intros x y. unfold item_le.
  destruct (decide (x.1 = y.1)) as [Exy | Nxy],
    (decide (y.1 = x.1)) as [Eyx | Nyx]; try congruence.
  - lia.
  - apply (total string_le).
Qed.

#[global] Instance item_le_trans : Transitive item_le.
Proof.
  intros x y z. unfold item_le.
  destruct (decide (x.1 = y.1)) as [Exy | Nxy],
    (decide (y.1 = z.1)) as [Eyz | Nyz],
    (decide (x.1 = z.1)) as [Exz | Nxz]; intros Hxy Hyz;
    try congruence; try lia.
  - exfalso. apply Nxy. apply (anti_symm string_le); [done |].
    by rewrite Exz.
  - by trans y.1.
Qed.

#[global] Instance item_le_antisymm : AntiSymm (=) item_le.
Proof.
  intros [t i] [t' j]. unfold item_le. simpl.
  destruct (decide (t = t')) as [-> | Ntt'].
  - rewrite decide_True by done. intros Hij Hji. f_equal. lia.
  - rewrite decide_False by congruence. intros Htt' Ht't.
    exfalso. apply Ntt'. by apply (anti_symm string_le).
Qed.

(** Distinct terms in order, each with a number, are pairs in order. *)
Lemma imap_items_sorted l (g : nat → nat) :
  StronglySorted string_le l → NoDup l →
  StronglySorted item_le (imap (λ i t, (t, g i)) l).
Proof.
  intros Hsorted. revert g.
  induction Hsorted as [|t l _ IH Ht]; intros g Hnd; [constructor |].
  apply NoDup_cons in Hnd as [Hin Hnd].
  rewrite imap_cons. constructor.
  - exact (IH (g ∘ S) Hnd).
  - apply Forall_forall.
    intros [t' j] (i & t'' & [= -> ->] & Hi)%elem_of_lookup_imap.
    apply list_elem_of_lookup_2 in Hi.
    unfold item_le. simpl. rewrite decide_False by (by intros ->).
    by eapply Forall_forall in Ht.
Qed.

Lemma imap_items_fst l (g : nat → nat) : (imap (λ i t, (t, g i)) l).*1 = l.
Proof.
  apply list_eq. intros i.
  rewrite list_lookup_fmap, list_lookup_imap. by destruct (l !! i).
Qed.

(** The items of the vocabulary in order: the terms in order, each with its
    position. *)
Lemma sorted_items_vocabulary movies :
  sorted_items (vocabulary movies) =
    imap (λ i t, (t, i)) (sorted_set (concat (map tokens movies))).
Proof.
  set (terms := sorted_set (concat (map tokens movies))).
  apply (StronglySorted_unique item_le).
  - apply StronglySorted_merge_sort; apply _.
  - apply (imap_items_sorted terms (λ i, i));
      [apply sorted_set_sorted | apply sorted_set_NoDup].
  - unfold sorted_items. rewrite merge_sort_Permutation.
    apply NoDup_Permutation.
    + apply NoDup_map_to_list.
    + apply (NoDup_fmap_1 fst). rewrite (imap_items_fst terms (λ i, i)).
      apply sorted_set_NoDup.
    + intros [t i].
      rewrite elem_of_map_to_list, vocabulary_lookup, elem_of_lookup_imap.
      fold terms. split.
      * intros Hi. by exists i, t.
      * by intros (i' & t' & [= -> ->] & Hi).
Qed.

Lemma featurize_tokenize_Ok raw :
  Forall (λ r, tokenize_string (genres r) ≠ []) raw →
  ∃ fm, featurize (tokenize raw) = Ok (fm, vocabulary (tokenize raw)).
Proof.
  intros Hall. destruct (featurize_Ok (tokenize raw)) as (fm & Hfm & _).
  - apply tokenize_featurizable. intros r Hr. by eapply Forall_forall in Hall.
  - by exists fm.
Qed.

(** The exceptions of the stages. *)
Lemma featurize_tokenize_raise_inv raw (e : pyerr) :
  featurize (tokenize raw) = Raise e → e = IndexError.
Proof.
  intros He.
  destruct (decide (Exists (λ r, tokenize_string (genres r) = []) raw))
    as [Hex | Hall].
  - rewrite (featurize_tokenize_raise raw Hex) in He. congruence.
  - apply not_Exists_Forall in Hall; [| apply _].
    destruct (featurize_tokenize_Ok raw Hall) as [fm Hfm]. congruence.
Qed.

Lemma for_each_raise_inv {A B : Type} (f : A → result B) (xs : list A)
    (e : pyerr) :
  for_each f xs = Raise e → ∃ x, x ∈ xs ∧ f x = Raise e.
Proof.
  induction xs as [|x xs IH]; simpl; [done |].
  destruct (f x) as [y | e'] eqn:Hx; simpl.
  - destruct (for_each f xs) as [ys | e'']; simpl; [done |].
    intros [= ->]. destruct (IH eq_refl) as (x' & Hx' & Hf).
    exists x'. split; [apply elem_of_cons; by right | done].
  - intros [= ->]. exists x. split; [apply elem_of_cons; by left | done].
Qed.

Lemma divide_raise (x y : R) (e : pyerr) :
  divide x y = Raise e → e = ZeroDivision.
Proof. unfold divide. destruct (Req_dec_T y 0); [by intros [= <-] | done]. Qed.

Lemma getitem_raise (a : csr) (i : nat) (e : pyerr) :
  getitem a i = Raise e → e = IndexError.
Proof. unfold getitem. case_decide; [done | by intros [= <-]]. Qed.

Lemma cosine_loop_raise (a b : csr) (cols : list nat) (acc : result R)
    (e : pyerr) :
  (∀ e', acc = Raise e' → e' = IndexError) →
  foldl (λ acc i, v ← acc; bi ← getitem b i; ai ← getitem a i;
                  Ok (v + bi * ai)) acc cols = Raise e →
  e = IndexError.
Proof.
  revert acc. induction cols as [|i cols IH]; intros acc Hacc; simpl;
    [apply Hacc |].
  apply IH. intros e'. destruct acc as [v | e0]; simpl.
  - destruct (getitem b i) as [bi | eb] eqn:Hb; simpl.
    + destruct (getitem a i) as [ai | ea] eqn:Ha; simpl; [done |].
      intros [= <-]. by eapply getitem_raise.
    + intros [= <-]. by eapply getitem_raise.
  - intros [= <-]. by apply Hacc.
Qed.

Lemma cosine_sim_raise (a b : csr) (e : pyerr) :
  cosine_sim a b = Raise e → e = IndexError ∨ e = ZeroDivision.
Proof.
  unfold cosine_sim. cbv zeta.
  match goal with
  | |- (?m ≫= _) = _ → _ => destruct m as [v | e'] eqn:Hloop
  end; cbn [mbind result_bind].
  - case_decide; [| done].
    match goal with
    | |- (?m ≫= _) = _ → _ => destruct m as [q | e'] eqn:Hq
    end; cbn [mbind result_bind]; [done |].
    intros [= <-]. right. by eapply divide_raise.
  - intros [= <-]. left. by eapply cosine_loop_raise; [| exact Hloop].
Qed.

Lemma predict_row_raise (fm : list featurized) ratings (row : rating_row)
    (e : pyerr) :
  predict_row fm ratings row = Raise e → e = IndexError ∨ e = ZeroDivision.
Proof.
  unfold predict_row. cbv zeta.
  match goal with
  | |- (?m ≫= _) = _ → _ => destruct m as [arr | e'] eqn:Harr
  end; cbn [mbind result_bind].
  - destruct (is_positive _); [done |].
    match goal with
    | |- (?m ≫= _) = _ → _ => destruct m as [q | e'] eqn:Hq
    end; cbn [mbind result_bind]; [done |].
    intros [= <-]. right. by eapply divide_raise.
  - intros [= <-]. apply for_each_raise_inv in Harr as (r & _ & Hr).
    simpl in Hr.
    destruct (first (map features (movies_with fm (r_movieId r))))
      as [a | ea] eqn:Ha; simpl in Hr.
    + destruct (first (map features (movies_with fm (r_movieId row))))
        as [b | eb] eqn:Hb; simpl in Hr.
      * by apply cosine_sim_raise in Hr.
      * injection Hr as <-. left. by eapply first_raise.
    + injection Hr as <-. left. by eapply first_raise.
Qed.

Lemma make_predictions_raise (fm : list featurized) ratings
    (test : list rating_row) (e : pyerr) :
  make_predictions fm ratings test = Raise e →
  e = IndexError ∨ e = ZeroDivision.
Proof.
  unfold make_predictions. intros (row & _ & Hrow)%for_each_raise_inv.
  by eapply predict_row_raise.
Qed.

(** From the vectors of [featurize] every prediction is a real number. *)
Lemma predictions_finite movies (fm : list featurized) vocab
    (train test : list rating_row) (predictions : list float64) :
  featurize movies = Ok (fm, vocab) →
  make_predictions fm train test = Ok predictions →
  ∃ ps : list R, predictions = map Finite ps.
Proof.
  intros Hfm Hpred. apply for_each_Ok in Hpred.
  induction Hpred as [|row pre rows predictions Hrow _ (ps & ->)];
    [by exists [] |].
  destruct (predict_row_bounds fm train row pre) as (_ & x & -> & _);
    [| done |].
  { intros k i s. exact (featurize_similarity_nonneg movies fm vocab k i s Hfm). }
  by exists (x :: ps).
Qed.

(** The first row of a collection is a test row. *)
Lemma test_rows_nonempty {A : Type} (rows : list A) :
  rows ≠ [] → rows_where multiple_of_1000 rows ≠ [].
Proof.
  destruct rows as [|r rows]; [done |]. intros _.
  by rewrite rows_where_cons, decide_True.
Qed.
End program.

(** X23. When every movie has a token, [main] prints the title and then the
    first ten items of the vocabulary: the first ten distinct terms in
    alphabetical order, numbered 0, 1, 2, ... *)
Theorem main_vocab_items (ratings : list rating_row) (raw : list movie) :
  Forall (λ r, tokenize_string (genres r) ≠ []) raw →
  ∃ rest,
    (main ratings raw).1 =
      vocab_title ::
      vocab_items
        (take 10 (imap (λ i t, (t, i))
                    (sorted_set (concat (map tokens (tokenize raw)))))) ::
      rest.
Proof.
  intros Hall. destruct (featurize_tokenize_Ok raw Hall) as [fm Hfm].
  rewrite main_unfold, Hfm, train_test_split_rows. cbv zeta.
  rewrite sorted_items_vocabulary.
  destruct (make_predictions fm _ _) as [predictions | e];
    [| by eexists].
  destruct (mean_absolute_error predictions _) as [err | e]; by eexists.
Qed.

Lemma main_vocab_items_witness :
  Forall (λ r, tokenize_string (genres r) ≠ []) example_movies ∧
  ∃ rest,
    (main [] example_movies).1 =
      vocab_title ::
      vocab_items
        (take 10 (imap (λ i t, (t, i))
                    (sorted_set (concat (map tokens (tokenize example_movies)))))) ::
      rest.
Proof.
  assert (Forall (λ r, tokenize_string (genres r) ≠ []) example_movies) as Hall
    by (apply Forall_forall; exact example_movies_tokens).
  split; [exact Hall |].
  exact (main_vocab_items [] example_movies Hall).
Defined.

(** X24. In [main] the evaluation cannot fail: when there is a rating, and
    the features and the predictions have been computed, there is a test row,
    one prediction for each test row, the error is a number that is not
    negative, and the program prints its five lines and ends. *)
Theorem main_report (ratings : list rating_row) (raw : list movie)
    (fm : list featurized) (vocab : gmap string nat)
    (train test : list rating_row) (predictions : list float64) :
  ratings ≠ [] →
  featurize (tokenize raw) = Ok (fm, vocab) →
  train_test_split ratings = Ok (train, test) →
  make_predictions fm train test = Ok predictions →
  ∃ err : R,
    0 <= err ∧
    test ≠ [] ∧ length predictions = length test ∧
    mean_absolute_error predictions test = Ok (Finite err) ∧
    main ratings raw =
      ([vocab_title; vocab_items (take 10 (sorted_items vocab));
        split_sizes (length train) (length test);
        error_value (Finite err);
        predictions_head (take 10 predictions)], Ok ()).
Proof.
  intros Hne Hfm Hsplit Hpred.
  assert (test ≠ []) as Htest.
  { rewrite train_test_split_rows in Hsplit. injection Hsplit as _ <-.
    by apply test_rows_nonempty. }
  assert (length predictions = length test) as Hlen
    by (by eapply for_each_length).
  assert (0 < INR (length test)) as Hpos.
  { destruct test; [done |]. apply lt_0_INR. simpl. lia. }
  destruct (predictions_finite _ _ _ _ _ _ Hfm Hpred) as [ps Hps].
  pose proof Hlen as Hlen'. rewrite Hps, length_map in Hlen'.
  pose proof (mean_absolute_error_equal_length ps test Hlen') as Herr.
  rewrite np_divide_Finite in Herr by lra. rewrite <- Hps in Herr.
  eexists. split; [| split; [done | split; [done | split; [exact Herr |]]]].
  - apply Rdiv_nonneg; [| done].
    apply sum_list_nonneg, abs_differences_nonneg.
  - rewrite main_unfold, Hfm, Hsplit. cbv zeta. rewrite Hpred, Herr.
    reflexivity.
Qed.

Lemma main_report_witness :
  let ratings := scenario_test ++ scenario_train in
  ∃ fm vocab err,
    (ratings ≠ [] ∧
     featurize (tokenize scenario_movies) = Ok (fm, vocab) ∧
     train_test_split ratings = Ok (scenario_train, scenario_test) ∧
     make_predictions fm scenario_train scenario_test = Ok [Finite 4]) ∧
    0 <= err ∧
    scenario_test ≠ [] ∧ length [Finite 4] = length scenario_test ∧
    mean_absolute_error [Finite 4] scenario_test = Ok (Finite err) ∧
    main ratings scenario_movies =
      ([vocab_title; vocab_items (take 10 (sorted_items vocab));
        split_sizes (length scenario_train) (length scenario_test);
        error_value (Finite err);
        predictions_head (take 10 [Finite 4])], Ok ()).
Proof.
  intros ratings.
  destruct scenario_prediction as (fm & vocab & Hfm & Hpred).
  assert (ratings ≠ []) as Hne by discriminate.
  assert (train_test_split ratings = Ok (scenario_train, scenario_test))
    as Hsplit by (vm_compute; reflexivity).
  destruct (main_report ratings scenario_movies fm vocab scenario_train
              scenario_test [Finite 4] Hne Hfm Hsplit Hpred) as (err & Hmain).
  exists fm, vocab, err.
  split; [exact (conj Hne (conj Hfm (conj Hsplit Hpred))) | exact Hmain].
Defined.

(** X25. Whatever the ratings and the movies are, a run of [main] that ends
    with an exception ends with an [IndexError] or a division by zero: no
    look-up in [vocab] or [dfdict] misses its key, no logarithm and no sparse
    vector is outside its domain, and the predictions and the test ratings
    have one length. *)
Theorem main_errors (ratings : list rating_row) (raw : list movie)
    (out : list line) (e : pyerr) :
  main ratings raw = (out, Raise e) → e = IndexError ∨ e = ZeroDivision.
Proof.
  rewrite main_unfold.
  destruct (featurize (tokenize raw)) as [[fm vocab] | e1] eqn:Hfm.
  2:{ intros [= _ <-]. left. by eapply featurize_tokenize_raise_inv. }
  rewrite train_test_split_rows. cbv zeta.
  destruct (make_predictions fm _ _) as [predictions | e2] eqn:Hpred.
  2:{ intros [= _ <-]. by eapply make_predictions_raise. }
  pose proof (for_each_length _ _ _ Hpred) as Hlen.
  unfold mean_absolute_error, array_sub.
  rewrite decide_True by (by rewrite length_map). done.
Qed.

Lemma main_errors_witness :
  let raw := [ {| movieId := 7; genres := "|" |} ] in
  main [] raw = ([], Raise IndexError) ∧
  (IndexError = IndexError ∨ IndexError = ZeroDivision).
Proof.
  intros raw.
  assert (main [] raw = ([], Raise IndexError)) as Hmain.
  { rewrite main_unfold.
    rewrite (featurize_tokenize_raise raw) by (apply Exists_cons_hd; reflexivity).
    reflexivity. }
  split; [exact Hmain |].
  exact (main_errors [] raw [] IndexError Hmain).
Defined.

(** X28. Without ratings nothing is predicted and the error is the mean of
    no numbers: [main] prints nan for it, and ends as on any other input. *)
Theorem main_empty_ratings (raw : list movie) (fm : list featurized)
    (vocab : gmap string nat) :
  featurize (tokenize raw) = Ok (fm, vocab) →
  main [] raw =
    ([vocab_title; vocab_items (take 10 (sorted_items vocab));
      split_sizes 0 0; error_value NaN; predictions_head []], Ok ()).
Proof.
  intros Hfm. rewrite main_unfold, Hfm, train_test_split_rows. cbv zeta.
  change (rows_where (λ i, ¬ multiple_of_1000 i) (@nil rating_row)) with (@nil rating_row).
  change (rows_where multiple_of_1000 (@nil rating_row)) with (@nil rating_row).
  cbn [make_predictions for_each length].
  assert (mean_absolute_error [] [] = Ok NaN) as ->; [| reflexivity].
  exact (f_equal Ok np_divide_zero_zero).
Qed.

Lemma main_empty_ratings_witness :
  ∃ fm vocab,
    featurize (tokenize example_movies) = Ok (fm, vocab) ∧
    main [] example_movies =
      ([vocab_title; vocab_items (take 10 (sorted_items vocab));
        split_sizes 0 0; error_value NaN; predictions_head []], Ok ()).
Proof.
  assert (Forall (λ r, tokenize_string (genres r) ≠ []) example_movies) as Hall
    by (apply Forall_forall; exact example_movies_tokens).
  destruct (featurize_tokenize_Ok example_movies Hall) as [fm Hfm].
  exists fm, (vocabulary (tokenize example_movies)).
  split; [exact Hfm |].
  exact (main_empty_ratings example_movies fm _ Hfm).
Defined.
